(** * sysopt: the expression-graph engine of [sysopt.symbolic]

    A shallow embedding of [sysopt/symbolic/symbols.py] and
    [sysopt/symbolic/casts.py], with the vector class of
    [sysopt/backends/sympy/symbols.py], and the properties of the engine
    proved over it.

    Conventions of the embedding.
    - Python objects that compare by identity ([Variable], [Parameter],
      [SignalReference]: none of them defines [__eq__], and Python 3 ignores
      [__cmp__]) are records carrying their object identity; equality of the
      records is identity of the objects.
    - Numeric constants embedded in a graph are Python [int]s, modelled by [Z].
    - A Python call either returns or raises: [result] below.  Recursive
      traversals of a graph ([symbols], [call], [_get_shape_of],
      [_is_subtree_constant]) recurse on a fuel argument, and [OutOfFuel] is
      the answer of a traversal that has not finished within its fuel.
    - Module-level and class-level mutable tables ([__ops], [__shape_ops],
      [Parameter._table], [SignalReference._signals], [casts._registry],
      [SymbolicVector._names]) are explicit values threaded through the
      functions that read or write them. *)

From Stdlib Require Import Ascii.
From stdpp Require Import gmap strings list fin_maps pretty.

Set Default Proof Using "Type".
Open Scope Z_scope.

(** ** Exceptions and results *)

Inductive exn :=
| AttributeError
| ValueError
| TypeError
| KeyError
| IndexError
| NotImplementedError
| AssertionError
| ZeroDivisionError.

Global Instance exn_eq_dec : EqDecision exn.
Proof. solve_decision. Defined.

Inductive result (A : Type) :=
| Ok (a : A)
| Raise (e : exn)
| OutOfFuel.
Arguments Ok {A} a.
Arguments Raise {A} e.
Arguments OutOfFuel {A}.

Global Instance result_ret : MRet result := λ A a, Ok a.
Global Instance result_bind : MBind result := λ A B f m,
  match m with
  | Ok a => f a
  | Raise e => Raise e
  | OutOfFuel => OutOfFuel
  end.
Global Instance result_fmap : FMap result := λ A B f m,
  match m with
  | Ok a => Ok (f a)
  | Raise e => Raise e
  | OutOfFuel => OutOfFuel
  end.

(** ** Shapes and the shape rules (symbols.py, lines 58-90) *)

(** A shape is a tuple of ints. *)
Definition shape := list Z.

Definition scalar_shape : shape := [1].

(** [infer_scalar_shape] over its argument shapes: [shapes[0]] raises
    [IndexError] on an empty argument list. *)
Fixpoint infer_scalar_shape_loop (this_shape : shape) (rest : list shape)
  : result shape :=
  match rest with
  | [] => Ok this_shape
  | shape :: rest' =>
      if bool_decide (shape = this_shape ∨ shape = scalar_shape)
      then infer_scalar_shape_loop this_shape rest'
      else if bool_decide (this_shape = [1])
           then infer_scalar_shape_loop shape rest'
           else Raise AttributeError
  end.

Definition infer_scalar_shape (shapes : list shape) : result shape :=
  match shapes with
  | [] => Raise IndexError
  | this_shape :: rest => infer_scalar_shape_loop this_shape rest
  end.

(** [n, m = s]: unpacking a tuple that has not exactly two components raises
    [ValueError]. *)
Definition unpack2 (s : shape) : result (Z * Z) :=
  match s with
  | [n; m] => Ok (n, m)
  | _ => Raise ValueError
  end.

Fixpoint matmul_shape_loop (n m : Z) (rest : list shape) : result shape :=
  match rest with
  | [] => Ok [n; m]
  | s :: rest' =>
      '(n_next, m_next) ← unpack2 s;
      if bool_decide (m ≠ n_next)
      then Raise AttributeError
      else matmul_shape_loop n m_next rest'
  end.

Definition matmul_shape (shapes : list shape) : result shape :=
  match shapes with
  | [] => Raise IndexError
  | s0 :: rest =>
      '(n, m) ← unpack2 s0;
      matmul_shape_loop n m rest
  end.

(** [transpose_shape(shape)] takes exactly one positional argument. *)
Definition transpose_shape (shapes : list shape) : result shape :=
  match shapes with
  | [s] => '(n, m) ← unpack2 s; Ok [m; n]
  | _ => Raise TypeError
  end.

(** ** The operator registry (symbols.py, lines 55-56, 93-171, 258-259, 495-497) *)

(** The functions this module registers as operators, in source order. *)
Inductive func :=
| power
| add
| sub
| matmul
| neg
| mul
| div
| transpose
| evaluate_signal.

Global Instance func_eq_dec : EqDecision func.
Proof. solve_decision. Defined.

Definition func_code (f : func) : nat :=
  match f with
  | power => 0 | add => 1 | sub => 2 | matmul => 3 | neg => 4
  | mul => 5 | div => 6 | transpose => 7 | evaluate_signal => 8
  end%nat.

Definition func_of_code (n : nat) : func :=
  match n with
  | 0 => power | 1 => add | 2 => sub | 3 => matmul | 4 => neg
  | 5 => mul | 6 => div | 7 => transpose | _ => evaluate_signal
  end%nat.

Global Instance func_countable : Countable func.
Proof.
  refine (inj_countable' func_code func_of_code _). by intros [].
Defined.

(** [len(signature(func).parameters)]; none of the functions is variadic. *)
Definition signature_parameters (f : func) : nat :=
  match f with
  | neg | transpose => 1
  | _ => 2
  end%nat.

Definition shape_func := list shape → result shape.

(** The two module-level tables: [__ops], a [defaultdict(list)] keyed by the
    arity index ([None] for a variadic function), and [__shape_ops]. *)
Record op_tables := {
  ops_table : gmap (option nat) (list func);
  shape_ops : gmap func shape_func
}.

Definition empty_tables : op_tables :=
  {| ops_table := ∅; shape_ops := ∅ |}.

(** [register_op(shape_func)(func)]. *)
Definition register_op (shape_fn : shape_func) (f : func) (t : op_tables)
  : op_tables :=
  let idx := Some (signature_parameters f) in
  {| ops_table := <[idx := default [] (ops_table t !! idx) ++ [f]]> (ops_table t);
     shape_ops := <[f := shape_fn]> (shape_ops t) |}.

(** The tables once the module is loaded: the decorators in source order. *)
Definition tables : op_tables :=
  register_op infer_scalar_shape evaluate_signal
    (register_op transpose_shape transpose
    (register_op infer_scalar_shape div
    (register_op infer_scalar_shape mul
    (register_op infer_scalar_shape neg
    (register_op matmul_shape matmul
    (register_op infer_scalar_shape sub
    (register_op infer_scalar_shape add
    (register_op infer_scalar_shape power empty_tables)))))))).

(** [infer_shape]: the rule [__shape_ops[op]] applied to the shapes. *)
Definition infer_shape_in (t : op_tables) (op : func) (shapes : list shape)
  : result shape :=
  match shape_ops t !! op with
  | Some rule => rule shapes
  | None => Raise KeyError
  end.

Definition infer_shape := infer_shape_in tables.

(** [is_op(value)]: membership of [value] in one of the lists of [__ops]. *)
Definition func_is_op_in (t : op_tables) (f : func) : bool :=
  existsb (λ ops : list func, bool_decide (f ∈ ops))
    (snd <$> map_to_list (ops_table t)).

(** ** Leaf objects (symbols.py, lines 414-546) *)

(** [Variable]: [var_id] is the identity of the object. *)
Record VariableObj := mkVariable {
  var_id : N;
  var_name : option string;
  var_shape : shape
}.

(** The port collaborator: an identity and a length. *)
Record Port := mkPort {
  port_id : N;
  port_len : Z
}.

(** [Parameter]: [param_id] is the identity of the object; [param_uid],
    [param_index] and [param_parent] are the attributes [uid], [index] and
    [_parent] (a weak reference to the block, kept as the block's identity)
    that [__new__] sets. *)
Record ParameterObj := mkParameter {
  param_id : N;
  param_uid : N * Z;
  param_index : Z;
  param_parent : N
}.

(** [SignalReference]: [sig_id] is the identity of the object. *)
Record SignalReference := mkSignal {
  sig_id : N;
  port : Port
}.

Inductive leaf :=
| LVariable (v : VariableObj)
| LParameter (p : ParameterObj)
| LSignal (s : SignalReference)
| LInt (z : Z).

(** What a node list holds: a registered function or a leaf value. *)
Inductive node :=
| NFunc (f : func)
| NLeaf (l : leaf).

Global Instance VariableObj_eq_dec : EqDecision VariableObj.
Proof. solve_decision. Defined.
Global Instance Port_eq_dec : EqDecision Port.
Proof. solve_decision. Defined.
Global Instance ParameterObj_eq_dec : EqDecision ParameterObj.
Proof. solve_decision. Defined.
Global Instance SignalReference_eq_dec : EqDecision SignalReference.
Proof. solve_decision. Defined.
Global Instance leaf_eq_dec : EqDecision leaf.
Proof. solve_decision. Defined.
Global Instance node_eq_dec : EqDecision node.
Proof. solve_decision. Defined.

Global Instance VariableObj_countable : Countable VariableObj.
Proof.
  refine (inj_countable' (λ v, (var_id v, var_name v, var_shape v))
            (λ t, mkVariable t.1.1 t.1.2 t.2) _).
  by intros [].
Defined.
Global Instance Port_countable : Countable Port.
Proof.
  refine (inj_countable' (λ p, (port_id p, port_len p))
            (λ t, mkPort t.1 t.2) _).
  by intros [].
Defined.
Global Instance ParameterObj_countable : Countable ParameterObj.
Proof.
  refine (inj_countable'
            (λ p, (param_id p, param_uid p, param_index p, param_parent p))
            (λ t, mkParameter t.1.1.1 t.1.1.2 t.1.2 t.2) _).
  by intros [].
Defined.
Global Instance SignalReference_countable : Countable SignalReference.
Proof.
  refine (inj_countable' (λ s, (sig_id s, port s))
            (λ t, mkSignal t.1 t.2) _).
  by intros [].
Defined.
Global Instance leaf_countable : Countable leaf.
Proof.
  refine (inj_countable'
            (λ l, match l with
                  | LVariable v => inl (inl v)
                  | LParameter p => inl (inr p)
                  | LSignal s => inr (inl s)
                  | LInt z => inr (inr z)
                  end)
            (λ c, match c with
                  | inl (inl v) => LVariable v
                  | inl (inr p) => LParameter p
                  | inr (inl s) => LSignal s
                  | inr (inr z) => LInt z
                  end) _).
  by intros [].
Defined.

Definition is_op_in (t : op_tables) (value : node) : bool :=
  match value with
  | NFunc f => func_is_op_in t f
  | NLeaf _ => false
  end.

Definition is_op : node → bool := is_op_in tables.

(** [_t = Variable('t')] and [get_time_variable()]. *)
Definition _t : VariableObj :=
  {| var_id := 0; var_name := Some "t"%string; var_shape := scalar_shape |}.

Definition get_time_variable : VariableObj := _t.

(** The [symbols()] method of a leaf object; an [int] has none
    ([AttributeError], which [ExpressionGraph.symbols] turns into [set()]). *)
Definition Variable_symbols (self : VariableObj) : gset leaf :=
  {[ LVariable self ]}.

Definition Parameter_symbols (self : ParameterObj) : gset leaf :=
  {[ LParameter self ]}.

Definition SignalReference_t (self : SignalReference) : VariableObj :=
  get_time_variable.

Definition SignalReference_symbols (self : SignalReference) : gset leaf :=
  {[ LSignal self; LVariable (SignalReference_t self) ]}.

Definition leaf_symbols (obj : leaf) : result (gset leaf) :=
  match obj with
  | LVariable v => Ok (Variable_symbols v)
  | LParameter p => Ok (Parameter_symbols p)
  | LSignal s => Ok (SignalReference_symbols s)
  | LInt _ => Raise AttributeError
  end.

(** The [shape] property of a leaf object. *)
Definition leaf_shape (obj : leaf) : result shape :=
  match obj with
  | LVariable v => Ok (var_shape v)
  | LParameter _ => Ok scalar_shape
  | LSignal s => Ok [port_len (port s)]
  | LInt _ => Raise AttributeError
  end.

(** ** Insertion-ordered dictionaries with [nat] keys

    The edge map of a graph is a Python [dict]; [merge_and_return_subgraph_head]
    iterates over one, so the order of insertion is kept. *)

Definition dict (V : Type) := list (nat * V).

Fixpoint dict_get {V} (d : dict V) (k : nat) : option V :=
  match d with
  | [] => None
  | (k', v) :: d' => if bool_decide (k' = k) then Some v else dict_get d' k
  end.

(** [d[k] = v]: an existing key keeps its position. *)
Fixpoint dict_set {V} (d : dict V) (k : nat) (v : V) : dict V :=
  match d with
  | [] => [(k, v)]
  | (k', v') :: d' =>
      if bool_decide (k' = k) then (k, v) :: d' else (k', v') :: dict_set d' k v
  end.

(** [d.update(other)]. *)
Definition dict_update {V} (d other : dict V) : dict V :=
  foldl (λ acc kv, dict_set acc kv.1 kv.2) d other.

(** ** ExpressionGraph (symbols.py, lines 262-411) *)

Record ExpressionGraph := mkGraph {
  nodes : list node;
  edges : dict (list nat);
  head : nat
}.

(** What [add_or_get_node] can be handed: the graph itself ([value is self]),
    another graph, or a value that becomes a node. *)
Inductive arg :=
| ASelf
| AGraph (g : ExpressionGraph)
| AValue (v : node).

(** [self.nodes.index(value)]: the first position holding an equal value,
    [None] for [ValueError]. *)
Definition nodes_index (ns : list node) (value : node) : option nat :=
  fst <$> list_find (λ n, n = value) ns.

Definition append_node (self : ExpressionGraph) (value : node)
  : ExpressionGraph * nat :=
  (mkGraph (nodes self ++ [value]) (edges self) (head self),
   length (nodes self)).

(** [add_or_get_node] on a value that is neither [self] nor a graph
    (lines 318-321 and 324-332). *)
Definition add_or_get_value (self : ExpressionGraph) (value : node)
  : ExpressionGraph * nat :=
  if is_op value then append_node self value
  else match nodes_index (nodes self) value with
       | Some idx => (self, idx)
       | None => append_node self value
       end.

(** The dict comprehension [new_indices] of [merge_and_return_subgraph_head]:
    the nodes of the other graph are inserted in order, and the keys
    [0 .. len(other.nodes) - 1] are the positions of the list. *)
Fixpoint merge_nodes (self : ExpressionGraph) (other_nodes : list node)
  : ExpressionGraph * list nat :=
  match other_nodes with
  | [] => (self, [])
  | n :: rest =>
      let '(self1, idx) := add_or_get_value self n in
      let '(self2, indices) := merge_nodes self1 rest in
      (self2, idx :: indices)
  end.

(** [new_indices[k]]. *)
Definition new_index (new_indices : list nat) (k : nat) : result nat :=
  match new_indices !! k with
  | Some i => Ok i
  | None => Raise KeyError
  end.

Definition merge_and_return_subgraph_head (self other : ExpressionGraph)
  : result (ExpressionGraph * nat) :=
  let '(self1, new_indices) := merge_nodes self (nodes other) in
  remapped ← mapM (λ pc : nat * list nat,
                     parent ← new_index new_indices pc.1;
                     children ← mapM (new_index new_indices) pc.2;
                     Ok (parent, children))
                  (edges other);
  new_head ← new_index new_indices (head other);
  Ok (mkGraph (nodes self1)
        (dict_update (edges self1) (dict_update [] remapped))
        (head self1),
      new_head).

Definition add_or_get_node (self : ExpressionGraph) (value : arg)
  : result (ExpressionGraph * nat) :=
  match value with
  | ASelf => Ok (self, head self)
  | AValue v => Ok (add_or_get_value self v)
  | AGraph other => merge_and_return_subgraph_head self other
  end.

(** [[self.add_or_get_node(a) for a in args]], threading the graph. *)
Fixpoint add_or_get_nodes (self : ExpressionGraph) (args : list arg)
  : result (ExpressionGraph * list nat) :=
  match args with
  | [] => Ok (self, [])
  | a :: rest =>
      '(self1, idx) ← add_or_get_node self a;
      '(self2, indices) ← add_or_get_nodes self1 rest;
      Ok (self2, idx :: indices)
  end.

(** [ExpressionGraph(op, *args)]; every caller passes a registered function
    as [op], and the graph under construction is not yet anyone's argument. *)
Definition ExpressionGraph_init (op : func) (args : list arg)
  : result ExpressionGraph :=
  let '(self0, op_node) := add_or_get_value (mkGraph [] [] 0%nat) (NFunc op) in
  '(self1, indices) ← add_or_get_nodes self0 args;
  Ok (mkGraph (nodes self1) (dict_update (edges self1) [(op_node, indices)])
        op_node).

Definition push_op (self : ExpressionGraph) (op : func) (args : list arg)
  : result ExpressionGraph :=
  let '(self0, op_node) := add_or_get_value self (NFunc op) in
  '(self1, node_indices) ← add_or_get_nodes self0 args;
  Ok (mkGraph (nodes self1) (dict_set (edges self1) op_node node_indices)
        op_node).

(** *** [symbols] (lines 393-411) *)

(** [obj.symbols()] on a node object; a function has no such attribute. *)
Definition obj_symbols (obj : node) : result (gset leaf) :=
  match obj with
  | NFunc _ => Raise AttributeError
  | NLeaf l => leaf_symbols l
  end.

(** [set.union] over the unpacked child sets needs at least one argument. *)
Definition set_union (sets : list (gset leaf)) : result (gset leaf) :=
  match sets with
  | [] => Raise TypeError
  | s :: rest => Ok (s ∪ ⋃ rest)
  end.

Fixpoint symbols_recurse (fuel : nat) (self : ExpressionGraph) (node : nat)
  : result (gset leaf) :=
  match fuel with
  | O => OutOfFuel
  | S fuel' =>
      match nodes self !! node with
      | None => Raise IndexError
      | Some obj =>
          if negb (is_op obj) then
            match obj_symbols obj with
            | Raise AttributeError => Ok ∅
            | r => r
            end
          else
            match dict_get (edges self) node with
            | None => Raise KeyError
            | Some children =>
                sets ← mapM (symbols_recurse fuel' self) children;
                child_symbols ← set_union sets;
                if bool_decide (obj = NFunc evaluate_signal)
                then Ok (child_symbols ∖ {[ LVariable get_time_variable ]})
                else Ok child_symbols
            end
      end
  end.

Definition symbols (fuel : nat) (self : ExpressionGraph) : result (gset leaf) :=
  symbols_recurse fuel self (head self).

(** *** [is_symbolic] (lines 310-312)

    The comparison [self.symbols() != {}] is between a set and a dict
    literal.  Neither type implements the comparison with the other, so
    Python falls back on identity: the operands are unequal. *)

Inductive container :=
| SetOf (s : gset leaf)
| DictOf (d : gmap leaf leaf).

Definition py_ne (a b : container) : bool :=
  match a, b with
  | SetOf s1, SetOf s2 => bool_decide (s1 ≠ s2)
  | DictOf d1, DictOf d2 => bool_decide (d1 ≠ d2)
  | _, _ => true
  end.

Definition is_symbolic (fuel : nat) (self : ExpressionGraph) : result bool :=
  s ← symbols fuel self;
  Ok (py_ne (SetOf s) (DictOf ∅)).

(** *** [shape] and [_get_shape_of] (lines 274-294) *)

Definition is_number (obj : node) : bool :=
  match obj with
  | NLeaf (LInt _) => true
  | _ => false
  end.

Definition obj_shape (obj : node) : result shape :=
  match obj with
  | NFunc _ => Raise AttributeError
  | NLeaf l => leaf_shape l
  end.

(** [infer_shape(op, ...)] on a node object: only a registered function is a
    key of [__shape_ops]. *)
Definition infer_shape_obj (op : node) (shapes : list shape) : result shape :=
  match op with
  | NFunc f => infer_shape f shapes
  | NLeaf _ => Raise KeyError
  end.

Fixpoint _get_shape_of (fuel : nat) (self : ExpressionGraph) (node : nat)
  : result shape :=
  match fuel with
  | O => OutOfFuel
  | S fuel' =>
      match dict_get (edges self) node with
      | Some children =>
          match nodes self !! node with
          | None => Raise IndexError
          | Some op =>
              shapes ← mapM (_get_shape_of fuel' self) children;
              infer_shape_obj op shapes
          end
      | None =>
          match nodes self !! node with
          | None => Raise IndexError
          | Some obj =>
              match obj_shape obj with
              | Raise AttributeError =>
                  if is_number obj then Ok scalar_shape
                  else Raise NotImplementedError
              | r => r
              end
          end
      end
  end.

Definition ExpressionGraph_shape (fuel : nat) (self : ExpressionGraph)
  : result shape :=
  _get_shape_of fuel self (head self).

(** *** [is_temporal] and [_is_subtree_constant] (lines 568-588) *)

(** [is_temporal] on a symbol that is not an [ExpressionGraph]. *)
Definition is_temporal_obj (symbol : node) : bool :=
  match symbol with
  | NLeaf (LSignal _) => true
  | _ =>
      if bool_decide (symbol = NLeaf (LVariable get_time_variable)) then true
      else if is_op symbol then false
      else false
  end.

(** [all(f(child) for child in children)] stops at the first [False]. *)
Fixpoint all_of (f : nat → result bool) (children : list nat) : result bool :=
  match children with
  | [] => Ok true
  | child :: rest =>
      f child ≫= λ b : bool, if b then all_of f rest else Ok false
  end.

(** The nodes of a graph are never graphs themselves, so the call
    [is_temporal(obj)] on a node is [is_temporal_obj]. *)
Fixpoint _is_subtree_constant (fuel : nat) (graph : ExpressionGraph)
    (node : nat) : result bool :=
  match fuel with
  | O => OutOfFuel
  | S fuel' =>
      match nodes graph !! node with
      | None => Raise IndexError
      | Some obj =>
          if negb (is_op obj) then Ok (negb (is_temporal_obj obj))
          else if bool_decide (obj = NFunc evaluate_signal) then Ok true
          else
            match dict_get (edges graph) node with
            | None => Raise KeyError
            | Some children => all_of (_is_subtree_constant fuel' graph) children
            end
      end
  end.

Inductive symbol :=
| SymGraph (g : ExpressionGraph)
| SymObj (obj : node).

Definition is_temporal (fuel : nat) (symbol : symbol) : result bool :=
  match symbol with
  | SymGraph g => negb <$> _is_subtree_constant fuel g (head g)
  | SymObj obj => Ok (is_temporal_obj obj)
  end.

(** *** [call] (lines 296-308)

    The operators are Python functions over run-time values: [lhs + rhs],
    [base ** exponent], [signal(t)], ...  What these do depends on the
    operands' types (ints, floats, backend matrices, callables); the
    arithmetic of the run-time values is therefore an interface. *)

Class PyValues (V : Type) := {
  (** a node object taken as a value (an unbound leaf passes through) *)
  of_obj : node → V;
  py_pow : V → V → result V;        (* base ** exponent *)
  py_add : V → V → result V;        (* lhs + rhs *)
  py_sub : V → V → result V;        (* lhs - rhs *)
  py_matmul : V → V → result V;     (* lhs @ rhs *)
  py_neg : V → result V;            (* -obj *)
  py_mul : V → V → result V;        (* lhs * rhs *)
  py_truediv : V → V → result V;    (* lhs / rhs *)
  py_T : V → result V;              (* matrix.T *)
  py_call : V → V → result V        (* signal(t) *)
}.

(** The bodies of the registered functions (lines 134-171 and 495-497); a
    call with the wrong number of positional arguments is a [TypeError]. *)
Definition apply_func {V} `{PyValues V} (f : func) (args : list V) : result V :=
  match f, args with
  | power, [base; exponent] => py_pow base exponent
  | add, [lhs; rhs] => py_add lhs rhs
  | sub, [lhs; rhs] => py_sub lhs rhs
  | matmul, [lhs; rhs] => py_matmul lhs rhs
  | neg, [obj] => py_neg obj
  | mul, [lhs; rhs] => py_mul lhs rhs
  | div, [lhs; rhs] => py_truediv lhs rhs
  | transpose, [matrix] => py_T matrix
  | evaluate_signal, [signal; t] => py_call signal t
  | _, _ => Raise TypeError
  end.

(** Calling a node object: only functions are callable here. *)
Definition apply_obj {V} `{PyValues V} (obj : node) (args : list V) : result V :=
  match obj with
  | NFunc f => apply_func f args
  | NLeaf _ => Raise TypeError
  end.

(** [values[obj]], [None] for [KeyError]: the keys of [values] are leaves. *)
Definition values_get {V} (values : gmap leaf V) (obj : node) : option V :=
  match obj with
  | NFunc _ => None
  | NLeaf l => values !! l
  end.

Fixpoint call_recurse {V} `{PyValues V} (fuel : nat) (self : ExpressionGraph)
    (values : gmap leaf V) (node : nat) : result V :=
  match fuel with
  | O => OutOfFuel
  | S fuel' =>
      match nodes self !! node with
      | None => Raise IndexError
      | Some obj =>
          if is_op obj then
            match dict_get (edges self) node with
            | None => Raise KeyError
            | Some children =>
                args ← mapM (call_recurse fuel' self values) children;
                apply_obj obj args
            end
          else
            match values_get values obj with
            | Some v => Ok v
            | None => Ok (of_obj obj)
            end
      end
  end.

Definition call {V} `{PyValues V} (fuel : nat) (self : ExpressionGraph)
    (values : gmap leaf V) : result V :=
  call_recurse fuel self values (head self).

(** *** [__hash__] (lines 390-391)

    [hash((self.edges, h_0, ..., h_k))]: the tuple holds the edge dict itself
    followed by the (integer) hashes of the nodes.  Hashing a tuple hashes
    every item, and a [dict] is unhashable. *)

Inductive tuple_item :=
| ItemDict (d : dict (list nat))
| ItemInt (z : Z).

Section Hashing.
(** The interpreter's hash functions. *)
Variable hash_obj : node → Z.
Variable hash_int : Z → Z.
Variable hash_combine : list Z → Z.

Definition hash_item (i : tuple_item) : result Z :=
  match i with
  | ItemDict _ => Raise TypeError
  | ItemInt z => Ok (hash_int z)
  end.

Definition hash_tuple (items : list tuple_item) : result Z :=
  hashes ← mapM hash_item items;
  Ok (hash_combine hashes).

Definition ExpressionGraph_hash (self : ExpressionGraph) : result Z :=
  hash_tuple (ItemDict (edges self)
              :: ((λ n, ItemInt (hash_obj n)) <$> nodes self)).
End Hashing.

(** *** The operators that build graphs (lines 209-240, 354-388, 542-543) *)

Definition Algebraic_add (self : leaf) (other : arg) : result ExpressionGraph :=
  ExpressionGraph_init add [AValue (NLeaf self); other].

Definition Algebraic_mul (self : leaf) (other : arg) : result ExpressionGraph :=
  ExpressionGraph_init mul [AValue (NLeaf self); other].

Definition Algebraic_matmul (self : leaf) (other : arg)
  : result ExpressionGraph :=
  ExpressionGraph_init matmul [AValue (NLeaf self); other].

Definition ExpressionGraph_add (self : ExpressionGraph) (other : arg)
  : result ExpressionGraph :=
  push_op self add [ASelf; other].

Definition ExpressionGraph_radd (self : ExpressionGraph) (other : arg)
  : result ExpressionGraph :=
  push_op self add [other; ASelf].

(** [SignalReference.__call__(self, t)]. *)
Definition SignalReference_call (self : SignalReference) (t : arg)
  : result ExpressionGraph :=
  ExpressionGraph_init evaluate_signal [AValue (NLeaf (LSignal self)); t].

(** ** Parameter construction (lines 17-26 and 447-469) *)

(** The block collaborator: its identity, its parameter names, and its
    [find_by_name] method, which returns an index or raises. *)
Record Block := mkBlock {
  block_id : N;
  parameters : list string;
  find_by_name : string → string → result Z
}.

(** [block.parameters.index(name)]. *)
Definition parameters_index (names : list string) (name : string) : option nat :=
  fst <$> list_find (λ n : string, n = name) names.

Definition find_param_index_by_name (block : Block) (name : string)
  : result Z :=
  match find_by_name block "parameters"%string name with
  | Raise ValueError =>
      match parameters_index (parameters block) name with
      | Some i => Ok (Z.of_nat i)
      | None => Raise ValueError
      end
  | r => r
  end.

(** The second argument of the constructor: a name or an index. *)
Inductive param_ref :=
| ByName (name : string)
| ByIndex (index : Z).

(** The class attribute [Parameter._table], and the identity the next
    allocated object gets. *)
Record param_state := mkParamState {
  _table : gmap (N * Z) ParameterObj;
  next_id : N
}.

(** [Parameter.__new__(cls, block, parameter)]: the result, and the state the
    call leaves behind (also when it raises). *)
Definition Parameter_new (st : param_state) (block : Block)
    (parameter : param_ref) : result ParameterObj * param_state :=
  let r_index :=
    match parameter with
    | ByName name => find_param_index_by_name block name
    | ByIndex index => Ok index
    end in
  match r_index with
  | Ok index =>
      if bool_decide (0 ≤ index < Z.of_nat (length (parameters block))) then
        let uid := (block_id block, index) in
        match _table st !! uid with
        | Some obj => (Ok obj, st)
        | None =>
            let obj := mkParameter (next_id st) uid index (block_id block) in
            (Ok obj, mkParamState (<[uid := obj]> (_table st))
                                  (N.succ (next_id st)))
        end
      else (Raise AssertionError, st)
  | Raise e => (Raise e, st)
  | OutOfFuel => (OutOfFuel, st)
  end.

(** Any further constructor calls made by the process, in order. *)
Definition run_constructions (st : param_state)
    (calls : list (Block * param_ref)) : param_state :=
  foldl (λ s c, (Parameter_new s c.1 c.2).2) st calls.

(** ** Parameter attributes (lines 480-485) *)

(** [lst[i]] for a Python list: a negative index counts from the end, an
    index out of range raises [IndexError]. *)
Definition py_list_get {A} (lst : list A) (i : Z) : result A :=
  let n := Z.of_nat (length lst) in
  let j := if bool_decide (i < 0) then i + n else i in
  if bool_decide (0 ≤ j < n) then
    match lst !! Z.to_nat j with
    | Some x => Ok x
    | None => Raise IndexError
    end
  else Raise IndexError.


Section ParameterAttributes.
(** [deref] is the call of a weak reference to a block, by the identity of
    the block: the block while it is alive, [None] afterwards. *)
Variable deref : N → option Block.


End ParameterAttributes.

(** The states of the table the process can be in: empty at first, then
    changed by constructor calls only. *)
Inductive param_reachable : param_state → Prop :=
| param_reachable_init (n : N) : param_reachable (mkParamState ∅ n)
| param_reachable_new (st : param_state) (block : Block)
    (parameter : param_ref) :
    param_reachable st →
    param_reachable (Parameter_new st block parameter).2.

(** What the table holds: under a key, an object carrying that key, and
    whose identity was allocated before. *)
Definition table_inv (st : param_state) : Prop :=
  ∀ uid obj, _table st !! uid = Some obj →
    param_uid obj = uid ∧ param_index obj = uid.2
    ∧ param_parent obj = uid.1 ∧ (param_id obj < next_id st)%N.

(** ** SignalReference construction (lines 508-523)

    [SignalReference._signals] maps the identity of a port to a weak
    reference to the signal made for it.  A weak reference does not keep its
    referent: once the signal is collected, calling the reference gives
    [None].  The state holds the table (a weak reference kept as the
    identity of its referent), the identities of the signals that are still
    alive, and the identity the next allocated signal gets. *)
Record signal_state := mkSignalState {
  _signals : gmap N N;
  live_signals : gset N;
  next_signal : N
}.

(** Calling a weak reference. *)
Definition weakref_call (st : signal_state) (referent : N) : option N :=
  if bool_decide (referent ∈ live_signals st) then Some referent else None.

(** [SignalReference(port)]: [__new__], then [__init__], which sets the
    attribute [port] of the object [__new__] returned.  A missing key
    ([KeyError]) and a dead reference ([AssertionError]) both lead to a new
    object. *)
Definition SignalReference_new (st : signal_state) (port : Port)
  : SignalReference * signal_state :=
  let source_id := port_id port in
  match _signals st !! source_id ≫= weakref_call st with
  | Some new_signal => (mkSignal new_signal port, st)
  | None =>
      let new_signal := next_signal st in
      (mkSignal new_signal port,
       mkSignalState (<[source_id := new_signal]> (_signals st))
                     ({[ new_signal ]} ∪ live_signals st)
                     (N.succ new_signal))
  end.

(** What happens to the signals between two constructions: further
    constructions, and collections of signals nothing refers to any more. *)
Inductive signal_action :=
| MakeSignal (port : Port)
| CollectSignals (dead : gset N).

Definition signal_step (st : signal_state) (a : signal_action)
  : signal_state :=
  match a with
  | MakeSignal port => (SignalReference_new st port).2
  | CollectSignals dead =>
      mkSignalState (_signals st) (live_signals st ∖ dead) (next_signal st)
  end.

Definition run_signal_actions (st : signal_state)
    (actions : list signal_action) : signal_state :=
  foldl signal_step st actions.

(** Identities in use were allocated before. *)
Definition signals_inv (st : signal_state) : Prop :=
  (∀ pid sid, _signals st !! pid = Some sid → (sid < next_signal st)%N)
  ∧ ∀ sid, sid ∈ live_signals st → (sid < next_signal st)%N.

(** ** The cast registry (casts.py) *)

Section Casts.
(** Python types [T] and values [V]; [type_of] is the builtin [type]. *)
Context {T : Type} `{Countable T} {V : Type}.
Variable type_of : V → T.

Definition caster := V → result V.

(** [_registry]: from-type, then to-type, to the caster. *)
Definition registry := gmap T (gmap T caster).

(** [register(from_type, to_type)(the_caster)]. *)
Definition register (from_type to_type : T) (the_caster : caster)
    (reg : registry) : result registry :=
  match reg !! from_type with
  | None => Ok (<[from_type := <[to_type := the_caster]> ∅]> reg)
  | Some casters =>
      if bool_decide (is_Some (casters !! to_type)) then Raise AssertionError
      else Ok (<[from_type := <[to_type := the_caster]> casters]> reg)
  end.

(** [caster, = casters.values()]. *)
Definition unpack1 (casters : gmap T caster) : result caster :=
  match map_to_list casters with
  | [(_, c)] => Ok c
  | _ => Raise ValueError
  end.

Definition cast_type (reg : registry) (var : V) (to_type : option T)
  : result V :=
  let from_type := type_of var in
  match to_type with
  | None =>
      match reg !! from_type with
      | None => Raise NotImplementedError
      | Some casters =>
          if bool_decide (size casters ≠ 1%nat) then Raise TypeError
          else unpack1 casters ≫= λ c, c var
      end
  | Some to_type =>
      match reg !! from_type ≫= λ casters : gmap T caster, casters !! to_type with
      | None => Raise NotImplementedError
      | Some c => c var
      end
  end.

(** [cast_like(var, var_like)] (lines 44-46). *)
Definition cast_like (reg : registry) (var var_like : V) : result V :=
  let to_type := type_of var_like in
  cast_type reg var (Some to_type).

(** The converters registered for a source type. *)
Definition converters (reg : registry) (from_type : T) : gmap T caster :=
  default ∅ (reg !! from_type).

(** The registries the process can be in: built from the empty dict by
    calls of [register] that returned. *)
Inductive reachable : registry → Prop :=
| reachable_empty : reachable ∅
| reachable_register reg reg' from_type to_type the_caster :
    reachable reg →
    register from_type to_type the_caster reg = Ok reg' →
    reachable reg'.
End Casts.

(** ** The sympy backend (backends/sympy/symbols.py) *)

(** [SymbolicVector._validate_name] (lines 24-34): [_names] counts, per
    name, the calls made so far; the state after the call is returned with
    the result.  [pretty] is the decimal numeral of [f'{idx}']. *)
Definition _validate_name (_names : gmap string N) (name : string)
  : string * gmap string N :=
  let '(idx, names1) :=
    match _names !! name with
    | Some idx => (idx, _names)
    | None => (0%N, <[name := 0%N]> _names)
    end in
  let names2 := <[name := (default 0%N (names1 !! name) + 1)%N]> names1 in
  (name +:+ ("_" +:+ pretty idx), names2).

(** A sequence of calls, threading [_names]. *)
Fixpoint validate_names (_names : gmap string N) (names : list string)
  : list string * gmap string N :=
  match names with
  | [] => ([], _names)
  | name :: rest =>
      let '(r, names1) := _validate_name _names name in
      let '(rs, names2) := validate_names names1 rest in
      (r :: rs, names2)
  end.

Section SymbolicVector.
(** The entries of a vector are objects, compared by identity. *)
Context {A : Type} `{EqDecision A}.

(** [SymbolicVector.index] (lines 105-109): the loop over
    [enumerate(self)], from position [i]. *)
Fixpoint index_loop (i : nat) (items : list A) (value : A) : Z :=
  match items with
  | [] => -1
  | v :: rest =>
      if bool_decide (v = value) then Z.of_nat i
      else index_loop (S i) rest value
  end.

Definition SymbolicVector_index (self : list A) (value : A) : Z :=
  index_loop 0 self value.

(** [range(start, stop, step)] for integers, [step] not zero. *)
Definition range_length (start stop step : Z) : Z :=
  if bool_decide (0 < step) then
    if bool_decide (start < stop) then (stop - start - 1) `div` step + 1
    else 0
  else
    if bool_decide (stop < start) then (start - stop - 1) `div` (- step) + 1
    else 0.

Definition py_range (start stop step : Z) : list Z :=
  (λ k, start + k * step) <$> seqZ 0 (range_length start stop step).

(** A subscript: a slice, whose fields may be [None], or anything else. *)
Inductive subscript :=
| SubSlice (start stop step : option Z)
| SubIndex (i : Z).

(** The right-hand side of an assignment: a [list], or anything else. *)
Inductive assigned :=
| AsList (items : list A)
| AsItem (item : A).

(** [sympy.Matrix.__setitem__], the method of the parent class. *)
Variable Matrix_setitem : list A → subscript → assigned → result (list A).

(** The loop of lines 114-115 over [enumerate(range(...))]. *)
Fixpoint setitem_loop (self : list A) (i : Z) (js : list Z) (value : list A)
  : result (list A) :=
  match js with
  | [] => Ok self
  | j :: rest =>
      item ← py_list_get value i;
      self' ← Matrix_setitem self (SubIndex j) (AsItem item);
      setitem_loop self' (i + 1) rest value
  end.

(** [SymbolicVector.__setitem__] (lines 111-117): the vector after the
    assignment.  [range] raises [TypeError] on [None]. *)
Definition SymbolicVector_setitem (self : list A) (key : subscript)
    (value : assigned) : result (list A) :=
  match key, value with
  | SubSlice start stop step, AsList items =>
      let step := match step with
                  | Some s => if bool_decide (s = 0) then 1 else s
                  | None => 1
                  end in
      match start with
      | None => Raise TypeError
      | Some start => setitem_loop self 0 (py_range start start step) items
      end
  | _, _ => Matrix_setitem self key value
  end.
End SymbolicVector.

(** A decimal numeral holds no underscore. *)
Definition no_underscore (s : string) : Prop :=
  ∀ a b : string, s ≠ a +:+ ("_" +:+ b).

(** ** Free symbols, read off the graph

    The reading of [symbols()] as a set of reachable leaves.  A walk leads
    from a node down the edge lists, through operator nodes only, to a node;
    it records the operators it passes. *)

Inductive walk (g : ExpressionGraph) : nat → list func → nat → Prop :=
| walk_here (n : nat) : walk g n [] n
| walk_down (n : nat) (f : func) (children : list nat) (child : nat)
    (ops : list func) (m : nat) :
    nodes g !! n = Some (NFunc f) →
    dict_get (edges g) n = Some children →
    child ∈ children →
    walk g child ops m →
    walk g n (f :: ops) m.

(** What a leaf object contributes by itself: [{self}] for a [Variable] or a
    [Parameter], [{self, t}] for a [SignalReference], nothing for a number. *)
Definition own_symbols (l : leaf) : gset leaf :=
  match l with
  | LVariable v => {[ LVariable v ]}
  | LParameter p => {[ LParameter p ]}
  | LSignal s => {[ LSignal s; LVariable get_time_variable ]}
  | LInt _ => ∅
  end.

(** [x] is free below node [n]: some leaf reachable from [n] contributes it,
    and, when [x] is the time variable, no signal evaluation lies on the way
    (a signal evaluation binds the time of everything below it). *)
Definition free_symbol (g : ExpressionGraph) (n : nat) (x : leaf) : Prop :=
  ∃ (ops : list func) (m : nat) (l : leaf),
    walk g n ops m
    ∧ nodes g !! m = Some (NLeaf l)
    ∧ x ∈ own_symbols l
    ∧ (x = LVariable get_time_variable → evaluate_signal ∉ ops).

(** ** The graphs the engine builds

    A node is grounded when the part of the graph below it is a finite tree
    of operator applications over leaves: a leaf is grounded, and so is an
    operator node whose edge list is non-empty and holds grounded nodes only.
    No node on a cycle is grounded. *)
Inductive grounded (g : ExpressionGraph) : nat → Prop :=
| grounded_leaf (n : nat) (l : leaf) :
    nodes g !! n = Some (NLeaf l) → grounded g n
| grounded_op (n : nat) (f : func) (children : list nat) :
    nodes g !! n = Some (NFunc f) →
    dict_get (edges g) n = Some children →
    children ≠ [] →
    (∀ c, c ∈ children → grounded g c) →
    grounded g n.

(** The graphs obtained through the constructor and [push_op], each applied
    to at least one argument; an argument is a leaf, a graph built earlier
    or, for [push_op], the graph itself. *)
Inductive built : ExpressionGraph → Prop :=
| built_init (op : func) (args : list arg) (g : ExpressionGraph) :
    args ≠ [] →
    ASelf ∉ args →
    (∀ f, AValue (NFunc f) ∉ args) →
    (∀ g', AGraph g' ∈ args → built g') →
    ExpressionGraph_init op args = Ok g →
    built g
| built_push_op (self : ExpressionGraph) (op : func) (args : list arg)
    (g : ExpressionGraph) :
    built self →
    args ≠ [] →
    (∀ f, AValue (NFunc f) ∉ args) →
    (∀ g', AGraph g' ∈ args → built g') →
    push_op self op args = Ok g →
    built g.

(** [g'] keeps the nodes of [g] at their indices and the edge lists of [g]. *)
Definition extends (g g' : ExpressionGraph) : Prop :=
  (∃ ext, nodes g' = nodes g ++ ext)
  ∧ ∀ k cs, dict_get (edges g) k = Some cs → dict_get (edges g') k = Some cs.

(** The invariant of a graph under construction: the keys of the edge dict
    are distinct and are operator nodes, and every operator node is grounded,
    except the node [pending] whose edge list is not yet set. *)
Definition graph_inv (g : ExpressionGraph) (pending : option nat) : Prop :=
  NoDup (edges g).*1
  ∧ (∀ k, k ∈ (edges g).*1 →
          Some k ≠ pending ∧ ∃ f, nodes g !! k = Some (NFunc f))
  ∧ (∀ n f, nodes g !! n = Some (NFunc f) → Some n ≠ pending → grounded g n)
  ∧ (∀ p, pending = Some p → ∃ f, nodes g !! p = Some (NFunc f)).

(** ** Trees shared between graphs

    Merging copies the tree below the head of a graph into another graph;
    the relation below says that two nodes are the roots of the same tree. *)

(** Node [n1] of [g1] and node [n2] of [g2] are the roots of the same tree:
    equal leaves, or the same operator over children that are pairwise the
    roots of the same tree. *)
Inductive same_tree (g1 g2 : ExpressionGraph) : nat → nat → Prop :=
| same_tree_leaf (n1 n2 : nat) (l : leaf) :
    nodes g1 !! n1 = Some (NLeaf l) →
    nodes g2 !! n2 = Some (NLeaf l) →
    dict_get (edges g1) n1 = None →
    dict_get (edges g2) n2 = None →
    same_tree g1 g2 n1 n2
| same_tree_op (n1 n2 : nat) (f : func) (cs1 cs2 : list nat) :
    nodes g1 !! n1 = Some (NFunc f) →
    nodes g2 !! n2 = Some (NFunc f) →
    dict_get (edges g1) n1 = Some cs1 →
    dict_get (edges g2) n2 = Some cs2 →
    length cs1 = length cs2 →
    (∀ k c1 c2, cs1 !! k = Some c1 → cs2 !! k = Some c2 →
                same_tree g1 g2 c1 c2) →
    same_tree g1 g2 n1 n2.

(** What an argument of the constructor or of [push_op] stands for at the
    index [i] of the graph [g] it was inserted in; [orig] is the graph
    [push_op] was called on. *)
Definition arg_at (orig g : ExpressionGraph) (a : arg) (i : nat) : Prop :=
  match a with
  | ASelf => same_tree orig g (head orig) i
  | AGraph other => same_tree other g (head other) i
  | AValue (NLeaf l) =>
      nodes g !! i = Some (NLeaf l) ∧ dict_get (edges g) i = None
  | AValue (NFunc _) => False
  end.

(** The keys of the edge dict are operator nodes. *)
Definition keys_are_ops (g : ExpressionGraph) : Prop :=
  ∀ k, k ∈ (edges g).*1 → ∃ f, nodes g !! k = Some (NFunc f).

(** [g] is what [ExpressionGraph(op, *args)] returns, or what
    [self.push_op(op, *args)] returns on a built graph [self]; there is at
    least one argument, and each is a leaf, a built graph or, for [push_op],
    [self] itself. *)
Definition constructed (self : ExpressionGraph) (op : func) (args : list arg)
    (g : ExpressionGraph) : Prop :=
  args ≠ []
  ∧ (∀ f, AValue (NFunc f) ∉ args)
  ∧ (∀ g', AGraph g' ∈ args → built g')
  ∧ ((ExpressionGraph_init op args = Ok g ∧ ASelf ∉ args)
     ∨ (push_op self op args = Ok g ∧ built self)).

(** An argument taken by itself: a graph is traversed from its head; a
    value that is not a graph is treated as the [recurse] functions treat a
    leaf node. *)
Definition arg_call {V} `{PyValues V} (fuel : nat) (self : ExpressionGraph)
    (values : gmap leaf V) (a : arg) : result V :=
  match a with
  | ASelf => call fuel self values
  | AGraph g => call fuel g values
  | AValue obj =>
      match values_get values obj with
      | Some v => Ok v
      | None => Ok (of_obj obj)
      end
  end.

Definition arg_symbols (fuel : nat) (self : ExpressionGraph) (a : arg)
  : result (gset leaf) :=
  match a with
  | ASelf => symbols fuel self
  | AGraph g => symbols fuel g
  | AValue obj =>
      match obj_symbols obj with
      | Raise AttributeError => Ok ∅
      | r => r
      end
  end.

Definition arg_shape (fuel : nat) (self : ExpressionGraph) (a : arg)
  : result shape :=
  match a with
  | ASelf => ExpressionGraph_shape fuel self
  | AGraph g => ExpressionGraph_shape fuel g
  | AValue obj =>
      match obj_shape obj with
      | Raise AttributeError =>
          if is_number obj then Ok scalar_shape
          else Raise NotImplementedError
      | r => r
      end
  end.

(** The argument as [is_temporal] receives it. *)
Definition arg_symbol (self : ExpressionGraph) (a : arg) : symbol :=
  match a with
  | ASelf => SymGraph self
  | AGraph g => SymGraph g
  | AValue obj => SymObj obj
  end.

(** No leaf is stored at two indices. *)
Definition leaves_unique (ns : list node) : Prop :=
  ∀ (i j : nat) (l : leaf),
    ns !! i = Some (NLeaf l) → ns !! j = Some (NLeaf l) → i = j.

(** ** A value model for running examples

    [pyval] tracks Python ints exactly.  Every other run-time value (a float,
    an unbound symbol, a graph built by an overloaded operator) is collapsed
    to the token [PNotInt], and nothing is computed on it: an operation with a
    [PNotInt] operand answers [PNotInt]. *)

Inductive pyval :=
| PInt (z : Z)
| PNotInt.

Definition pyval_of_obj (obj : node) : pyval :=
  match obj with
  | NLeaf (LInt z) => PInt z
  | _ => PNotInt
  end.

Definition int_binop (op : Z → Z → result pyval) (a b : pyval) : result pyval :=
  match a, b with
  | PInt x, PInt y => op x y
  | _, _ => Ok PNotInt
  end.

Definition int_unop (op : Z → result pyval) (a : pyval) : result pyval :=
  match a with
  | PInt x => op x
  | PNotInt => Ok PNotInt
  end.

(** On ints: [+], [-], [*] and unary [-] are exact; [**] is exact for a
    non-negative exponent and gives a float otherwise ([0] to a negative power
    raises); [/] gives a float or raises on a zero divisor; [@], [.T] and a
    call are type or attribute errors. *)
Global Instance pyval_values : PyValues pyval := {|
  of_obj := pyval_of_obj;
  py_pow := int_binop (λ b e,
    if bool_decide (0 ≤ e) then Ok (PInt (b ^ e))
    else if bool_decide (b = 0) then Raise ZeroDivisionError
    else Ok PNotInt);
  py_add := int_binop (λ x y, Ok (PInt (x + y)));
  py_sub := int_binop (λ x y, Ok (PInt (x - y)));
  py_matmul := int_binop (λ _ _, Raise TypeError);
  py_neg := int_unop (λ x, Ok (PInt (- x)));
  py_mul := int_binop (λ x y, Ok (PInt (x * y)));
  py_truediv := int_binop (λ _ y,
    if bool_decide (y = 0) then Raise ZeroDivisionError else Ok PNotInt);
  py_T := int_unop (λ _, Raise AttributeError);
  py_call := int_binop (λ _ _, Raise TypeError)
|}.

(** ** Example objects *)

Definition ex_var : VariableObj := mkVariable 11 None scalar_shape.
Definition ex_a : VariableObj := mkVariable 12 (Some "a"%string) scalar_shape.
Definition ex_b : VariableObj := mkVariable 13 (Some "b"%string) scalar_shape.
Definition ex_port : Port := mkPort 20 1.
Definition ex_sig : SignalReference := mkSignal 21 ex_port.
Definition ex_param : ParameterObj := mkParameter 31 (30%N, 0) 0 30.
Definition ex_block : Block :=
  mkBlock 30 ["gain"%string] (λ _ _, Raise ValueError).

(** [1 + var * sig(1) + param] (tests, line 106). *)
Definition expression_of (var : VariableObj) (sig : SignalReference)
    (param : ParameterObj) : result ExpressionGraph :=
  sig_1 ← SignalReference_call sig (AValue (NLeaf (LInt 1)));
  product ← Algebraic_mul (LVariable var) (AGraph sig_1);
  sum ← ExpressionGraph_radd product (AValue (NLeaf (LInt 1)));
  ExpressionGraph_add sum (AValue (NLeaf (LParameter param))).

Definition ex_A : VariableObj := mkVariable 14 (Some "A"%string) [3; 4].
Definition ex_B : VariableObj := mkVariable 15 (Some "B"%string) [4; 2].
Definition ex_C : VariableObj := mkVariable 16 (Some "C"%string) [5; 2].

(** [ExpressionGraph(add, a, b)] for the example variables. *)
Definition ex_graph : ExpressionGraph :=
  mkGraph [NFunc add; NLeaf (LVariable ex_a); NLeaf (LVariable ex_b)]
          [(0%nat, [1%nat; 2%nat])] 0.

(** [(a + b) * 2], built by [push_op] on the example graph. *)
Definition ex_product : ExpressionGraph :=
  mkGraph [NFunc add; NLeaf (LVariable ex_a); NLeaf (LVariable ex_b);
           NFunc mul; NLeaf (LInt 2)]
          [(0%nat, [1%nat; 2%nat]); (3%nat, [0%nat; 4%nat])] 3.

(** Three Python types, and the registries after one, two and three
    registrations: one converter from [int], two from [float]. *)
Inductive pytype := int_type | float_type | str_type.

Global Instance pytype_eq_dec : EqDecision pytype.
Proof. solve_decision. Defined.

Global Instance pytype_countable : Countable pytype.
Proof.
  refine (inj_countable'
            (λ t, match t with
                  | int_type => 0 | float_type => 1 | str_type => 2
                  end%nat)
            (λ n, match n with
                  | 0 => int_type | 1 => float_type | _ => str_type
                  end%nat) _).
  by intros [].
Defined.

Definition ex_caster : @caster Z := λ z, Ok (z + 1).

Definition ex_registry1 : @registry pytype _ _ Z :=
  <[int_type := <[float_type := ex_caster]> ∅]> ∅.
Definition ex_registry2 : @registry pytype _ _ Z :=
  <[float_type := <[int_type := ex_caster]> ∅]> ex_registry1.
Definition ex_registry3 : @registry pytype _ _ Z :=
  <[float_type := <[str_type := ex_caster]> (<[int_type := ex_caster]> ∅)]>
    ex_registry2.

(** The graph that [expression_of] builds. *)
Definition expression_graph (var : VariableObj) (sig : SignalReference)
    (param : ParameterObj) : ExpressionGraph :=
  mkGraph
    [NFunc mul; NLeaf (LVariable var); NFunc evaluate_signal;
     NLeaf (LSignal sig); NLeaf (LInt 1); NFunc add; NFunc add;
     NLeaf (LParameter param)]
    [(2%nat, [3%nat; 4%nat]); (0%nat, [1%nat; 2%nat]);
     (5%nat, [4%nat; 0%nat]); (6%nat, [5%nat; 7%nat])]
    6.

(** ** Basic facts *)

Arguments is_op : simpl never.
Arguments add_or_get_value : simpl never.

Lemma is_op_func (f : func) : is_op (NFunc f) = true.
Proof. by destruct f; vm_compute. Qed.

Lemma is_op_leaf (l : leaf) : is_op (NLeaf l) = false.
Proof. reflexivity. Qed.

Lemma is_op_true (obj : node) : is_op obj = true → ∃ f, obj = NFunc f.
Proof. destruct obj as [f|l]; [eauto | by rewrite is_op_leaf]. Qed.

Lemma nodes_index_Some (ns : list node) (value : node) (i : nat) :
  nodes_index ns value = Some i ↔
  ns !! i = Some value ∧ ∀ j, (j < i)%nat → ns !! j ≠ Some value.
Proof.
  unfold nodes_index. split.
  - destruct (list_find _ ns) as [[k y]|] eqn:Hf; [|done].
    intros [= <-]. apply list_find_Some in Hf as (Hk & -> & Hlt).
    split; [done|]. intros j Hj Hjv. by eapply Hlt.
  - intros [Hi Hlt].
    assert (list_find (λ n, n = value) ns = Some (i, value)) as ->; [|done].
    apply list_find_Some. split_and!; [done..|].
    intros j y Hjy Hj ->. by eapply Hlt.
Qed.

Lemma nodes_index_None (ns : list node) (value : node) :
  nodes_index ns value = None ↔ value ∉ ns.
Proof.
  unfold nodes_index. rewrite fmap_None, list_find_None, Forall_forall.
  split; [intros Hn Hin; by eapply Hn | intros Hn x Hx ->; done].
Qed.

Lemma nodes_index_elem_of (ns : list node) (value : node) :
  value ∈ ns → ∃ i, nodes_index ns value = Some i.
Proof.
  intros Hin. destruct (nodes_index ns value) as [i|] eqn:Hi; [eauto|].
  by apply nodes_index_None in Hi.
Qed.

Lemma nodes_index_app_new (ns : list node) (value : node) :
  value ∉ ns → nodes_index (ns ++ [value]) value = Some (length ns).
Proof.
  intros Hn. apply nodes_index_Some. split.
  - by rewrite lookup_app_r, Nat.sub_diag.
  - intros j Hj Hjv. rewrite lookup_app_l in Hjv by done.
    apply Hn. by eapply list_elem_of_lookup_2.
Qed.

(** Non-membership in an explicit node list whose entries differ from the
    value by their constructors or by a hypothesis. *)
Ltac not_in_nodes :=
  rewrite ?not_elem_of_cons; split_and?;
  first [apply not_elem_of_nil | congruence].

(** ** Leaf deduplication *)

Lemma add_or_get_value_func (self : ExpressionGraph) (f : func) :
  add_or_get_value self (NFunc f) =
  (mkGraph (nodes self ++ [NFunc f]) (edges self) (head self),
   length (nodes self)).
Proof. unfold add_or_get_value. by rewrite is_op_func. Qed.

Lemma add_or_get_value_present (self : ExpressionGraph) (l : leaf) (i : nat) :
  nodes_index (nodes self) (NLeaf l) = Some i →
  add_or_get_value self (NLeaf l) = (self, i).
Proof. intros Hi. unfold add_or_get_value. by rewrite is_op_leaf, Hi. Qed.

Lemma add_or_get_value_absent (self : ExpressionGraph) (l : leaf) :
  NLeaf l ∉ nodes self →
  add_or_get_value self (NLeaf l) =
  (mkGraph (nodes self ++ [NLeaf l]) (edges self) (head self),
   length (nodes self)).
Proof.
  intros Hn. apply nodes_index_None in Hn.
  unfold add_or_get_value. by rewrite is_op_leaf, Hn.
Qed.

(** Runs the construction of a graph from explicit arguments. *)
Ltac run_graph :=
  repeat (progress
            (simpl;
             rewrite ?is_op_func, ?add_or_get_value_func;
             rewrite ?add_or_get_value_absent by (simpl; not_in_nodes);
             unfold merge_and_return_subgraph_head)).

(** C4. [add_or_get_node] on a leaf returns the index of a node holding that
    leaf, and a second insertion of the same leaf returns the same index and
    leaves the graph as it is; when the leaf was already in the node list the
    first insertion appends nothing either, and the index is that of its
    first occurrence.  On a registered operator, [add_or_get_node] appends a
    node and returns its (new) index, whatever the node list holds. *)
Theorem add_or_get_node_dedup (self : ExpressionGraph) (l : leaf) (f : func) :
  (∃ g idx,
      add_or_get_node self (AValue (NLeaf l)) = Ok (g, idx)
      ∧ add_or_get_node g (AValue (NLeaf l)) = Ok (g, idx)
      ∧ nodes g !! idx = Some (NLeaf l)
      ∧ (NLeaf l ∈ nodes self →
           g = self ∧ ∀ j, (j < idx)%nat → nodes self !! j ≠ Some (NLeaf l)))
  ∧ add_or_get_node self (AValue (NFunc f)) =
      Ok (mkGraph (nodes self ++ [NFunc f]) (edges self) (head self),
          length (nodes self))
  ∧ nodes self !! length (nodes self) = None.
Proof.
  split; [|split].
  - simpl. destruct (decide (NLeaf l ∈ nodes self)) as [Hin|Hnin].
    + destruct (nodes_index_elem_of _ _ Hin) as [i Hi].
      exists self, i. rewrite (add_or_get_value_present _ _ _ Hi).
      apply nodes_index_Some in Hi as [Hi Hlt]. done.
    + eexists _, _. rewrite (add_or_get_value_absent _ _ Hnin).
      split; [done|]. split; [|split; [|done]].
      * erewrite add_or_get_value_present; [done|].
        simpl. by apply nodes_index_app_new.
      * simpl. by rewrite lookup_app_r, Nat.sub_diag.
  - simpl. by rewrite add_or_get_value_func.
  - by apply lookup_ge_None.
Qed.

Lemma add_or_get_node_dedup_witness :
  ∃ idx, add_or_get_node ex_graph (AValue (NLeaf (LVariable ex_a)))
         = Ok (ex_graph, idx)
         ∧ nodes ex_graph !! idx = Some (NLeaf (LVariable ex_a)).
Proof.
  destruct (add_or_get_node_dedup ex_graph (LVariable ex_a) add)
    as [(g & idx & H1 & _ & H3 & Hin) _].
  destruct Hin as [-> _].
  { apply (list_elem_of_lookup_2 _ 1%nat). reflexivity. }
  exists idx. split; assumption.
Defined.

(** ** Shape propagation *)

Lemma infer_shape_matmul (shapes : list shape) :
  infer_shape matmul shapes = matmul_shape shapes.
Proof. reflexivity. Qed.

Lemma mapM_result_cons {A B} (f : A → result B) (x : A) (l : list A) :
  mapM f (x :: l) = (y ← f x; k ← mapM f l; Ok (y :: k)).
Proof. reflexivity. Qed.

(** C6. A graph whose head is the matrix product of two arguments of shapes
    [(n, m)] and [(m', p)] has shape [(n, p)] when [m = m'] and raises the
    shape error ([AttributeError]) when the inner dimensions differ; shapes
    [(3,4)] and [(4,2)] give [(3,2)], shapes [(3,4)] and [(5,2)] raise. *)
Theorem matmul_shape_propagation :
  (∀ (fuel : nat) (self : ExpressionGraph) (c1 c2 : nat) (n m m' p : Z),
      nodes self !! head self = Some (NFunc matmul) →
      dict_get (edges self) (head self) = Some [c1; c2] →
      _get_shape_of fuel self c1 = Ok [n; m] →
      _get_shape_of fuel self c2 = Ok [m'; p] →
      ExpressionGraph_shape (S fuel) self =
        if bool_decide (m = m') then Ok [n; p] else Raise AttributeError)
  ∧ (g ← Algebraic_matmul (LVariable ex_A) (AValue (NLeaf (LVariable ex_B)));
     ExpressionGraph_shape 2 g) = Ok [3; 2]
  ∧ (g ← Algebraic_matmul (LVariable ex_A) (AValue (NLeaf (LVariable ex_C)));
     ExpressionGraph_shape 2 g) = Raise AttributeError.
Proof.
  split; [|split; reflexivity].
  intros fuel self c1 c2 n m m' p Hop Hedges H1 H2.
  unfold ExpressionGraph_shape. simpl. rewrite Hedges, Hop.
  simpl. rewrite H1, H2. simpl. rewrite infer_shape_matmul. simpl.
  rewrite bool_decide_not. by destruct (bool_decide (m = m')).
Qed.

Lemma matmul_shape_propagation_witness :
  ExpressionGraph_shape 2
    (mkGraph [NFunc matmul; NLeaf (LVariable ex_A); NLeaf (LVariable ex_B)]
             [(0%nat, [1%nat; 2%nat])] 0)
  = Ok [3; 2].
Proof.
  exact (proj1 matmul_shape_propagation 1%nat
           (mkGraph [NFunc matmul; NLeaf (LVariable ex_A);
                     NLeaf (LVariable ex_B)]
                    [(0%nat, [1%nat; 2%nat])] 0)
           1%nat 2%nat 3 4 4 2 eq_refl eq_refl eq_refl eq_refl).
Defined.

(** ** Hashing *)

(** C7 (the code departs from the claim). Computing the hash of any
    expression graph raises [TypeError]: the first item of the hashed tuple is
    the edge dict, which is unhashable.  No graph has a hash. *)
Theorem ExpressionGraph_hash_raises
    (hash_obj : node → Z) (hash_int : Z → Z) (hash_combine : list Z → Z)
    (self : ExpressionGraph) :
  ExpressionGraph_hash hash_obj hash_int hash_combine self = Raise TypeError.
Proof. reflexivity. Qed.

(** ** Parameter memoization *)

Lemma Parameter_new_table_mono (st : param_state) (block : Block)
    (parameter : param_ref) (uid : N * Z) (obj : ParameterObj) :
  _table st !! uid = Some obj →
  _table (Parameter_new st block parameter).2 !! uid = Some obj.
Proof.
  intros Hu. unfold Parameter_new.
  destruct (match parameter with
            | ByName name => find_param_index_by_name block name
            | ByIndex index => Ok index
            end) as [index|e|]; simpl; try done.
  case_bool_decide; simpl; [|done].
  destruct (_table st !! (block_id block, index)) eqn:Ht; simpl; [done|].
  rewrite lookup_insert_ne; [done|]. intros <-. congruence.
Qed.

Lemma run_constructions_table_mono (calls : list (Block * param_ref))
    (st : param_state) (uid : N * Z) (obj : ParameterObj) :
  _table st !! uid = Some obj →
  _table (run_constructions st calls) !! uid = Some obj.
Proof.
  revert st. induction calls as [|c calls IH]; intros st Hu; [done|].
  simpl. apply IH. by apply Parameter_new_table_mono.
Qed.

Lemma Parameter_new_cached (st : param_state) (block : Block) (index : Z)
    (obj : ParameterObj) :
  0 ≤ index < Z.of_nat (length (parameters block)) →
  _table st !! (block_id block, index) = Some obj →
  Parameter_new st block (ByIndex index) = (Ok obj, st).
Proof.
  intros Hr Ht. unfold Parameter_new.
  rewrite bool_decide_eq_true_2 by done. by rewrite Ht.
Qed.

(** C5. For a block and a valid index, the first construction
    [Parameter(block, index)] returns an object, and every later construction
    for the same block and index, after any further constructor calls of
    the process, by index or by a name that resolves to the index, returns
    that very object; the table entry stays. *)
Theorem Parameter_memoized (st : param_state) (block : Block) (index : Z) :
  0 ≤ index < Z.of_nat (length (parameters block)) →
  ∃ obj st1,
    Parameter_new st block (ByIndex index) = (Ok obj, st1)
    ∧ ∀ calls : list (Block * param_ref),
        let st2 := run_constructions st1 calls in
        Parameter_new st2 block (ByIndex index) = (Ok obj, st2)
        ∧ _table st2 !! (block_id block, index) = Some obj
        ∧ ∀ name, find_param_index_by_name block name = Ok index →
                  Parameter_new st2 block (ByName name) = (Ok obj, st2).
Proof.
  intros Hr.
  assert (∃ obj st1, Parameter_new st block (ByIndex index) = (Ok obj, st1)
                     ∧ _table st1 !! (block_id block, index) = Some obj)
    as (obj & st1 & Hnew & Ht).
  { unfold Parameter_new. rewrite bool_decide_eq_true_2 by done.
    destruct (_table st !! (block_id block, index)) as [obj|] eqn:Ht.
    - by exists obj, st.
    - eexists _, _. split; [done|]. simpl. by rewrite lookup_insert_eq. }
  exists obj, st1. split; [done|]. intros calls st2.
  pose proof (run_constructions_table_mono calls st1 _ _ Ht) as Ht2.
  fold st2 in Ht2. split; [by apply Parameter_new_cached|]. split; [done|].
  intros name Hname. unfold Parameter_new. rewrite Hname.
  rewrite bool_decide_eq_true_2 by done. by rewrite Ht2.
Qed.

Lemma Parameter_memoized_witness :
  ∃ obj st1,
    Parameter_new (mkParamState ∅ 31) ex_block (ByIndex 0) = (Ok obj, st1)
    ∧ Parameter_new st1 ex_block (ByIndex 0) = (Ok obj, st1).
Proof.
  destruct (Parameter_memoized (mkParamState ∅ 31) ex_block 0)
    as (obj & st1 & H1 & H2).
  { simpl. lia. }
  exists obj, st1. split; [exact H1|]. exact (proj1 (H2 [])).
Defined.

(** C9. An index outside [0 ≤ index < len(block.parameters)] raises
    [AssertionError], and a name that neither [block.find_by_name] nor
    [block.parameters] resolves raises [ValueError]; in both cases, as in
    every case in which the constructor raises, the table and the allocator
    are left untouched: no object was created or cached. *)
Theorem Parameter_new_invalid (st : param_state) (block : Block) :
  (∀ index : Z,
      ¬ (0 ≤ index < Z.of_nat (length (parameters block))) →
      Parameter_new st block (ByIndex index) = (Raise AssertionError, st))
  ∧ (∀ name : string,
      find_by_name block "parameters"%string name = Raise ValueError →
      name ∉ parameters block →
      Parameter_new st block (ByName name) = (Raise ValueError, st))
  ∧ (∀ (parameter : param_ref) (e : exn),
      (Parameter_new st block parameter).1 = Raise e →
      (Parameter_new st block parameter).2 = st).
Proof.
  split; [|split].
  - intros index Hr. unfold Parameter_new.
    by rewrite bool_decide_eq_false_2.
  - intros name Hf Hn. unfold Parameter_new, find_param_index_by_name.
    rewrite Hf. unfold parameters_index.
    assert (list_find (λ n : string, n = name) (parameters block) = None)
      as ->; [|done].
    apply list_find_None, Forall_forall. intros x Hx ->. done.
  - intros parameter e. unfold Parameter_new.
    destruct (match parameter with
              | ByName name => find_param_index_by_name block name
              | ByIndex index => Ok index
              end) as [index|e'|]; simpl; try done.
    case_bool_decide; simpl; [|done].
    by destruct (_table st !! (block_id block, index)).
Qed.

Lemma Parameter_new_invalid_witness :
  Parameter_new (mkParamState ∅ 31) ex_block (ByIndex 1)
    = (Raise AssertionError, mkParamState ∅ 31)
  ∧ Parameter_new (mkParamState ∅ 31) ex_block (ByName "mass")
    = (Raise ValueError, mkParamState ∅ 31).
Proof.
  destruct (Parameter_new_invalid (mkParamState ∅ 31) ex_block)
    as (Hidx & Hname & _).
  split.
  - apply Hidx. simpl. lia.
  - apply Hname; [reflexivity|].
    intros Hin. apply list_elem_of_In in Hin. simpl in Hin.
    destruct Hin as [Heq|[]]. discriminate Heq.
Defined.

(** ** The cast registry *)

Section CastFacts.
Context {T : Type} `{Countable T} {V : Type}.
Variable type_of : V → T.

Lemma register_inner_non_empty (reg reg' : @registry T _ _ V)
    (from_type to_type : T) (the_caster : @caster V) :
  (∀ t casters, reg !! t = Some casters → casters ≠ ∅) →
  register from_type to_type the_caster reg = Ok reg' →
  ∀ t casters, reg' !! t = Some casters → casters ≠ ∅.
Proof.
  intros Hinv Hreg t casters Ht.
  unfold register in Hreg. unfold registry in *.
  destruct (reg !! from_type) as [old|] eqn:Hold.
  - destruct (bool_decide (is_Some (old !! to_type))); simpl in Hreg;
      [done|].
    injection Hreg as <-.
    destruct (decide (from_type = t)) as [->|Hne].
    + rewrite lookup_insert_eq in Ht. injection Ht as <-.
      apply insert_non_empty.
    + rewrite lookup_insert_ne in Ht by done. by eapply Hinv.
  - injection Hreg as <-.
    destruct (decide (from_type = t)) as [->|Hne].
    + rewrite lookup_insert_eq in Ht. injection Ht as <-.
      apply insert_non_empty.
    + rewrite lookup_insert_ne in Ht by done. by eapply Hinv.
Qed.

Lemma reachable_inner_non_empty (reg : @registry T _ _ V) :
  reachable reg → ∀ t casters, reg !! t = Some casters → casters ≠ ∅.
Proof.
  induction 1 as [|reg reg' from_type to_type c _ IH Hreg].
  - intros t casters Ht. unfold registry in *.
    by rewrite lookup_empty in Ht.
  - by eapply register_inner_non_empty.
Qed.

Lemma map_size_1_singleton (m : gmap T (@caster V)) :
  size m = 1%nat → ∃ t c, m = {[t := c]}.
Proof.
  intros Hs. rewrite <- length_map_to_list in Hs.
  destruct (map_to_list m) as [|[t c] [|? ?]] eqn:Hl; try done.
  exists t, c. rewrite <- (list_to_map_to_list m), Hl. simpl.
  by rewrite insert_empty.
Qed.

(** C8. With the target type omitted, on a registry built by [register]:
    no converter registered for the type of the value raises the
    unknown-cast error ([NotImplementedError]); more than one raises the
    ambiguity error ([TypeError]); exactly one is applied to the value and
    its result is the result of the cast. *)
Theorem cast_type_untargeted (reg : @registry T _ _ V) (var : V) :
  reachable reg →
  (size (converters reg (type_of var)) = 0%nat →
     cast_type type_of reg var None = Raise NotImplementedError)
  ∧ ((1 < size (converters reg (type_of var)))%nat →
     cast_type type_of reg var None = Raise TypeError)
  ∧ (size (converters reg (type_of var)) = 1%nat →
     ∃ to_type the_caster,
       converters reg (type_of var) = {[to_type := the_caster]}
       ∧ cast_type type_of reg var None = the_caster var).
Proof.
  intros Hreach. unfold converters, cast_type.
  destruct (reg !! type_of var) as [casters|] eqn:Hc; simpl.
  - pose proof (reachable_inner_non_empty reg Hreach _ _ Hc) as Hne.
    apply map_size_non_empty_iff in Hne. split; [done|]. split.
    + intros Hgt. rewrite bool_decide_eq_true_2 by lia. done.
    + intros H1. rewrite bool_decide_eq_false_2 by lia.
      destruct (map_size_1_singleton casters H1) as (t & c & ->).
      exists t, c. split; [done|]. unfold unpack1.
      by rewrite map_to_list_singleton.
  - rewrite map_size_empty. split; [done|]. split; [lia|done].
Qed.
End CastFacts.

Lemma ex_registry3_reachable : reachable ex_registry3.
Proof.
  apply (reachable_register ex_registry2 ex_registry3
           float_type str_type ex_caster); [|reflexivity].
  apply (reachable_register ex_registry1 ex_registry2
           float_type int_type ex_caster); [|reflexivity].
  apply (reachable_register ∅ ex_registry1
           int_type float_type ex_caster); [|reflexivity].
  apply reachable_empty.
Qed.

Lemma cast_type_untargeted_witness :
  cast_type (λ _ : Z, str_type) ex_registry3 5 None = Raise NotImplementedError
  ∧ cast_type (λ _ : Z, float_type) ex_registry3 5 None = Raise TypeError
  ∧ ∃ to_type the_caster,
      converters ex_registry3 int_type = {[to_type := the_caster]}
      ∧ cast_type (λ _ : Z, int_type) ex_registry3 5 None = the_caster 5.
Proof.
  split; [|split].
  - apply (cast_type_untargeted (λ _ : Z, str_type) ex_registry3 5
             ex_registry3_reachable).
    reflexivity.
  - apply (cast_type_untargeted (λ _ : Z, float_type) ex_registry3 5
             ex_registry3_reachable).
    apply (le_n 2).
  - apply (cast_type_untargeted (λ _ : Z, int_type) ex_registry3 5
             ex_registry3_reachable).
    reflexivity.
Defined.

(** ** Evaluation of a binary graph *)

Lemma init_two_leaves (op : func) (a b : leaf) :
  a ≠ b →
  ExpressionGraph_init op [AValue (NLeaf a); AValue (NLeaf b)] =
  Ok (mkGraph [NFunc op; NLeaf a; NLeaf b] [(0%nat, [1%nat; 2%nat])] 0).
Proof.
  intros Hab. unfold ExpressionGraph_init.
  rewrite add_or_get_value_func. simpl.
  rewrite ?(add_or_get_value_absent _ a) by (simpl; not_in_nodes). simpl.
  rewrite ?(add_or_get_value_absent _ b) by (simpl; not_in_nodes). done.
Qed.

(** C3. For an operator [op], two distinct leaves [a] and [b] and values [x]
    and [y], the graph [ExpressionGraph(op, a, b)] is built, and its [call]
    on the bindings [{a: x, b: y}] is [op(x, y)]: the same value, or the same
    exception.  The graph of [a + b] called with [a = 2], [b = 3] gives [5]. *)
Theorem call_binary_graph {V} `{PyValues V} (op : func) (a b : leaf) (x y : V) :
  a ≠ b →
  (∃ g, ExpressionGraph_init op [AValue (NLeaf a); AValue (NLeaf b)] = Ok g
        ∧ ∀ fuel, (2 ≤ fuel)%nat →
            call fuel g (<[b := y]> (<[a := x]> ∅)) = apply_func op [x; y])
  ∧ (g ← Algebraic_add (LVariable ex_a) (AValue (NLeaf (LVariable ex_b)));
     call 2 g (<[LVariable ex_b := PInt 3]> (<[LVariable ex_a := PInt 2]> ∅)))
    = Ok (PInt 5).
Proof.
  intros Hab. split; [|reflexivity].
  eexists. split; [by apply init_two_leaves|].
  intros [|[|fuel]] Hfuel; [lia..|].
  unfold call. simpl. rewrite is_op_func. simpl.
  rewrite (lookup_insert_ne _ b a) by congruence.
  rewrite !lookup_insert_eq. simpl. by destruct (apply_func op [x; y]).
Qed.

Lemma call_binary_graph_witness :
  ∃ g, ExpressionGraph_init mul
         [AValue (NLeaf (LVariable ex_a)); AValue (NLeaf (LInt 7))] = Ok g
       ∧ call 2 g (<[LInt 7 := PInt 3]> (<[LVariable ex_a := PInt 2]> ∅))
         = Ok (PInt 6).
Proof.
  destruct (call_binary_graph mul (LVariable ex_a) (LInt 7) (PInt 2) (PInt 3))
    as [(g & Hg & Hcall) _]; [discriminate|].
  exists g. split; [exact Hg|]. exact (Hcall 2%nat (le_n 2)).
Defined.

(** ** Free-symbol extraction *)

Lemma mapM_result_Ok {A B} (f : A → result B) (l : list A) (k : list B) :
  mapM f l = Ok k ↔ Forall2 (λ x y, f x = Ok y) l k.
Proof.
  split.
  - revert k. induction l as [|x l IH]; intros k Hk; simpl in Hk.
    + injection Hk as <-. constructor.
    + destruct (f x) as [y| |] eqn:Hx; simpl in Hk; try done.
      destruct (mapM f l) as [k'| |]; simpl in Hk; try done.
      injection Hk as <-. constructor; [done|]. by apply IH.
  - induction 1 as [|x y l k Hx _ IH]; [done|].
    simpl. rewrite Hx. simpl. by rewrite IH.
Qed.

Lemma mapM_result_returns {A B} (f : A → result B) (l : list A) :
  (∀ x, x ∈ l → ∃ y, f x = Ok y) → ∃ k, mapM f l = Ok k.
Proof.
  induction l as [|x l IH]; intros Hall; [by exists []|].
  destruct (Hall x) as [y Hy]; [by left|].
  destruct IH as [k Hk]; [intros z Hz; apply Hall; by right|].
  exists (y :: k). simpl. rewrite Hy. simpl. by rewrite Hk.
Qed.

Lemma set_union_Ok (sets : list (gset leaf)) (s : gset leaf) :
  set_union sets = Ok s → sets ≠ [] ∧ s = ⋃ sets.
Proof. destruct sets as [|s0 rest]; [done|]. by intros [= <-]. Qed.

Lemma leaf_node_symbols (l : leaf) :
  match leaf_symbols l with
  | Raise AttributeError => Ok ∅
  | r => r
  end = Ok (own_symbols l).
Proof. by destruct l. Qed.

Lemma walk_from_leaf (g : ExpressionGraph) (n m : nat) (ops : list func)
    (l : leaf) :
  nodes g !! n = Some (NLeaf l) → walk g n ops m → ops = [] ∧ m = n.
Proof. intros Hn Hw. destruct Hw; [done|congruence]. Qed.

(** Whatever [symbols] returns at a node is the set of symbols free below
    that node. *)
Lemma symbols_recurse_free (fuel : nat) (g : ExpressionGraph) :
  ∀ (n : nat) (s : gset leaf),
    symbols_recurse fuel g n = Ok s → ∀ x, x ∈ s ↔ free_symbol g n x.
Proof.
  induction fuel as [|fuel IH]; intros n s Hs x; [done|].
  simpl in Hs. destruct (nodes g !! n) as [[f|l]|] eqn:Hn; [| |done].
  - rewrite is_op_func in Hs. simpl in Hs.
    destruct (dict_get (edges g) n) as [children|] eqn:He; [|done].
    destruct (mapM (symbols_recurse fuel g) children) as [sets| |] eqn:Hm;
      simpl in Hs; try done.
    destruct (set_union sets) as [cs| |] eqn:Hu; simpl in Hs; try done.
    apply set_union_Ok in Hu as [_ ->].
    apply mapM_result_Ok in Hm.
    assert (∀ y, y ∈ ⋃ sets ↔
                 ∃ c, c ∈ children ∧ free_symbol g c y) as Hunion.
    { intros y. rewrite elem_of_union_list. split.
      - intros (X & HX & Hy). apply list_elem_of_lookup in HX as [i Hi].
        destruct (Forall2_lookup_r _ _ _ _ _ Hm Hi) as (c & Hc & Hcs).
        exists c. split; [by eapply list_elem_of_lookup_2|].
        by apply (IH c X).
      - intros (c & Hc & Hy). apply list_elem_of_lookup in Hc as [i Hi].
        destruct (Forall2_lookup_l _ _ _ _ _ Hm Hi) as (X & HX & Hcs).
        exists X. split; [by eapply list_elem_of_lookup_2|].
        by apply (IH c X). }
    assert (∀ y, (∃ c, c ∈ children ∧ free_symbol g c y) →
                 (y = LVariable get_time_variable → f ≠ evaluate_signal) →
                 free_symbol g n y) as Hdown.
    { intros y (c & Hc & ops & m & l & Hw & Hl & Hy & Ht) Hf.
      exists (f :: ops), m, l. split; [by eapply walk_down|].
      split; [done|]. split; [done|]. intros Hyt.
      rewrite not_elem_of_cons. split; [|by apply Ht].
      intros Heq. by apply (Hf Hyt). }
    assert (∀ y, free_symbol g n y →
                 (∃ c, c ∈ children ∧ free_symbol g c y)
                 ∧ (y = LVariable get_time_variable → f ≠ evaluate_signal))
      as Hup.
    { intros y (ops & m & l & Hw & Hl & Hy & Ht).
      destruct Hw as [n|n f' children' child ops m Hn' He' Hc Hw];
        [congruence|].
      assert (f' = f) as -> by congruence.
      assert (children' = children) as -> by congruence.
      split.
      - exists child. split; [done|]. exists ops, m, l.
        split_and!; [done..|]. intros Hyt Hin. apply (Ht Hyt). by right.
      - intros Hyt ->. apply (Ht Hyt). by left. }
    case_bool_decide as Hev; injection Hs as <-.
    + injection Hev as ->. rewrite elem_of_difference, Hunion.
      rewrite elem_of_singleton. split.
      * intros [Hc Hne]. apply Hdown; [done|]. intros ->. done.
      * intros Hfree. destruct (Hup _ Hfree) as [Hc Hne].
        split; [done|]. intros ->. by apply Hne.
    + rewrite Hunion. split.
      * intros Hc. apply Hdown; [done|]. intros _ ->. done.
      * intros Hfree. by apply Hup.
  - rewrite is_op_leaf in Hs. simpl in Hs. rewrite leaf_node_symbols in Hs.
    injection Hs as <-. split.
    + intros Hx. exists [], n, l. split_and!; [constructor|done..|].
      intros _. apply not_elem_of_nil.
    + intros (ops & m & l' & Hw & Hl & Hx & _).
      destruct (walk_from_leaf _ _ _ _ _ Hn Hw) as [-> ->].
      by assert (l' = l) as -> by congruence.
Qed.

(** ** Graphs built by the engine are grounded *)

Section BuiltGraphs.
Local Open Scope nat_scope.

(** *** Dictionaries *)
Lemma dict_get_Some_elem {V} (d : dict V) k v :
  dict_get d k = Some v → (k, v) ∈ d.
Proof.
  induction d as [|[k' v'] d IH]; simpl; [done|].
  case_bool_decide as Hk.
  - intros [= <-]. subst. by left.
  - intros Hd. right. by apply IH.
Qed.

Lemma dict_get_None {V} (d : dict V) k :
  dict_get d k = None ↔ k ∉ d.*1.
Proof.
  induction d as [|[k' v'] d IH]; simpl.
  - split; [intros _; apply not_elem_of_nil|done].
  - rewrite not_elem_of_cons. case_bool_decide as Hk; simpl.
    + split; [done|]. intros [Hne _]. by subst.
    + rewrite IH. split; [by intros ?; split; [congruence|]|by intros [_ ?]].
Qed.

Lemma dict_get_is_Some {V} (d : dict V) k :
  is_Some (dict_get d k) ↔ k ∈ d.*1.
Proof.
  destruct (dict_get d k) as [v|] eqn:Hd.
  - split; [intros _|by eauto].
    apply dict_get_Some_elem in Hd.
    apply list_elem_of_fmap. by exists (k, v).
  - split; [by intros [? ?]|]. intros Hk. by apply dict_get_None in Hd.
Qed.

Lemma dict_get_elem_NoDup {V} (d : dict V) k v :
  NoDup d.*1 → (k, v) ∈ d → dict_get d k = Some v.
Proof.
  induction d as [|[k' v'] d IH]; simpl; intros Hnd Hin.
  - by apply elem_of_nil in Hin.
  - apply NoDup_cons in Hnd as [Hk' Hnd].
    apply elem_of_cons in Hin as [[= <- <-]|Hin].
    + by rewrite bool_decide_eq_true_2.
    + rewrite bool_decide_eq_false_2; [by apply IH|].
      intros ->. apply Hk'. apply list_elem_of_fmap. by exists (k, v).
Qed.

Lemma dict_get_set {V} (d : dict V) k v k' :
  dict_get (dict_set d k v) k' =
  if bool_decide (k = k') then Some v else dict_get d k'.
Proof.
  induction d as [|[k0 v0] d IH]; simpl; [done|].
  destruct (decide (k0 = k)) as [->|Hne].
  - rewrite (bool_decide_eq_true_2 (k = k)) by done. simpl.
    by case_bool_decide.
  - rewrite (bool_decide_eq_false_2 (k0 = k)) by done. simpl. rewrite IH.
    repeat case_bool_decide; simplify_eq; done.
Qed.

Lemma dict_set_keys {V} (d : dict V) k v :
  (dict_set d k v).*1 = if bool_decide (k ∈ d.*1) then d.*1 else d.*1 ++ [k].
Proof.
  induction d as [|[k0 v0] d IH].
  - done.
  - cbn [dict_set]. destruct (decide (k0 = k)) as [->|Hne].
    + rewrite (bool_decide_eq_true_2 (k = k)) by done.
      rewrite bool_decide_eq_true_2; [done|]. rewrite fmap_cons. by left.
    + rewrite (bool_decide_eq_false_2 (k0 = k)) by done.
      rewrite !fmap_cons, IH. cbn [fst].
      destruct (decide (k ∈ d.*1)) as [Hin|Hnin].
      * rewrite !bool_decide_eq_true_2; [done|by right|done].
      * rewrite !bool_decide_eq_false_2; [done| |done].
        rewrite not_elem_of_cons. split; [congruence|done].
Qed.

Lemma dict_set_NoDup {V} (d : dict V) k v :
  NoDup d.*1 → NoDup (dict_set d k v).*1.
Proof.
  intros Hnd. rewrite dict_set_keys. case_bool_decide as Hk; [done|].
  apply NoDup_app. split_and!; [done| |apply NoDup_singleton].
  intros x Hx ->%list_elem_of_singleton. done.
Qed.

Lemma dict_set_keys_elem {V} (d : dict V) k v k' :
  k' ∈ (dict_set d k v).*1 ↔ k' = k ∨ k' ∈ d.*1.
Proof.
  rewrite dict_set_keys. case_bool_decide as Hk.
  - split; [by right|]. by intros [->|?].
  - rewrite elem_of_app, list_elem_of_singleton. tauto.
Qed.

Lemma dict_update_cons {V} (d : dict V) k v o :
  dict_update d ((k, v) :: o) = dict_update (dict_set d k v) o.
Proof. reflexivity. Qed.

Lemma dict_update_NoDup {V} (o d : dict V) :
  NoDup d.*1 → NoDup (dict_update d o).*1.
Proof.
  revert d. induction o as [|[k v] o IH]; intros d Hnd; [done|].
  rewrite dict_update_cons. by apply IH, dict_set_NoDup.
Qed.

Lemma dict_update_keys_elem {V} (o d : dict V) k' :
  k' ∈ (dict_update d o).*1 ↔ k' ∈ d.*1 ∨ k' ∈ o.*1.
Proof.
  revert d. induction o as [|[k v] o IH]; intros d.
  - simpl. rewrite elem_of_nil. tauto.
  - rewrite dict_update_cons, IH, dict_set_keys_elem, fmap_cons, elem_of_cons.
    simpl. tauto.
Qed.

Lemma dict_get_update_notin {V} (o d : dict V) k :
  k ∉ o.*1 → dict_get (dict_update d o) k = dict_get d k.
Proof.
  revert d. induction o as [|[k0 v0] o IH]; intros d Hk; [done|].
  rewrite fmap_cons, not_elem_of_cons in Hk. destruct Hk as [Hne Hk].
  rewrite dict_update_cons, IH by done. rewrite dict_get_set.
  by rewrite bool_decide_eq_false_2 by (simpl in Hne; congruence).
Qed.

Lemma dict_get_update_in {V} (o d : dict V) k v :
  NoDup o.*1 → (k, v) ∈ o → dict_get (dict_update d o) k = Some v.
Proof.
  revert d. induction o as [|[k0 v0] o IH]; intros d Hnd Hin.
  - by apply elem_of_nil in Hin.
  - rewrite fmap_cons in Hnd. apply NoDup_cons in Hnd as [Hk0 Hnd].
    rewrite dict_update_cons.
    apply elem_of_cons in Hin as [[= -> ->]|Hin].
    + rewrite dict_get_update_notin by done. rewrite dict_get_set.
      by rewrite bool_decide_eq_true_2.
    + by apply IH.
Qed.

(** *** Insertion of nodes and merging *)
(** What one insertion does to the graph. *)
Lemma add_or_get_value_spec (self self' : ExpressionGraph) (v : node)
    (idx : nat) :
  add_or_get_value self v = (self', idx) →
  edges self' = edges self ∧ head self' = head self
  ∧ nodes self' !! idx = Some v
  ∧ ((nodes self' = nodes self ∧ is_op v = false)
     ∨ (nodes self' = nodes self ++ [v] ∧ idx = length (nodes self)))
  ∧ (is_op v = true →
     nodes self' = nodes self ++ [v] ∧ idx = length (nodes self)).
Proof.
  unfold add_or_get_value, append_node.
  destruct (is_op v) eqn:Hop.
  - intros [= <- <-]. simpl. split_and!; try done.
    + by rewrite lookup_app_r, Nat.sub_diag.
    + by right.
  - destruct (nodes_index (nodes self) v) as [i|] eqn:Hi.
    + intros [= <- <-]. apply nodes_index_Some in Hi as [Hi _].
      split_and!; try done. by left.
    + intros [= <- <-]. simpl. split_and!; try done.
      * by rewrite lookup_app_r, Nat.sub_diag.
      * by right.
Qed.

(** The index map of a merge: every node of the other graph is found at its
    new index, operators get fresh and pairwise distinct indices, and every
    node added to the graph is the image of a node of the other graph. *)
Lemma merge_nodes_spec (ns : list node) :
  ∀ (self self' : ExpressionGraph) (idxs : list nat),
    merge_nodes self ns = (self', idxs) →
    edges self' = edges self ∧ head self' = head self
    ∧ (∃ ext, nodes self' = nodes self ++ ext)
    ∧ length idxs = length ns
    ∧ (∀ j obj i, ns !! j = Some obj → idxs !! j = Some i →
                  nodes self' !! i = Some obj)
    ∧ (∀ j f i, ns !! j = Some (NFunc f) → idxs !! j = Some i →
                length (nodes self) ≤ i)
    ∧ (∀ j j' f f' i, ns !! j = Some (NFunc f) → ns !! j' = Some (NFunc f') →
                      idxs !! j = Some i → idxs !! j' = Some i → j = j')
    ∧ (∀ i obj, length (nodes self) ≤ i → nodes self' !! i = Some obj →
                ∃ j, ns !! j = Some obj ∧ idxs !! j = Some i).
Proof.
  induction ns as [|n ns IH]; intros self self' idxs Hm; simpl in Hm.
  - injection Hm as <- <-. split_and!; try done.
    + exists []. by rewrite app_nil_r.
    + intros i obj Hi Hobj. apply lookup_lt_Some in Hobj. lia.
  - destruct (add_or_get_value self n) as [self1 idx] eqn:Ha.
    destruct (merge_nodes self1 ns) as [self2 indices] eqn:Hm2.
    injection Hm as <- <-.
    apply add_or_get_value_spec in Ha as (He1 & Hh1 & Hidx & Hnodes & Hopn).
    destruct (IH _ _ _ Hm2) as (He2 & Hh2 & [ext2 Hext2] & Hlen & Hget & Hfresh
                                 & Hinj & Hsurj).
    assert (∃ ext1, nodes self1 = nodes self ++ ext1) as [ext1 Hext1].
    { destruct Hnodes as [[-> _]|[-> _]]; [exists []; by rewrite app_nil_r|eauto]. }
    assert (length (nodes self) ≤ length (nodes self1)) as Hle.
    { rewrite Hext1, length_app. lia. }
    split_and!.
    + congruence.
    + congruence.
    + exists (ext1 ++ ext2). by rewrite Hext2, Hext1, app_assoc.
    + simpl. by rewrite Hlen.
    + intros [|j] obj i Hj Hi; simpl in *.
      * injection Hj as ->. injection Hi as ->.
        rewrite Hext2. rewrite lookup_app_l; [done|].
        by eapply lookup_lt_Some.
      * by eapply Hget.
    + intros [|j] f i Hj Hi; simpl in *.
      * injection Hj as ->. injection Hi as ->.
        destruct (Hopn (is_op_func f)) as [_ ->]. done.
      * specialize (Hfresh _ _ _ Hj Hi). lia.
    + intros [|j] [|j'] f f' i Hj Hj' Hi Hi'; simpl in *; try done.
      * injection Hj as ->. injection Hi as ->.
        destruct (Hopn (is_op_func f)) as [Hn1 ->].
        specialize (Hfresh _ _ _ Hj' Hi'). rewrite Hn1, length_app in Hfresh.
        simpl in Hfresh. lia.
      * injection Hj' as ->. injection Hi' as ->.
        destruct (Hopn (is_op_func f')) as [Hn1 ->].
        specialize (Hfresh _ _ _ Hj Hi). rewrite Hn1, length_app in Hfresh.
        simpl in Hfresh. lia.
      * f_equal. by eapply Hinj.
    + intros i obj Hi Hobj.
      destruct (decide (length (nodes self1) ≤ i)) as [Hge|Hlt].
      * destruct (Hsurj i obj Hge Hobj) as (j & Hj & Hji).
        by exists (S j).
      * destruct Hnodes as [[Hn1 _]|[Hn1 Hidx']].
        { rewrite Hn1 in Hlt. lia. }
        assert (i = length (nodes self)) as ->.
        { rewrite Hn1, length_app in Hlt. simpl in Hlt. lia. }
        exists 0. simpl. split; [|by rewrite Hidx'].
        rewrite Hext2, lookup_app_l in Hobj by lia.
        rewrite Hn1, lookup_app_r, Nat.sub_diag in Hobj by done.
        by injection Hobj as ->.
Qed.

Lemma extends_refl (g : ExpressionGraph) : extends g g.
Proof. split; [exists []; by rewrite app_nil_r|done]. Qed.

Lemma extends_trans (g1 g2 g3 : ExpressionGraph) :
  extends g1 g2 → extends g2 g3 → extends g1 g3.
Proof.
  intros [[e1 H1] He1] [[e2 H2] He2]. split.
  - exists (e1 ++ e2). by rewrite H2, H1, app_assoc.
  - intros k cs Hk. by apply He2, He1.
Qed.

Lemma extends_lookup (g g' : ExpressionGraph) (n : nat) (obj : node) :
  extends g g' → nodes g !! n = Some obj → nodes g' !! n = Some obj.
Proof.
  intros [[ext ->] _] Hn. rewrite lookup_app_l; [done|].
  by eapply lookup_lt_Some.
Qed.

Lemma grounded_extends (g g' : ExpressionGraph) (n : nat) :
  extends g g' → grounded g n → grounded g' n.
Proof.
  intros Hext. induction 1 as [n l Hn|n f children Hn He Hne _ IH].
  - eapply grounded_leaf. by eapply extends_lookup.
  - eapply grounded_op; [by eapply extends_lookup| |done..].
    by apply Hext.
Qed.

Lemma grounded_lookup (g : ExpressionGraph) (n : nat) :
  grounded g n → is_Some (nodes g !! n).
Proof. destruct 1; eauto. Qed.

Lemma new_index_Ok (idxs : list nat) (k i : nat) :
  new_index idxs k = Ok i ↔ idxs !! k = Some i.
Proof.
  unfold new_index. destruct (idxs !! k); split; intros; simplify_eq; done.
Qed.

Lemma remap_entry_Ok (idxs : list nat) (pc r : nat * list nat) :
  (parent ← new_index idxs pc.1;
   children ← mapM (new_index idxs) pc.2;
   Ok (parent, children)) = Ok r →
  idxs !! pc.1 = Some r.1
  ∧ Forall2 (λ c c', idxs !! c = Some c') pc.2 r.2.
Proof.
  destruct (new_index idxs pc.1) as [p'| |] eqn:Hp; simpl; try done.
  destruct (mapM (new_index idxs) pc.2) as [cs'| |] eqn:Hc; simpl; try done.
  intros [= <-]. simpl. split; [by apply new_index_Ok|].
  apply mapM_result_Ok in Hc.
  eapply Forall2_impl; [exact Hc|]. intros c c'. simpl. apply new_index_Ok.
Qed.

Lemma graph_inv_pending_lt (g : ExpressionGraph) (p : nat) :
  graph_inv g (Some p) → p < length (nodes g).
Proof.
  intros (_ & _ & _ & Hp). destruct (Hp p eq_refl) as [f Hf].
  by eapply lookup_lt_Some.
Qed.

Lemma graph_inv_key_lt (g : ExpressionGraph) (pending : option nat) (k : nat) :
  graph_inv g pending → k ∈ (edges g).*1 → k < length (nodes g).
Proof.
  intros (_ & Hk & _) Hin. destruct (Hk k Hin) as [_ [f Hf]].
  by eapply lookup_lt_Some.
Qed.

(** Merging a finished graph into a graph under construction keeps the
    invariant, extends the graph, and returns a grounded node. *)
Lemma merge_inv (self other self' : ExpressionGraph) (h p : nat) :
  graph_inv self (Some p) →
  graph_inv other None →
  head other < length (nodes other) →
  merge_and_return_subgraph_head self other = Ok (self', h) →
  graph_inv self' (Some p) ∧ extends self self' ∧ head self' = head self
  ∧ grounded self' h.
Proof.
  intros Hself Hother Hhead. unfold merge_and_return_subgraph_head.
  destruct (merge_nodes self (nodes other)) as [self1 idxs] eqn:Hm.
  destruct (mapM _ (edges other)) as [remapped| |] eqn:Hr; simpl; try done.
  destruct (new_index idxs (head other)) as [h'| |] eqn:Hh; simpl; try done.
  intros [= <- <-].
  apply merge_nodes_spec in Hm
    as (He1 & Hh1 & [ext Hext] & Hlen & Hget & Hfresh & Hinj & Hsurj).
  apply mapM_result_Ok in Hr. apply new_index_Ok in Hh.
  pose proof (graph_inv_pending_lt _ _ Hself) as Hp.
  destruct Hself as (Hnd & Hkeys & Hgr & Hpend).
  destruct Hother as (Hnd' & Hkeys' & Hgr' & _).
  assert (∀ r, r ∈ remapped →
            ∃ pc, pc ∈ edges other ∧ idxs !! pc.1 = Some r.1
                  ∧ Forall2 (λ c c', idxs !! c = Some c') pc.2 r.2) as Hrem.
  { intros r Hin. apply list_elem_of_lookup in Hin as [i Hi].
    destruct (Forall2_lookup_r _ _ _ _ _ Hr Hi) as (pc & Hpc & HR).
    exists pc. split; [by eapply list_elem_of_lookup_2|].
    by apply remap_entry_Ok. }
  assert (∀ k, k ∈ remapped.*1 →
            length (nodes self) ≤ k ∧ ∃ f, nodes self1 !! k = Some (NFunc f))
    as Hremkey.
  { intros k Hk. apply list_elem_of_fmap in Hk as ([k' cs'] & -> & Hin).
    destruct (Hrem _ Hin) as ([p0 cs] & Hpc & Hp0 & _). simpl in *.
    destruct (Hkeys' p0) as [_ [f Hf]].
    { apply list_elem_of_fmap. by exists (p0, cs). }
    split; [by eapply Hfresh|]. exists f. by eapply Hget. }
  assert (NoDup remapped.*1) as Hndrem.
  { clear Hrem Hremkey. revert Hr Hnd' Hkeys'.
    generalize (edges other). intros es Hr.
    induction Hr as [|pc r es k HR Hr IH]; intros Hndl Hkl; [constructor|].
    rewrite fmap_cons in Hndl. apply NoDup_cons in Hndl as [Hpc Hndl].
    rewrite fmap_cons. apply NoDup_cons. split.
    - intros Hin. apply list_elem_of_fmap in Hin as (r' & Hr1 & Hin).
      apply list_elem_of_lookup in Hin as [i Hi].
      destruct (Forall2_lookup_r _ _ _ _ _ Hr Hi) as (pc' & Hpc' & HR').
      apply remap_entry_Ok in HR as [HR _].
      apply remap_entry_Ok in HR' as [HR' _].
      destruct (Hkl pc.1) as [_ [f Hf]]; [rewrite fmap_cons; by left|].
      destruct (Hkl pc'.1) as [_ [f' Hf']].
      { rewrite fmap_cons. right. apply list_elem_of_fmap.
        exists pc'. split; [done|]. by eapply list_elem_of_lookup_2. }
      rewrite <- Hr1 in HR'.
      assert (pc.1 = pc'.1) as Heq by (by eapply Hinj).
      apply Hpc. rewrite Heq. apply list_elem_of_fmap.
      exists pc'. split; [done|]. by eapply list_elem_of_lookup_2.
    - apply IH; [done|]. intros k0 Hk0. apply Hkl. rewrite fmap_cons.
      by right. }
  set (X := dict_update [] remapped).
  assert (∀ k, k ∈ X.*1 ↔ k ∈ remapped.*1) as HXkeys.
  { intros k. unfold X. rewrite dict_update_keys_elem. simpl.
    rewrite elem_of_nil. tauto. }
  assert (NoDup X.*1) as HndX by (apply dict_update_NoDup; constructor).
  assert (∀ k v, (k, v) ∈ remapped →
                 dict_get (dict_update (edges self1) X) k = Some v) as Hnew.
  { intros k v Hin. apply dict_get_update_in; [done|].
    apply dict_get_Some_elem. unfold X. by apply dict_get_update_in. }
  assert (∀ k, k < length (nodes self) →
               dict_get (dict_update (edges self1) X) k
               = dict_get (edges self) k) as Hold.
  { intros k Hk. rewrite dict_get_update_notin; [by rewrite He1|].
    rewrite HXkeys. intros Hin. destruct (Hremkey k Hin). lia. }
  set (g' := {| nodes := nodes self1;
                edges := dict_update (edges self1) X;
                head := head self1 |}).
  assert (extends self g') as Hextends.
  { split; [by exists ext|]. intros k cs Hk. simpl. rewrite Hold; [done|].
    eapply graph_inv_key_lt; [by split_and!|].
    apply dict_get_is_Some. by eauto. }
  assert (∀ j, grounded other j → ∀ i, idxs !! j = Some i → grounded g' i)
    as Htransfer.
  { induction 1 as [j l Hj|j f cs Hj He Hne _ IH]; intros i Hi.
    - eapply grounded_leaf. simpl. by eapply Hget.
    - apply dict_get_Some_elem in He.
      apply list_elem_of_lookup in He as [pos Hpos].
      destruct (Forall2_lookup_l _ _ _ _ _ Hr Hpos) as ([i' cs'] & Hpos' & HR).
      apply remap_entry_Ok in HR as [HR1 HR2]. simpl in *.
      assert (i' = i) as -> by congruence.
      eapply grounded_op.
      + simpl. by eapply Hget.
      + simpl. apply Hnew. by eapply list_elem_of_lookup_2.
      + intros ->. apply Forall2_length in HR2. by destruct cs.
      + intros c' Hc'. apply list_elem_of_lookup in Hc' as [q Hq].
        destruct (Forall2_lookup_r _ _ _ _ _ HR2 Hq) as (c & Hc & Hcc').
        eapply IH; [|done]. by eapply list_elem_of_lookup_2. }
  split_and!.
  - split_and!; simpl.
    + apply dict_update_NoDup. by rewrite He1.
    + intros k Hk. apply dict_update_keys_elem in Hk as [Hk|Hk].
      * rewrite He1 in Hk. destruct (Hkeys k Hk) as [Hne [f Hf]].
        split; [done|]. exists f. by eapply (extends_lookup self g').
      * apply HXkeys in Hk. destruct (Hremkey k Hk) as [Hge Hf].
        split; [|done]. intros [= ->]. lia.
    + intros n f Hn Hne.
      destruct (decide (n < length (nodes self))) as [Hlt|Hge].
      * apply (grounded_extends self g'); [done|]. eapply Hgr; [|done].
        rewrite Hext, lookup_app_l in Hn by done. done.
      * destruct (Hsurj n (NFunc f)) as (j & Hj & Hji); [lia|done|].
        eapply Htransfer; [|done]. by eapply Hgr'.
    + intros p0 [= <-]. destruct (Hpend p eq_refl) as [f Hf].
      exists f. by eapply (extends_lookup self g').
  - done.
  - done.
  - eapply Htransfer; [|done].
    destruct (lookup_lt_is_Some_2 _ _ Hhead) as [[f|l] Hobj].
    + by eapply Hgr'.
    + by eapply grounded_leaf.
Qed.

Lemma graph_inv_grounded (g : ExpressionGraph) (n : nat) :
  graph_inv g None → n < length (nodes g) → grounded g n.
Proof.
  intros (_ & _ & Hgr & _) Hn.
  destruct (lookup_lt_is_Some_2 _ _ Hn) as [[f|l] Hobj].
  - by eapply Hgr.
  - by eapply grounded_leaf.
Qed.

Lemma add_leaf_inv (self self' : ExpressionGraph) (l : leaf) (idx p : nat) :
  graph_inv self (Some p) →
  add_or_get_value self (NLeaf l) = (self', idx) →
  graph_inv self' (Some p) ∧ extends self self' ∧ head self' = head self
  ∧ grounded self' idx.
Proof.
  intros (Hnd & Hkeys & Hgr & Hpend) Ha.
  apply add_or_get_value_spec in Ha as (He & Hh & Hidx & Hnodes & _).
  assert (extends self self') as Hext.
  { split; [|by rewrite He].
    destruct Hnodes as [[-> _]|[-> _]]; [exists []; by rewrite app_nil_r|eauto]. }
  assert (∀ n f, nodes self' !! n = Some (NFunc f) →
                 nodes self !! n = Some (NFunc f)) as Hops.
  { intros n f Hn. destruct Hnodes as [[Hn' _]|[Hn' _]]; rewrite Hn' in Hn.
    - done.
    - apply lookup_app_Some in Hn as [Hn|[_ Hn]]; [done|].
      by destruct (n - length (nodes self)) as [|[|?]]. }
  split_and!; [split_and!|done..|by eapply grounded_leaf].
  - by rewrite He.
  - intros k Hk. rewrite He in Hk. destruct (Hkeys k Hk) as [Hne [f Hf]].
    split; [done|]. exists f. by eapply extends_lookup.
  - intros n f Hn Hne. eapply grounded_extends; [done|].
    eapply Hgr; [by apply Hops|done].
  - intros p0 Hp0. destruct (Hpend p0 Hp0) as [f Hf].
    exists f. by eapply extends_lookup.
Qed.

Lemma add_or_get_nodes_inv (args : list arg) :
  ∀ (self self' : ExpressionGraph) (idxs : list nat) (p : nat),
    graph_inv self (Some p) →
    (∀ f, AValue (NFunc f) ∉ args) →
    (∀ g', AGraph g' ∈ args → graph_inv g' None ∧ head g' < length (nodes g')) →
    (ASelf ∈ args → grounded self (head self)) →
    add_or_get_nodes self args = Ok (self', idxs) →
    graph_inv self' (Some p) ∧ extends self self' ∧ head self' = head self
    ∧ length idxs = length args
    ∧ ∀ i, i ∈ idxs → grounded self' i.
Proof.
  induction args as [|a args IH]; intros self self' idxs p Hinv Hnf Hgs Hself Ha.
  - injection Ha as <- <-. split_and!; try done.
    + apply extends_refl.
    + intros i Hi. by apply elem_of_nil in Hi.
  - simpl in Ha.
    destruct (add_or_get_node self a) as [[self1 idx]| |] eqn:H1;
      simpl in Ha; try done.
    destruct (add_or_get_nodes self1 args) as [[self2 indices]| |] eqn:H2;
      simpl in Ha; try done.
    injection Ha as <- <-.
    assert (graph_inv self1 (Some p) ∧ extends self self1
            ∧ head self1 = head self ∧ grounded self1 idx)
      as (Hinv1 & Hext1 & Hh1 & Hidx).
    { destruct a as [|other|[f|l]]; simpl in H1.
      - injection H1 as <- <-. split_and!; try done; [apply extends_refl|].
        apply Hself. by left.
      - destruct (Hgs other) as [Hio Hho]; [by left|].
        by eapply merge_inv.
      - exfalso. apply (Hnf f). by left.
      - injection H1 as H1. by eapply add_leaf_inv. }
    destruct (IH self1 self2 indices p Hinv1) as (Hinv2 & Hext2 & Hh2 & Hlen & Hgr);
      [|intros g' Hg'; apply Hgs; by right| |done|].
    { intros f Hf. apply (Hnf f). by right. }
    { intros Hin. rewrite Hh1. eapply grounded_extends; [done|].
      apply Hself. by right. }
    split_and!.
    + done.
    + by eapply extends_trans.
    + congruence.
    + simpl. by rewrite Hlen.
    + intros i Hi. apply elem_of_cons in Hi as [->|Hi]; [|by apply Hgr].
      by eapply grounded_extends.
Qed.

(** Setting the edge list of the pending operator node finishes the graph. *)
Lemma finalize_inv (self : ExpressionGraph) (idxs : list nat) (p : nat) :
  graph_inv self (Some p) →
  idxs ≠ [] →
  (∀ i, i ∈ idxs → grounded self i) →
  graph_inv (mkGraph (nodes self) (dict_set (edges self) p idxs) p) None
  ∧ p < length (nodes self).
Proof.
  intros Hinv Hne Hgr. pose proof (graph_inv_pending_lt _ _ Hinv) as Hp.
  destruct Hinv as (Hnd & Hkeys & Hgrs & Hpend).
  set (g := mkGraph (nodes self) (dict_set (edges self) p idxs) p).
  assert (extends self g) as Hext.
  { split; [exists []; by rewrite app_nil_r|]. intros k cs Hk. simpl.
    rewrite dict_get_set. rewrite bool_decide_eq_false_2; [done|].
    intros <-. destruct (Hkeys p) as [Hpp _]; [|done].
    apply dict_get_is_Some. by eauto. }
  split; [|done]. split_and!; simpl.
  - by apply dict_set_NoDup.
  - intros k Hk. split; [done|].
    apply dict_set_keys_elem in Hk as [->|Hk]; [by apply Hpend|].
    by apply Hkeys.
  - intros n f Hn _. destruct (decide (n = p)) as [->|Hnp].
    + eapply grounded_op; [done| |done|].
      * simpl. rewrite dict_get_set. by rewrite bool_decide_eq_true_2.
      * intros c Hc. eapply grounded_extends; [done|]. by apply Hgr.
    + eapply grounded_extends; [done|]. eapply Hgrs; [done|]. congruence.
  - done.
Qed.

Lemma append_op_inv (self : ExpressionGraph) (f : func) :
  graph_inv self None →
  let self0 := mkGraph (nodes self ++ [NFunc f]) (edges self) (head self) in
  graph_inv self0 (Some (length (nodes self))) ∧ extends self self0.
Proof.
  intros Hinv self0.
  assert (extends self self0) as Hext by (split; [by eexists|done]).
  split; [|done]. destruct Hinv as (Hnd & Hkeys & Hgr & _).
  split_and!; simpl.
  - done.
  - intros k Hk. destruct (Hkeys k Hk) as [_ [f' Hf']]. split.
    + intros [= ->]. apply lookup_lt_Some in Hf'. lia.
    + exists f'. by eapply (extends_lookup self self0).
  - intros n f' Hn Hne. eapply grounded_extends; [done|].
    apply lookup_app_Some in Hn as [Hn|[Hge Hn]]; [by eapply Hgr|].
    destruct (decide (n = length (nodes self))) as [->|Hne']; [done|].
    apply lookup_lt_Some in Hn. simpl in Hn. lia.
  - intros p [= <-]. exists f. by rewrite lookup_app_r, Nat.sub_diag.
Qed.

Lemma empty_graph_inv : graph_inv (mkGraph [] [] 0) None.
Proof.
  split_and!; simpl; [constructor| | |done].
  - intros k Hk. by apply elem_of_nil in Hk.
  - intros n f Hn. by rewrite lookup_nil in Hn.
Qed.

(** Every graph the engine builds satisfies the invariant, and its head is
    one of its nodes. *)
Theorem built_inv (g : ExpressionGraph) :
  built g → graph_inv g None ∧ head g < length (nodes g).
Proof.
  induction 1 as [op args g Hne Hself Hnf _ IH Hg
                 |self op args g _ IHself Hne Hnf _ IH Hg].
  - unfold ExpressionGraph_init in Hg. rewrite add_or_get_value_func in Hg.
    destruct (add_or_get_nodes _ args) as [[self1 idxs]| |] eqn:Ha;
      simpl in Hg; try done.
    injection Hg as <-.
    destruct (append_op_inv _ op empty_graph_inv) as [Hinv0 _].
    destruct (add_or_get_nodes_inv args _ self1 idxs _ Hinv0 Hnf IH) as
      (Hinv1 & _ & _ & Hlen & Hgr); [done|exact Ha|].
    simpl in *. apply (finalize_inv self1 idxs 0); [done| |done].
    intros ->. by destruct args.
  - destruct IHself as [Hinvs Hheads].
    unfold push_op in Hg. rewrite add_or_get_value_func in Hg.
    destruct (add_or_get_nodes _ args) as [[self1 idxs]| |] eqn:Ha;
      simpl in Hg; try done.
    injection Hg as <-.
    destruct (append_op_inv _ op Hinvs) as [Hinv0 Hext0].
    destruct (add_or_get_nodes_inv args _ self1 idxs _ Hinv0 Hnf IH) as
      (Hinv1 & _ & _ & Hlen & Hgr); [|exact Ha|].
    { intros _. simpl. eapply grounded_extends; [done|].
      by apply graph_inv_grounded. }
    simpl in *.
    apply (finalize_inv self1 idxs (length (nodes self))); [done| |done].
    intros ->. by destruct args.
Qed.

Corollary built_grounded (g : ExpressionGraph) :
  built g → grounded g (head g).
Proof. intros [Hinv Hh]%built_inv. by apply graph_inv_grounded. Qed.

(** *** The constructor and [push_op] return on built arguments *)

Lemma graph_inv_children (g : ExpressionGraph) (k : nat) (cs : list nat) :
  graph_inv g None → (k, cs) ∈ edges g →
  k < length (nodes g) ∧ ∀ c, c ∈ cs → c < length (nodes g).
Proof.
  intros Hinv Hin. pose proof Hinv as (Hnd & Hkeys & Hgr & _).
  assert (k ∈ (edges g).*1) as Hk.
  { apply list_elem_of_fmap. by exists (k, cs). }
  split; [by eapply graph_inv_key_lt|].
  destruct (Hkeys k Hk) as [_ [f Hf]].
  pose proof (dict_get_elem_NoDup _ _ _ Hnd Hin) as Hget.
  destruct (Hgr k f Hf) as [? l Hl|? f' cs' Hf' Hcs' _ Hch]; [done|congruence|].
  assert (cs' = cs) as -> by congruence.
  intros c Hc. destruct (grounded_lookup _ _ (Hch c Hc)) as [obj Hobj].
  by eapply lookup_lt_Some.
Qed.

Lemma merge_returns (self other : ExpressionGraph) :
  graph_inv other None → head other < length (nodes other) →
  ∃ r, merge_and_return_subgraph_head self other = Ok r.
Proof.
  intros Hinv Hhead. unfold merge_and_return_subgraph_head.
  destruct (merge_nodes self (nodes other)) as [self1 idxs] eqn:Hm.
  apply merge_nodes_spec in Hm as (_ & _ & _ & Hlen & _).
  assert (∀ k, k < length (nodes other) → ∃ i, new_index idxs k = Ok i)
    as Hidx.
  { intros k Hk. rewrite <- Hlen in Hk.
    destruct (lookup_lt_is_Some_2 _ _ Hk) as [i Hi].
    exists i. by apply new_index_Ok. }
  destruct (mapM_result_returns
              (λ pc : nat * list nat,
                 parent ← new_index idxs pc.1;
                 children ← mapM (new_index idxs) pc.2;
                 Ok (parent, children)) (edges other)) as [remapped ->].
  { intros [k cs] Hin. simpl.
    destruct (graph_inv_children _ _ _ Hinv Hin) as [Hk Hcs].
    destruct (Hidx k Hk) as [i ->]. simpl.
    destruct (mapM_result_returns (new_index idxs) cs) as [cs' ->]; [|by eauto].
    intros c Hc. by apply Hidx, Hcs. }
  simpl. destruct (Hidx _ Hhead) as [h ->]. simpl. eauto.
Qed.

Lemma add_or_get_nodes_returns (args : list arg) :
  ∀ (self : ExpressionGraph),
    (∀ g', AGraph g' ∈ args → graph_inv g' None ∧ head g' < length (nodes g')) →
    ∃ r, add_or_get_nodes self args = Ok r.
Proof.
  induction args as [|a args IH]; intros self Hgs; [by eexists|].
  simpl.
  assert (∃ r, add_or_get_node self a = Ok r) as [[self1 idx] ->].
  { destruct a as [|other|v]; simpl; [by eauto| |by eauto].
    destruct (Hgs other) as [Hinv Hh]; [by left|]. by apply merge_returns. }
  simpl. destruct (IH self1) as [[self2 idxs] ->].
  { intros g' Hg'. apply Hgs. by right. }
  simpl. eauto.
Qed.

(** X6. On arguments that are leaves, operators, built graphs or the graph
    itself, neither the constructor nor [push_op] raises. *)
Theorem built_returns (op : func) (args : list arg) :
  (∀ g', AGraph g' ∈ args → built g') →
  (∃ g, ExpressionGraph_init op args = Ok g)
  ∧ ∀ self, ∃ g, push_op self op args = Ok g.
Proof.
  intros Hargs.
  assert (∀ g', AGraph g' ∈ args →
                graph_inv g' None ∧ head g' < length (nodes g')) as Hinv.
  { intros g' Hg'. by apply built_inv, Hargs. }
  split.
  - unfold ExpressionGraph_init. rewrite add_or_get_value_func.
    destruct (add_or_get_nodes_returns args
                (mkGraph ([] ++ [NFunc op]) [] 0) Hinv) as [[self1 idxs] Hr].
    simpl in *. rewrite Hr. simpl. eauto.
  - intros self. unfold push_op. rewrite add_or_get_value_func.
    destruct (add_or_get_nodes_returns args
                (mkGraph (nodes self ++ [NFunc op]) (edges self) (head self))
                Hinv) as [[self1 idxs] Hr].
    rewrite Hr. simpl. eauto.
Qed.

(** *** [symbols] returns on a grounded node *)

Lemma mapM_fuel_returns {B} (F : nat → nat → result B) (cs : list nat) :
  (∀ c, c ∈ cs → ∃ N y, ∀ fuel, N ≤ fuel → F fuel c = Ok y) →
  ∃ N ys, length ys = length cs ∧ ∀ fuel, N ≤ fuel → mapM (F fuel) cs = Ok ys.
Proof.
  induction cs as [|c cs IH]; intros Hall.
  - exists 0, []. done.
  - destruct (Hall c) as (N1 & y & Hy); [by left|].
    destruct IH as (N2 & ys & Hlen & Hys); [intros c' Hc'; apply Hall; by right|].
    exists (N1 `max` N2), (y :: ys). split; [simpl; by rewrite Hlen|].
    intros fuel Hfuel. simpl. rewrite Hy by lia. simpl.
    rewrite Hys by lia. done.
Qed.

Lemma symbols_recurse_grounded (g : ExpressionGraph) (n : nat) :
  grounded g n →
  ∃ N s, ∀ fuel, N ≤ fuel → symbols_recurse fuel g n = Ok s.
Proof.
  induction 1 as [n l Hn|n f children Hn He Hne _ IH].
  - exists 1, (own_symbols l). intros [|fuel] Hfuel; [lia|].
    simpl. rewrite Hn, is_op_leaf. simpl. apply leaf_node_symbols.
  - destruct (mapM_fuel_returns (λ fuel, symbols_recurse fuel g) children IH)
      as (N & sets & Hlen & Hsets).
    destruct sets as [|s0 rest]; [by destruct children|].
    exists (S N).
    eexists (if bool_decide (NFunc f = NFunc evaluate_signal)
             then _ else _).
    intros [|fuel] Hfuel; [lia|].
    simpl. rewrite Hn, is_op_func. simpl. rewrite He, Hsets by lia. simpl.
    by case_bool_decide.
Qed.

End BuiltGraphs.

Lemma expression_of_graph (var : VariableObj) (sig : SignalReference)
    (param : ParameterObj) :
  expression_of var sig param = Ok (expression_graph var sig param).
Proof.
  unfold expression_of, SignalReference_call, Algebraic_mul,
    ExpressionGraph_radd, ExpressionGraph_add, ExpressionGraph_init, push_op.
  run_graph. unfold add_or_get_value. run_graph. done.
Qed.

(** Membership of a given argument in an explicit argument list. *)
Ltac arg_cases H :=
  repeat (apply elem_of_cons in H as [H|H]; [try discriminate H|]);
  try (by apply elem_of_nil in H).

Lemma expression_of_built (var : VariableObj) (sig : SignalReference)
    (param : ParameterObj) (g : ExpressionGraph) :
  expression_of var sig param = Ok g → built g.
Proof.
  unfold expression_of. intros Hg.
  destruct (SignalReference_call sig _) as [sig_1| |] eqn:H1;
    simpl in Hg; try done.
  destruct (Algebraic_mul _ _) as [product| |] eqn:H2; simpl in Hg; try done.
  destruct (ExpressionGraph_radd product _) as [sum| |] eqn:H3;
    simpl in Hg; try done.
  assert (built sig_1) as Hb1.
  { eapply built_init; [| | | |exact H1]; [done|..].
    - intros H. arg_cases H.
    - intros f H. arg_cases H.
    - intros g' H. arg_cases H. }
  assert (built product) as Hb2.
  { eapply built_init; [| | | |exact H2]; [done|..].
    - intros H. arg_cases H.
    - intros f H. arg_cases H.
    - intros g' H. arg_cases H. by injection H as ->. }
  assert (built sum) as Hb3.
  { eapply built_push_op; [exact Hb2| | | |exact H3]; [done|..].
    - intros f H. arg_cases H.
    - intros g' H. arg_cases H. }
  eapply built_push_op; [exact Hb3| | | |exact Hg]; [done|..].
  - intros f H. arg_cases H.
  - intros g' H. arg_cases H.
Qed.

Lemma expression_graph_built (var : VariableObj) (sig : SignalReference)
    (param : ParameterObj) :
  built (expression_graph var sig param).
Proof. eapply expression_of_built, expression_of_graph. Qed.

(** C1. Every graph the engine builds is grounded, and on a grounded graph
    [symbols()] returns; what it returns, there as on any graph on which it
    returns, is the set of symbols contributed by the leaves reachable from
    the head, the time variable being dropped below a signal evaluation:
    a node whose operator is [evaluate_signal] yields the union of its
    children's sets minus the time variable, and a bare [SignalReference]
    leaf yields itself and the time variable.  For [1 + var * sig(1) + param]
    the result is exactly [{var, sig, param}]. *)
Theorem symbols_free_symbols :
  (∀ g : ExpressionGraph, built g → grounded g (head g))
  ∧ (∀ g : ExpressionGraph,
      grounded g (head g) →
      ∃ (s : gset leaf) (N : nat),
        (∀ fuel, (N ≤ fuel)%nat → symbols fuel g = Ok s)
        ∧ ∀ x, x ∈ s ↔ free_symbol g (head g) x)
  ∧ (∀ (fuel : nat) (g : ExpressionGraph) (s : gset leaf),
      symbols fuel g = Ok s → ∀ x, x ∈ s ↔ free_symbol g (head g) x)
  ∧ (∀ (fuel : nat) (g : ExpressionGraph) (n : nat) (children : list nat)
       (sets : list (gset leaf)),
      nodes g !! n = Some (NFunc evaluate_signal) →
      dict_get (edges g) n = Some children →
      mapM (symbols_recurse fuel g) children = Ok sets →
      sets ≠ [] →
      symbols_recurse (S fuel) g n
      = Ok (⋃ sets ∖ {[ LVariable get_time_variable ]}))
  ∧ (∀ (fuel : nat) (g : ExpressionGraph) (n : nat) (sig : SignalReference),
      nodes g !! n = Some (NLeaf (LSignal sig)) →
      symbols_recurse (S fuel) g n
      = Ok {[ LSignal sig; LVariable get_time_variable ]})
  ∧ (∀ (var : VariableObj) (sig : SignalReference) (param : ParameterObj),
      (g ← expression_of var sig param; symbols 5 g)
      = Ok {[ LVariable var; LSignal sig; LParameter param ]}).
Proof.
  split_and!.
  - apply built_grounded.
  - intros g Hg.
    destruct (symbols_recurse_grounded g (head g) Hg) as (N & s & Hs).
    exists s, N. split; [done|].
    by apply (symbols_recurse_free N g (head g)), Hs.
  - intros fuel g s Hs. by apply (symbols_recurse_free fuel g).
  - intros fuel g n children sets Hn He Hm Hne. simpl.
    rewrite Hn, is_op_func. simpl. rewrite He, Hm. simpl.
    by destruct sets as [|s0 rest].
  - intros fuel g n sig Hn. simpl. by rewrite Hn, is_op_leaf.
  - intros var sig param. rewrite expression_of_graph. simpl.
    unfold symbols. repeat (progress (simpl; rewrite ?is_op_func)).
    f_equal. unfold Variable_symbols, SignalReference_symbols,
      Parameter_symbols, SignalReference_t.
    apply set_eq. intros x. set_unfold. intuition congruence.
Qed.

Lemma symbols_free_symbols_witness :
  ∃ (s : gset leaf) (N : nat),
    (∀ fuel, (N ≤ fuel)%nat →
       symbols fuel (expression_graph ex_var ex_sig ex_param) = Ok s)
    ∧ ∀ x, x ∈ s ↔
           free_symbol (expression_graph ex_var ex_sig ex_param)
             (head (expression_graph ex_var ex_sig ex_param)) x.
Proof.
  exact (proj1 (proj2 symbols_free_symbols)
           (expression_graph ex_var ex_sig ex_param)
           (proj1 symbols_free_symbols
              (expression_graph ex_var ex_sig ex_param)
              (expression_graph_built ex_var ex_sig ex_param))).
Defined.

(** ** [is_symbolic] *)

(** C10. Whenever [symbols()] returns, [is_symbolic] is [True]: a set is
    never equal to the dict literal it is compared with.  So [is_symbolic]
    is [True] on every grounded graph, hence on every graph the engine
    builds, and [False] on no graph at all; it is [True] on
    [ExpressionGraph(add, 1, 2)], whose leaves are numbers and whose symbol
    set is empty. *)
Theorem is_symbolic_always_true :
  (∀ (fuel : nat) (g : ExpressionGraph) (s : gset leaf),
      symbols fuel g = Ok s → is_symbolic fuel g = Ok true)
  ∧ (∀ g : ExpressionGraph,
      grounded g (head g) →
      ∃ N : nat, ∀ fuel, (N ≤ fuel)%nat → is_symbolic fuel g = Ok true)
  ∧ (∀ g : ExpressionGraph,
      built g →
      ∃ N : nat, ∀ fuel, (N ≤ fuel)%nat → is_symbolic fuel g = Ok true)
  ∧ (∀ (fuel : nat) (g : ExpressionGraph), is_symbolic fuel g ≠ Ok false)
  ∧ (g ← ExpressionGraph_init add
           [AValue (NLeaf (LInt 1)); AValue (NLeaf (LInt 2))];
     s ← symbols 2 g;
     b ← is_symbolic 2 g;
     Ok (s, b)) = Ok (∅, true).
Proof.
  assert (∀ g : ExpressionGraph,
            grounded g (head g) →
            ∃ N : nat, ∀ fuel, (N ≤ fuel)%nat → is_symbolic fuel g = Ok true)
    as Hgrounded.
  { intros g Hg.
    destruct (symbols_recurse_grounded g (head g) Hg) as (N & s & Hs).
    exists N. intros fuel Hfuel. unfold is_symbolic, symbols.
    by rewrite Hs. }
  split_and!.
  - intros fuel g s Hs. unfold is_symbolic. by rewrite Hs.
  - exact Hgrounded.
  - intros g Hg. by apply Hgrounded, built_grounded.
  - intros fuel g. unfold is_symbolic. by destruct (symbols fuel g).
  - reflexivity.
Qed.

Lemma is_symbolic_always_true_witness :
  ∃ N : nat, ∀ fuel, (N ≤ fuel)%nat →
    is_symbolic fuel (expression_graph ex_var ex_sig ex_param) = Ok true.
Proof.
  exact (proj1 (proj2 (proj2 is_symbolic_always_true))
           (expression_graph ex_var ex_sig ex_param)
           (expression_graph_built ex_var ex_sig ex_param)).
Defined.

(** ** Temporal classification *)

(** C2, as stated, fails on the code: the global time variable is a
    [Variable] leaf and is temporal, and the graph [var + sig(t)], a signal
    applied at the time variable, is classified as not temporal. *)
Lemma is_temporal_counterexample :
  is_temporal 1 (SymObj (NLeaf (LVariable get_time_variable))) = Ok true
  ∧ (sig_t ← SignalReference_call ex_sig
               (AValue (NLeaf (LVariable get_time_variable)));
     g ← Algebraic_add (LVariable ex_var) (AGraph sig_t);
     is_temporal 3 (SymGraph g)) = Ok false.
Proof. split; reflexivity. Qed.

(** C2, amended. A [Variable] leaf other than the time variable and a
    [Parameter] leaf are not temporal; [var + sig], with the bare signal, is
    temporal; [var + sig(t)], with the signal applied at the time variable,
    is not (a subtree rooted at a signal evaluation is constant whatever its
    time argument); [sig(z)] at a literal time [z] is not temporal. *)
Theorem is_temporal_classification :
  (∀ (fuel : nat) (v : VariableObj),
      v ≠ get_time_variable →
      is_temporal fuel (SymObj (NLeaf (LVariable v))) = Ok false)
  ∧ (∀ (fuel : nat) (p : ParameterObj),
      is_temporal fuel (SymObj (NLeaf (LParameter p))) = Ok false)
  ∧ (∀ (fuel : nat) (v : VariableObj) (s : SignalReference),
      (2 ≤ fuel)%nat →
      (g ← Algebraic_add (LVariable v) (AValue (NLeaf (LSignal s)));
       is_temporal fuel (SymGraph g)) = Ok true)
  ∧ (∀ (fuel : nat) (v : VariableObj) (s : SignalReference),
      v ≠ get_time_variable →
      (2 ≤ fuel)%nat →
      (sig_t ← SignalReference_call s
                 (AValue (NLeaf (LVariable get_time_variable)));
       g ← Algebraic_add (LVariable v) (AGraph sig_t);
       is_temporal fuel (SymGraph g)) = Ok false)
  ∧ (∀ (fuel : nat) (s : SignalReference) (z : Z),
      (1 ≤ fuel)%nat →
      (g ← SignalReference_call s (AValue (NLeaf (LInt z)));
       is_temporal fuel (SymGraph g)) = Ok false).
Proof.
  split_and!.
  - intros fuel v Hv. simpl. by rewrite bool_decide_eq_false_2 by congruence.
  - intros fuel p. reflexivity.
  - intros [|[|fuel]] v s Hfuel; [lia..|].
    unfold Algebraic_add, ExpressionGraph_init. run_graph.
    destruct (decide (v = get_time_variable)) as [->|Hv].
    + reflexivity.
    + rewrite bool_decide_eq_false_2 by congruence. reflexivity.
  - intros [|[|fuel]] v s Hv Hfuel; [lia..|].
    unfold SignalReference_call, Algebraic_add, ExpressionGraph_init.
    run_graph. rewrite bool_decide_eq_false_2 by congruence.
    run_graph. reflexivity.
  - intros [|fuel] s z Hfuel; [lia|].
    unfold SignalReference_call, ExpressionGraph_init. run_graph.
    reflexivity.
Qed.

Lemma is_temporal_classification_witness :
  is_temporal 1 (SymObj (NLeaf (LVariable ex_var))) = Ok false
  ∧ (g ← Algebraic_add (LVariable ex_var) (AValue (NLeaf (LSignal ex_sig)));
     is_temporal 2 (SymGraph g)) = Ok true.
Proof.
  destruct is_temporal_classification as (Hvar & _ & Hsig & _).
  split.
  - apply Hvar. discriminate.
  - apply Hsig. apply le_n.
Defined.

(** ** The shape rules, continued *)

Lemma infer_scalar_shape_loop_Ok (rest : list shape) :
  ∀ (this_shape r : shape),
    infer_scalar_shape_loop this_shape rest = Ok r ↔
    r ∈ this_shape :: rest
    ∧ ∀ s, s ∈ this_shape :: rest → s = r ∨ s = scalar_shape.
Proof.
  induction rest as [|s rest IH]; intros this_shape r; simpl.
  - split.
    + intros [= <-]. split; [by left|].
      intros s ->%list_elem_of_singleton. by left.
    + intros [->%list_elem_of_singleton _]. done.
  - case_bool_decide as Hs.
    + rewrite IH. split.
      * intros [Hr Hall]. split.
        { apply elem_of_cons in Hr as [-> | Hr]; [by left|by do 2 right]. }
        intros s' Hs'. apply elem_of_cons in Hs' as [-> | Hs'];
          [apply Hall; by left|].
        apply elem_of_cons in Hs' as [-> | Hs']; [|apply Hall; by right].
        destruct Hs as [-> | ->]; [apply Hall; by left|by right].
      * intros [Hr Hall]. split.
        { apply elem_of_cons in Hr as [-> | Hr]; [by left|].
          apply elem_of_cons in Hr as [-> | Hr]; [|by right].
          destruct Hs as [-> | ->]; [by left|].
          destruct (Hall this_shape) as [-> | ->]; by left. }
        intros s' Hs'. apply Hall.
        apply elem_of_cons in Hs' as [-> | Hs']; [by left|by do 2 right].
    + case_bool_decide as Ht.
      * rewrite IH. subst this_shape. split.
        { intros [Hr Hall]. split; [by right|].
          intros s' Hs'. apply elem_of_cons in Hs' as [-> | Hs'];
            [by right|by apply Hall]. }
        { intros [Hr Hall]. split.
          - apply elem_of_cons in Hr as [-> | Hr]; [|done].
            destruct (Hall s) as [?|?]; [by right; left|..];
              exfalso; apply Hs; by right.
          - intros s' Hs'. apply Hall. by right. }
      * split; [done|]. intros [Hr Hall]. exfalso.
        destruct (Hall this_shape) as [-> | ?]; [by left| |done].
        destruct (Hall s) as [-> | ->]; [by right; left|..]; apply Hs; auto.
Qed.

Lemma infer_scalar_shape_loop_cases (rest : list shape) (this_shape : shape) :
  (∃ r, infer_scalar_shape_loop this_shape rest = Ok r)
  ∨ infer_scalar_shape_loop this_shape rest = Raise AttributeError.
Proof.
  revert this_shape. induction rest as [|s rest IH]; intros this_shape; simpl.
  - left. eauto.
  - repeat case_bool_decide; auto.
Qed.

(** X1. The broadcast rule: [infer_scalar_shape] returns [r] exactly when
    [r] is one of the argument shapes and every argument shape is [r] or the
    scalar shape; on no argument it raises [IndexError], and in every other
    case [AttributeError]. *)
Theorem infer_scalar_shape_broadcast (shapes : list shape) :
  (∀ r, infer_scalar_shape shapes = Ok r ↔
        r ∈ shapes ∧ ∀ s, s ∈ shapes → s = r ∨ s = scalar_shape)
  ∧ (shapes = [] → infer_scalar_shape shapes = Raise IndexError)
  ∧ (shapes ≠ [] →
     (∀ r, ¬ (r ∈ shapes ∧ ∀ s, s ∈ shapes → s = r ∨ s = scalar_shape)) →
     infer_scalar_shape shapes = Raise AttributeError).
Proof.
  split_and!.
  - intros r. destruct shapes as [|this_shape rest]; simpl.
    + split; [done|]. intros [Hr _]. by apply elem_of_nil in Hr.
    + apply infer_scalar_shape_loop_Ok.
  - by intros ->.
  - intros Hne Hno. destruct shapes as [|this_shape rest]; [done|]. simpl.
    destruct (infer_scalar_shape_loop_cases rest this_shape) as [[r Hr]|Hr];
      [|done].
    exfalso. apply (Hno r). by apply infer_scalar_shape_loop_Ok.
Qed.

Lemma infer_scalar_shape_broadcast_witness :
  infer_scalar_shape [[1]; [3; 4]; [1]; [3; 4]] = Ok [3; 4]
  ∧ infer_scalar_shape [[2]; [3]] = Raise AttributeError.
Proof.
  split.
  - apply (proj1 (infer_scalar_shape_broadcast [[1]; [3; 4]; [1]; [3; 4]])).
    split.
    + apply (list_elem_of_lookup_2 _ 1%nat). reflexivity.
    + intros s Hs. rewrite !elem_of_cons, elem_of_nil in Hs.
      destruct Hs as [->|[->|[->|[->|[]]]]]; auto.
  - apply (proj2 (proj2 (infer_scalar_shape_broadcast [[2]; [3]])));
      [discriminate|].
    intros r [Hr Hall].
    destruct (Hall [2]) as [<-|H2]; [by left| |discriminate H2].
    destruct (Hall [3]) as [H3|H3]; [by right; left|discriminate..].
Defined.

(** X2. The broadcast rule does not depend on the order of the arguments. *)
Theorem infer_scalar_shape_permutation (shapes shapes' : list shape) :
  shapes ≡ₚ shapes' →
  infer_scalar_shape shapes = infer_scalar_shape shapes'.
Proof.
  intros Hp.
  assert (∀ l r, infer_scalar_shape l = Ok r ↔
                 r ∈ l ∧ ∀ s, s ∈ l → s = r ∨ s = scalar_shape) as Hok.
  { intros [|this_shape rest] r; simpl.
    - split; [done|]. intros [Hr _]. by apply elem_of_nil in Hr.
    - apply infer_scalar_shape_loop_Ok. }
  assert (∀ l, l ≠ [] → (∃ r, infer_scalar_shape l = Ok r)
                        ∨ infer_scalar_shape l = Raise AttributeError)
    as Hcases.
  { intros [|this_shape rest] Hne; [done|]. simpl.
    apply infer_scalar_shape_loop_cases. }
  destruct shapes as [|s0 rest].
  { apply Permutation_nil_l in Hp. by subst. }
  assert (shapes' ≠ []) as Hne'.
  { intros ->. by apply Permutation_nil_r in Hp. }
  assert (∀ r, infer_scalar_shape (s0 :: rest) = Ok r ↔
               infer_scalar_shape shapes' = Ok r) as Hiff.
  { intros r. rewrite !Hok. split; intros [Hr Hall]; split.
    - by rewrite <- Hp.
    - intros s Hs. apply Hall. by rewrite Hp.
    - by rewrite Hp.
    - intros s Hs. apply Hall. by rewrite <- Hp. }
  destruct (Hcases (s0 :: rest)) as [[r Hr]|Hr]; [done| |].
  - rewrite Hr. symmetry. by apply Hiff.
  - destruct (Hcases shapes' Hne') as [[r' Hr']|Hr']; [|congruence].
    apply Hiff in Hr'. congruence.
Qed.

Lemma infer_scalar_shape_permutation_witness :
  infer_scalar_shape [[1]; [3; 4]] = infer_scalar_shape [[3; 4]; [1]].
Proof.
  apply infer_scalar_shape_permutation. apply perm_swap.
Defined.

(** X3. The matrix-product rule on a chain is the binary rule iterated from
    the left, and the binary rule is associative. *)
Theorem matmul_shape_chain :
  (∀ (a b : shape) (rest : list shape),
      matmul_shape (a :: b :: rest)
      = (ab ← matmul_shape [a; b]; matmul_shape (ab :: rest)))
  ∧ (∀ a b c : shape,
      length a = 2%nat → length b = 2%nat → length c = 2%nat →
      (ab ← matmul_shape [a; b]; matmul_shape [ab; c])
      = (bc ← matmul_shape [b; c]; matmul_shape [a; bc])).
Proof.
  split.
  - intros a b rest. simpl.
    destruct (unpack2 a) as [[n m]| |]; simpl; try done.
    destruct (unpack2 b) as [[n' m']| |]; simpl; try done.
    by case_bool_decide.
  - intros [|n1 [|m1 [|]]] [|n2 [|m2 [|]]] [|n3 [|m3 [|]]] Ha Hb Hc;
      try done. simpl.
    repeat (case_bool_decide; simpl); try done; congruence.
Qed.

Lemma matmul_shape_chain_witness :
  (ab ← matmul_shape [[2; 3]; [3; 4]]; matmul_shape [ab; [4; 5]])
  = (bc ← matmul_shape [[3; 4]; [4; 5]]; matmul_shape [[2; 3]; bc]).
Proof.
  exact (proj2 matmul_shape_chain [2; 3] [3; 4] [4; 5]
           eq_refl eq_refl eq_refl).
Defined.

(** X4. Transposition of a shape is an involution, and the shape of the
    transpose of a product is the shape of the product of the transposes in
    reverse order, errors included. *)
Theorem transpose_shape_laws :
  (∀ s t : shape,
      transpose_shape [s] = Ok t → transpose_shape [t] = Ok s)
  ∧ (∀ a b : shape,
      (ab ← matmul_shape [a; b]; transpose_shape [ab])
      = (bt ← transpose_shape [b]; at' ← transpose_shape [a];
         matmul_shape [bt; at'])).
Proof.
  split.
  - intros [|n [|m [|]]] t; simpl; try done. by intros [= <-].
  - intros [|n1 [|m1 [|]]] [|n2 [|m2 [|]]]; simpl; try done.
    repeat (case_bool_decide; simpl); try done; congruence.
Qed.

Lemma transpose_shape_laws_witness :
  transpose_shape [[4; 3]] = Ok [3; 4].
Proof.
  exact (proj1 transpose_shape_laws [3; 4] [4; 3] eq_refl).
Defined.

(** ** Registration of operators *)

Lemma func_is_op_in_true (t : op_tables) (g : func) :
  func_is_op_in t g = true ↔
  ∃ (k : option nat) (ops : list func), ops_table t !! k = Some ops ∧ g ∈ ops.
Proof.
  unfold func_is_op_in. rewrite existsb_exists. split.
  - intros (ops & Hin & Hg). apply list_elem_of_In in Hin.
    apply list_elem_of_fmap in Hin as ([k ops'] & -> & Hin).
    apply elem_of_map_to_list in Hin. apply bool_decide_eq_true in Hg.
    by exists k, ops'.
  - intros (k & ops & Hk & Hg). exists ops. split.
    + apply list_elem_of_In, list_elem_of_fmap. exists (k, ops).
      split; [done|]. by apply elem_of_map_to_list.
    + by apply bool_decide_eq_true.
Qed.

(** X5. Registration composes with [is_op] and [infer_shape]: after
    [register_op(shape_func)(func)] the function is an operator and its
    shape rule is [shape_func], also when it was registered before (there is
    no duplicate check, the last rule wins); every other function is an
    operator, and has the rule, it had before.  Once the module is loaded,
    every function it defines is an operator with a rule, so [infer_shape]
    does not raise [KeyError] on a registered function. *)
Theorem register_op_spec :
  (∀ (shape_fn : shape_func) (f g : func) (t : op_tables),
      func_is_op_in (register_op shape_fn f t) g
      = bool_decide (g = f) || func_is_op_in t g
      ∧ ∀ shapes,
          infer_shape_in (register_op shape_fn f t) g shapes
          = if bool_decide (g = f) then shape_fn shapes
            else infer_shape_in t g shapes)
  ∧ ∀ f : func,
      func_is_op_in tables f = true
      ∧ ∀ shapes,
          infer_shape f shapes
          = match f with
            | matmul => matmul_shape shapes
            | transpose => transpose_shape shapes
            | _ => infer_scalar_shape shapes
            end.
Proof.
  split.
  - intros shape_fn f g t. split.
    + apply eq_true_iff_eq. rewrite orb_true_iff, bool_decide_eq_true.
      rewrite !func_is_op_in_true. unfold register_op. simpl.
      set (idx := Some (signature_parameters f)). split.
      * intros (k & ops & Hk & Hg).
        destruct (decide (k = idx)) as [->|Hne].
        -- rewrite lookup_insert_eq in Hk. injection Hk as <-.
           apply elem_of_app in Hg as [Hg|Hg].
           ++ right. destruct (ops_table t !! idx) as [old|] eqn:Hold;
                simpl in Hg; [by eauto|by apply elem_of_nil in Hg].
           ++ left. by apply list_elem_of_singleton in Hg.
        -- rewrite lookup_insert_ne in Hk by done. right. eauto.
      * intros [->|(k & ops & Hk & Hg)].
        -- eexists idx, _. rewrite lookup_insert_eq. split; [done|].
           apply elem_of_app. right. by apply list_elem_of_singleton.
        -- destruct (decide (k = idx)) as [->|Hne].
           ++ eexists idx, _. rewrite lookup_insert_eq. split; [done|].
              apply elem_of_app. left. by rewrite Hk.
           ++ exists k, ops. by rewrite lookup_insert_ne.
    + intros shapes. unfold infer_shape_in, register_op. simpl.
      case_bool_decide as Hg.
      * subst g. by rewrite lookup_insert_eq.
      * by rewrite lookup_insert_ne.
  - intros f. split; [by destruct f; vm_compute|].
    intros shapes. by destruct f.
Qed.

(** ** Construction preserves trees *)

Section Sim.
Local Open Scope nat_scope.

Lemma graph_inv_keys_are_ops (g : ExpressionGraph) (pending : option nat) :
  graph_inv g pending → keys_are_ops g.
Proof. intros (_ & Hk & _) k Hin. by destruct (Hk k Hin). Qed.

Lemma keys_are_ops_leaf (g : ExpressionGraph) (n : nat) (l : leaf) :
  keys_are_ops g → nodes g !! n = Some (NLeaf l) →
  dict_get (edges g) n = None.
Proof.
  intros Hk Hn. destruct (dict_get (edges g) n) as [cs|] eqn:He; [|done].
  destruct (Hk n) as [f Hf]; [|congruence].
  apply dict_get_is_Some. eauto.
Qed.

Lemma same_tree_refl (g : ExpressionGraph) (n : nat) :
  keys_are_ops g → grounded g n → same_tree g g n n.
Proof.
  intros Hk. induction 1 as [n l Hn|n f children Hn He Hne _ IH].
  - eapply same_tree_leaf; eauto using keys_are_ops_leaf.
  - eapply same_tree_op; eauto.
    intros k c1 c2 H1 H2. assert (c1 = c2) as <- by congruence.
    apply IH. by eapply list_elem_of_lookup_2.
Qed.

Lemma same_tree_extends (g1 g2 g3 : ExpressionGraph) (n1 n2 : nat) :
  extends g2 g3 → keys_are_ops g3 →
  same_tree g1 g2 n1 n2 → same_tree g1 g3 n1 n2.
Proof.
  intros Hext Hk.
  induction 1 as [n1 n2 l H1 H2 He1 He2|n1 n2 f cs1 cs2 H1 H2 He1 He2 Hlen _ IH].
  - eapply same_tree_leaf; eauto using extends_lookup.
    eapply keys_are_ops_leaf; eauto using extends_lookup.
  - eapply same_tree_op; eauto using extends_lookup. by apply Hext.
Qed.

Lemma merge_same_tree (self other self' : ExpressionGraph) (h p : nat) :
  graph_inv self (Some p) →
  graph_inv other None →
  head other < length (nodes other) →
  merge_and_return_subgraph_head self other = Ok (self', h) →
  same_tree other self' (head other) h.
Proof.
  intros Hself Hother Hhead Hmerge.
  destruct (merge_inv _ _ _ _ _ Hself Hother Hhead Hmerge)
    as (Hinv' & _ & _ & _).
  apply graph_inv_keys_are_ops in Hinv'.
  pose proof (graph_inv_keys_are_ops _ _ Hother) as Hko.
  revert Hmerge Hinv'. unfold merge_and_return_subgraph_head.
  destruct (merge_nodes self (nodes other)) as [self1 idxs] eqn:Hm.
  destruct (mapM _ (edges other)) as [remapped| |] eqn:Hr; simpl; try done.
  destruct (new_index idxs (head other)) as [h'| |] eqn:Hh; simpl; try done.
  intros [= <- <-] Hinv'.
  apply merge_nodes_spec in Hm
    as (He1 & Hh1 & [ext Hext] & Hlen & Hget & Hfresh & Hinj & Hsurj).
  apply mapM_result_Ok in Hr. apply new_index_Ok in Hh.
  (* the remapped keys are distinct: the keys of [other.edges] are distinct
     operator nodes, and operator nodes get distinct new indices *)
  destruct Hother as (Hnd' & Hkeys' & Hgr' & _).
  assert (NoDup remapped.*1) as Hndrem.
  { clear Hinv'. revert Hr Hnd' Hkeys'.
    generalize (edges other). intros es Hr.
    induction Hr as [|pc r es k HR Hr IH]; intros Hndl Hkl; [constructor|].
    rewrite fmap_cons in Hndl. apply NoDup_cons in Hndl as [Hpc Hndl].
    rewrite fmap_cons. apply NoDup_cons. split.
    - intros Hin. apply list_elem_of_fmap in Hin as (r' & Hr1 & Hin).
      apply list_elem_of_lookup in Hin as [i Hi].
      destruct (Forall2_lookup_r _ _ _ _ _ Hr Hi) as (pc' & Hpc' & HR').
      apply remap_entry_Ok in HR as [HR _].
      apply remap_entry_Ok in HR' as [HR' _].
      destruct (Hkl pc.1) as [_ [f Hf]]; [rewrite fmap_cons; by left|].
      destruct (Hkl pc'.1) as [_ [f' Hf']].
      { rewrite fmap_cons. right. apply list_elem_of_fmap.
        exists pc'. split; [done|]. by eapply list_elem_of_lookup_2. }
      rewrite <- Hr1 in HR'.
      assert (pc.1 = pc'.1) as Heq by (by eapply Hinj).
      apply Hpc. rewrite Heq. apply list_elem_of_fmap.
      exists pc'. split; [done|]. by eapply list_elem_of_lookup_2.
    - apply IH; [done|]. intros k0 Hk0. apply Hkl. rewrite fmap_cons.
      by right. }
  set (X := dict_update [] remapped).
  assert (NoDup X.*1) as HndX by (apply dict_update_NoDup; constructor).
  assert (∀ k, k ∈ X.*1 ↔ k ∈ remapped.*1) as HXkeys.
  { intros k. unfold X. rewrite dict_update_keys_elem. simpl.
    rewrite elem_of_nil. tauto. }
  assert (∀ k v, (k, v) ∈ remapped →
                 dict_get (dict_update (edges self1) X) k = Some v) as Hnew.
  { intros k v Hin. apply dict_get_update_in; [done|].
    apply dict_get_Some_elem. unfold X. by apply dict_get_update_in. }
  set (g' := {| nodes := nodes self1;
                edges := dict_update (edges self1) X;
                head := head self1 |}) in *.
  assert (∀ j, grounded other j → ∀ i, idxs !! j = Some i →
               same_tree other g' j i) as Htransfer.
  { induction 1 as [j l Hj|j f cs Hj He Hne _ IH]; intros i Hi.
    - eapply same_tree_leaf; [done| | |].
      + simpl. by eapply Hget.
      + by eapply keys_are_ops_leaf.
      + eapply keys_are_ops_leaf; [done|]. simpl. by eapply Hget.
    - pose proof He as He'. apply dict_get_Some_elem in He.
      apply list_elem_of_lookup in He as [pos Hpos].
      destruct (Forall2_lookup_l _ _ _ _ _ Hr Hpos) as ([i' cs'] & Hpos' & HR).
      apply remap_entry_Ok in HR as [HR1 HR2]. simpl in *.
      assert (i' = i) as -> by congruence.
      eapply (same_tree_op other g' j i f cs cs'); [done| |done| | |].
      + simpl. by eapply Hget.
      + simpl. apply Hnew. by eapply list_elem_of_lookup_2.
      + by eapply Forall2_length.
      + intros k c1 c2 Hc1 Hc2.
        destruct (Forall2_lookup_l _ _ _ _ _ HR2 Hc1) as (c2' & Hc2' & Hcc).
        assert (c2' = c2) as -> by congruence.
        eapply IH; [|done]. by eapply list_elem_of_lookup_2. }
  eapply Htransfer; [|done].
  destruct (lookup_lt_is_Some_2 _ _ Hhead) as [[f|l] Hobj].
  - by eapply Hgr'.
  - by eapply grounded_leaf.
Qed.

Lemma add_or_get_nodes_same_tree (orig : ExpressionGraph) (args : list arg) :
  ∀ (self self' : ExpressionGraph) (idxs : list nat) (p : nat),
    graph_inv self (Some p) →
    (∀ f, AValue (NFunc f) ∉ args) →
    (∀ g', AGraph g' ∈ args → graph_inv g' None ∧ head g' < length (nodes g')) →
    (ASelf ∈ args →
     keys_are_ops orig ∧ grounded orig (head orig) ∧ extends orig self
     ∧ head self = head orig) →
    add_or_get_nodes self args = Ok (self', idxs) →
    Forall2 (arg_at orig self') args idxs.
Proof.
  induction args as [|a args IH]; intros self self' idxs p Hinv Hnf Hgs Hself Ha.
  - injection Ha as <- <-. constructor.
  - simpl in Ha.
    destruct (add_or_get_node self a) as [[self1 idx]| |] eqn:H1;
      simpl in Ha; try done.
    destruct (add_or_get_nodes self1 args) as [[self2 indices]| |] eqn:H2;
      simpl in Ha; try done.
    injection Ha as <- <-.
    assert (graph_inv self1 (Some p) ∧ extends self self1
            ∧ head self1 = head self ∧ arg_at orig self1 a idx)
      as (Hinv1 & Hext1 & Hh1 & Hidx).
    { destruct a as [|other|[f|l]]; simpl in H1.
      - injection H1 as <- <-. split_and!; try done; [apply extends_refl|].
        destruct Hself as (Hk & Hg & Hext & Hh); [by left|].
        simpl. rewrite Hh. eapply same_tree_extends; [done| |].
        + by eapply graph_inv_keys_are_ops.
        + by apply same_tree_refl.
      - destruct (Hgs other) as [Hio Hho]; [by left|].
        destruct (merge_inv _ _ _ _ _ Hinv Hio Hho H1) as (? & ? & ? & _).
        split_and!; try done. simpl.
        by apply (merge_same_tree self other self1 idx p).
      - exfalso. apply (Hnf f). by left.
      - injection H1 as H1.
        destruct (add_leaf_inv _ _ _ _ _ Hinv H1) as (Hi1 & ? & ? & _).
        split_and!; try done. simpl.
        apply add_or_get_value_spec in H1 as (_ & _ & Hidx & _).
        split; [done|]. eapply keys_are_ops_leaf; [|done].
        by eapply graph_inv_keys_are_ops. }
    destruct (add_or_get_nodes_inv args self1 self2 indices p Hinv1)
      as (Hinv2 & Hext2 & _); [|intros g' Hg'; apply Hgs; by right| |done|].
    { intros f Hf. apply (Hnf f). by right. }
    { intros Hin. destruct Hself as (Hk & Hg & Hext & Hh); [by right|].
      rewrite Hh1, Hh. eapply grounded_extends; [|done].
      by eapply extends_trans. }
    constructor.
    + pose proof (graph_inv_keys_are_ops _ _ Hinv2) as Hk2.
      destruct a as [|other|[f|l]]; simpl in *.
      * by eapply same_tree_extends.
      * by eapply same_tree_extends.
      * done.
      * destruct Hidx as [Hn He]. split; [by eapply extends_lookup|].
        eapply keys_are_ops_leaf; [done|]. by eapply extends_lookup.
    + eapply (IH self1 self2 indices p); try done.
      * intros f Hf. apply (Hnf f). by right.
      * intros g' Hg'. apply Hgs. by right.
      * intros Hin. destruct Hself as (Hk & Hg & Hext & Hh); [by right|].
        split_and!; try done; [by eapply extends_trans|congruence].
Qed.

Lemma arg_at_extends (orig g g' : ExpressionGraph) (a : arg) (i : nat) :
  extends g g' → keys_are_ops g' → arg_at orig g a i → arg_at orig g' a i.
Proof.
  intros Hext Hk. destruct a as [|other|[f|l]]; simpl.
  - by apply same_tree_extends.
  - by apply same_tree_extends.
  - done.
  - intros [Hn He]. split; [by eapply extends_lookup|].
    eapply keys_are_ops_leaf; [done|]. by eapply extends_lookup.
Qed.

(** The graph the constructor (with [self] the empty graph) or [push_op]
    returns: every argument sits, as the tree it stood for, at its index in
    the edge list of the new head. *)
Lemma finish_spec (orig self1 : ExpressionGraph) (args : list arg)
    (idxs : list nat) (p : nat) (op : func) :
  graph_inv self1 (Some p) →
  nodes self1 !! p = Some (NFunc op) →
  idxs ≠ [] →
  (∀ i, i ∈ idxs → grounded self1 i) →
  Forall2 (arg_at orig self1) args idxs →
  let g := mkGraph (nodes self1) (dict_set (edges self1) p idxs) p in
  nodes g !! head g = Some (NFunc op)
  ∧ dict_get (edges g) (head g) = Some idxs
  ∧ Forall2 (arg_at orig g) args idxs.
Proof.
  intros Hinv Hp Hne Hgr Hargs g.
  destruct (finalize_inv self1 idxs p Hinv Hne Hgr) as [Hinvg _].
  fold g in Hinvg.
  split_and!; simpl; [done|by rewrite dict_get_set, bool_decide_eq_true_2|].
  assert (extends self1 g) as Hext.
  { destruct Hinv as (Hnd & Hkeys & Hgrs & Hpend).
    split; [exists []; by rewrite app_nil_r|]. intros k cs Hk. simpl.
    rewrite dict_get_set. rewrite bool_decide_eq_false_2; [done|].
    intros <-. destruct (Hkeys p) as [Hpp _]; [|done].
    apply dict_get_is_Some. by eauto. }
  eapply Forall2_impl; [done|]. intros a i. apply arg_at_extends; [done|].
  by eapply graph_inv_keys_are_ops.
Qed.

End Sim.

Section Sim2.
Local Open Scope nat_scope.

Lemma mapM_result_Forall2 {A B C} (F : A → result C) (G : B → result C)
    (l1 : list A) (l2 : list B) :
  Forall2 (λ a b, F a = G b) l1 l2 → mapM F l1 = mapM G l2.
Proof.
  induction 1 as [|a b l1 l2 Hab _ IH]; [done|].
  simpl. by rewrite Hab, IH.
Qed.

Lemma all_of_Forall2 (F G : nat → result bool) (l1 l2 : list nat) :
  Forall2 (λ a b, F a = G b) l1 l2 → all_of F l1 = all_of G l2.
Proof.
  induction 1 as [|a b l1 l2 Hab _ IH]; [done|].
  simpl. by rewrite Hab, IH.
Qed.

Lemma same_tree_call {V} `{PyValues V} (g1 g2 : ExpressionGraph)
    (values : gmap leaf V) (n1 n2 : nat) :
  same_tree g1 g2 n1 n2 →
  ∀ fuel, call_recurse fuel g1 values n1 = call_recurse fuel g2 values n2.
Proof.
  induction 1 as [n1 n2 l H1 H2 He1 He2|n1 n2 f cs1 cs2 H1 H2 He1 He2 Hlen _ IH];
    intros [|fuel]; try done; simpl.
  - by rewrite H1, H2.
  - rewrite H1, H2, He1, He2. destruct (is_op (NFunc f)); [|done].
    f_equal. apply mapM_result_Forall2.
    apply Forall2_same_length_lookup. split; [done|].
    intros k c1 c2 Hc1 Hc2. by eapply IH.
Qed.

Lemma same_tree_symbols (g1 g2 : ExpressionGraph) (n1 n2 : nat) :
  same_tree g1 g2 n1 n2 →
  ∀ fuel, symbols_recurse fuel g1 n1 = symbols_recurse fuel g2 n2.
Proof.
  induction 1 as [n1 n2 l H1 H2 He1 He2|n1 n2 f cs1 cs2 H1 H2 He1 He2 Hlen _ IH];
    intros [|fuel]; try done; simpl.
  - by rewrite H1, H2.
  - rewrite H1, H2, He1, He2. destruct (negb (is_op (NFunc f))); [done|].
    f_equal. apply mapM_result_Forall2.
    apply Forall2_same_length_lookup. split; [done|].
    intros k c1 c2 Hc1 Hc2. by eapply IH.
Qed.

Lemma same_tree_shape (g1 g2 : ExpressionGraph) (n1 n2 : nat) :
  same_tree g1 g2 n1 n2 →
  ∀ fuel, _get_shape_of fuel g1 n1 = _get_shape_of fuel g2 n2.
Proof.
  induction 1 as [n1 n2 l H1 H2 He1 He2|n1 n2 f cs1 cs2 H1 H2 He1 He2 Hlen _ IH];
    intros [|fuel]; try done; simpl.
  - by rewrite H1, H2, He1, He2.
  - rewrite H1, H2, He1, He2.
    f_equal. apply mapM_result_Forall2.
    apply Forall2_same_length_lookup. split; [done|].
    intros k c1 c2 Hc1 Hc2. by eapply IH.
Qed.

Lemma same_tree_constant (g1 g2 : ExpressionGraph) (n1 n2 : nat) :
  same_tree g1 g2 n1 n2 →
  ∀ fuel, _is_subtree_constant fuel g1 n1 = _is_subtree_constant fuel g2 n2.
Proof.
  induction 1 as [n1 n2 l H1 H2 He1 He2|n1 n2 f cs1 cs2 H1 H2 He1 He2 Hlen _ IH];
    intros [|fuel]; try done; simpl.
  - by rewrite H1, H2.
  - rewrite H1, H2, He1, He2. destruct (negb (is_op (NFunc f))); [done|].
    case_bool_decide; [done|].
    apply all_of_Forall2.
    apply Forall2_same_length_lookup. split; [done|].
    intros k c1 c2 Hc1 Hc2. by eapply IH.
Qed.

Lemma call_recurse_op {V} `{PyValues V} (g : ExpressionGraph)
    (values : gmap leaf V) (n : nat) (f : func) (cs : list nat) (fuel : nat) :
  nodes g !! n = Some (NFunc f) → dict_get (edges g) n = Some cs →
  call_recurse (S fuel) g values n
  = mapM (call_recurse fuel g values) cs ≫= apply_func f.
Proof. intros Hn He. simpl. by rewrite Hn, is_op_func, He. Qed.

Lemma call_recurse_leaf {V} `{PyValues V} (g : ExpressionGraph)
    (values : gmap leaf V) (n : nat) (l : leaf) (fuel : nat) :
  nodes g !! n = Some (NLeaf l) →
  call_recurse (S fuel) g values n
  = match values_get values (NLeaf l) with
    | Some v => Ok v
    | None => Ok (of_obj (NLeaf l))
    end.
Proof. intros Hn. simpl. by rewrite Hn, is_op_leaf. Qed.

Lemma symbols_recurse_op (g : ExpressionGraph) (n : nat) (f : func)
    (cs : list nat) (fuel : nat) :
  nodes g !! n = Some (NFunc f) → dict_get (edges g) n = Some cs →
  symbols_recurse (S fuel) g n
  = (sets ← mapM (symbols_recurse fuel g) cs;
     child_symbols ← set_union sets;
     if bool_decide (f = evaluate_signal)
     then Ok (child_symbols ∖ {[ LVariable get_time_variable ]})
     else Ok child_symbols).
Proof.
  intros Hn He. simpl. rewrite Hn, is_op_func, He. simpl.
  destruct (mapM _ cs) as [sets| |]; simpl; try done.
  destruct (set_union sets); simpl; try done.
  destruct (decide (f = evaluate_signal)) as [->|Hne].
  - by rewrite !bool_decide_eq_true_2.
  - by rewrite !bool_decide_eq_false_2 by congruence.
Qed.

Lemma symbols_recurse_leaf (g : ExpressionGraph) (n : nat) (l : leaf)
    (fuel : nat) :
  nodes g !! n = Some (NLeaf l) →
  symbols_recurse (S fuel) g n
  = match obj_symbols (NLeaf l) with
    | Raise AttributeError => Ok ∅
    | r => r
    end.
Proof. intros Hn. simpl. by rewrite Hn, is_op_leaf. Qed.

Lemma _get_shape_of_op (g : ExpressionGraph) (n : nat) (f : func)
    (cs : list nat) (fuel : nat) :
  nodes g !! n = Some (NFunc f) → dict_get (edges g) n = Some cs →
  _get_shape_of (S fuel) g n
  = mapM (_get_shape_of fuel g) cs ≫= infer_shape f.
Proof. intros Hn He. simpl. by rewrite Hn, He. Qed.

Lemma _get_shape_of_leaf (g : ExpressionGraph) (n : nat) (l : leaf)
    (fuel : nat) :
  nodes g !! n = Some (NLeaf l) → dict_get (edges g) n = None →
  _get_shape_of (S fuel) g n
  = match obj_shape (NLeaf l) with
    | Raise AttributeError =>
        if is_number (NLeaf l) then Ok scalar_shape
        else Raise NotImplementedError
    | r => r
    end.
Proof. intros Hn He. simpl. by rewrite Hn, He. Qed.

Lemma constructed_built (self : ExpressionGraph) (op : func) (args : list arg)
    (g : ExpressionGraph) :
  constructed self op args g → built g.
Proof.
  intros (Hne & Hnf & Hgs & [[Hg Hns]|[Hg Hb]]).
  - by eapply built_init.
  - by eapply built_push_op.
Qed.

(** The shape of a constructed graph: the head is the operator, and its edge
    list holds, in order, the arguments as the trees they stood for. *)
Lemma constructed_spec (self : ExpressionGraph) (op : func) (args : list arg)
    (g : ExpressionGraph) :
  constructed self op args g →
  ∃ idxs, nodes g !! head g = Some (NFunc op)
          ∧ dict_get (edges g) (head g) = Some idxs
          ∧ Forall2 (arg_at self g) args idxs.
Proof.
  intros (Hne & Hnf & Hgs & Hg).
  assert (∀ g', AGraph g' ∈ args →
                graph_inv g' None ∧ head g' < length (nodes g')) as Hinv.
  { intros g' Hg'. by apply built_inv, Hgs. }
  destruct Hg as [[Hg Hns]|[Hg Hb]].
  - unfold ExpressionGraph_init in Hg. rewrite add_or_get_value_func in Hg.
    destruct (add_or_get_nodes _ args) as [[self1 idxs]| |] eqn:Ha;
      simpl in Hg; try done.
    injection Hg as <-.
    destruct (append_op_inv _ op empty_graph_inv) as [Hinv0 _].
    destruct (add_or_get_nodes_inv args _ self1 idxs _ Hinv0 Hnf Hinv) as
      (Hinv1 & Hext1 & _ & Hlen & Hgr); [done|exact Ha|].
    pose proof (add_or_get_nodes_same_tree self args _ self1 idxs _
                  Hinv0 Hnf Hinv) as Hat.
    simpl in *. exists idxs.
    apply (finish_spec self self1 args idxs 0 op); try done.
    + by apply (extends_lookup _ _ _ _ Hext1).
    + intros ->. by destruct args.
    + by apply Hat.
  - destruct (built_inv _ Hb) as [Hinvs Hheads].
    unfold push_op in Hg. rewrite add_or_get_value_func in Hg.
    destruct (add_or_get_nodes _ args) as [[self1 idxs]| |] eqn:Ha;
      simpl in Hg; try done.
    injection Hg as <-.
    destruct (append_op_inv _ op Hinvs) as [Hinv0 Hext0].
    assert (grounded self (head self)) as Hgs0
      by (by apply graph_inv_grounded).
    destruct (add_or_get_nodes_inv args _ self1 idxs _ Hinv0 Hnf Hinv) as
      (Hinv1 & Hext1 & _ & Hlen & Hgr); [|exact Ha|].
    { intros _. simpl. by eapply grounded_extends. }
    pose proof (add_or_get_nodes_same_tree self args _ self1 idxs _
                  Hinv0 Hnf Hinv) as Hat.
    simpl in *. exists idxs.
    apply (finish_spec self self1 args idxs (length (nodes self)) op);
      try done.
    + apply (extends_lookup _ _ _ _ Hext1). simpl.
      by rewrite lookup_app_r, Nat.sub_diag.
    + intros ->. by destruct args.
    + apply Hat; [|done]. intros _. split_and!; try done.
      by eapply graph_inv_keys_are_ops.
Qed.

End Sim2.

(** X7. Evaluation is compositional: the value of a constructed graph under
    bindings is the operator applied to the values of the arguments under the
    same bindings, a graph argument by [call], a leaf by its binding or
    itself; the first error among the arguments is the error of the graph. *)
Theorem call_constructed {V} `{PyValues V} (self : ExpressionGraph)
    (op : func) (args : list arg) (g : ExpressionGraph)
    (values : gmap leaf V) (fuel : nat) :
  constructed self op args g →
  call (S (S fuel)) g values
  = mapM (arg_call (S fuel) self values) args ≫= apply_func op.
Proof.
  intros (idxs & Hhead & Hedges & Hargs)%constructed_spec.
  unfold call. rewrite (call_recurse_op g values _ op idxs) by done.
  f_equal. apply mapM_result_Forall2.
  eapply Forall2_flip, Forall2_impl; [done|]. clear.
  intros [|other|[f|l]] i; cbn [arg_at arg_call]; try done.
  - intros Hs. symmetry. by apply same_tree_call.
  - intros Hs. symmetry. by apply same_tree_call.
  - intros [Hl _]. by rewrite (call_recurse_leaf g values i l).
Qed.

(** X8. The symbols of a constructed graph are the union of the symbols of
    its arguments, less the time variable when the operator is
    [evaluate_signal]. *)
Theorem symbols_constructed (self : ExpressionGraph) (op : func)
    (args : list arg) (g : ExpressionGraph) (fuel : nat) :
  constructed self op args g →
  symbols (S (S fuel)) g
  = (sets ← mapM (arg_symbols (S fuel) self) args;
     child_symbols ← set_union sets;
     if bool_decide (op = evaluate_signal)
     then Ok (child_symbols ∖ {[ LVariable get_time_variable ]})
     else Ok child_symbols).
Proof.
  intros (idxs & Hhead & Hedges & Hargs)%constructed_spec.
  unfold symbols. rewrite (symbols_recurse_op g _ op idxs) by done.
  assert (mapM (symbols_recurse (S fuel) g) idxs
          = mapM (arg_symbols (S fuel) self) args) as ->; [|done].
  { apply mapM_result_Forall2.
    eapply Forall2_flip, Forall2_impl; [done|]. clear.
    intros [|other|[f|l]] i; cbn [arg_at arg_symbols]; try done.
    - intros Hs. symmetry. by apply same_tree_symbols.
    - intros Hs. symmetry. by apply same_tree_symbols.
    - intros [Hl _]. by rewrite (symbols_recurse_leaf g i l). }
Qed.

(** X9. The shape of a constructed graph is the shape rule of the operator
    applied to the shapes of the arguments. *)
Theorem shape_constructed (self : ExpressionGraph) (op : func)
    (args : list arg) (g : ExpressionGraph) (fuel : nat) :
  constructed self op args g →
  ExpressionGraph_shape (S (S fuel)) g
  = mapM (arg_shape (S fuel) self) args ≫= infer_shape op.
Proof.
  intros (idxs & Hhead & Hedges & Hargs)%constructed_spec.
  unfold ExpressionGraph_shape.
  rewrite (_get_shape_of_op g _ op idxs) by done.
  f_equal. apply mapM_result_Forall2.
  eapply Forall2_flip, Forall2_impl; [done|]. clear.
  intros [|other|[f|l]] i; cbn [arg_at arg_shape]; try done.
  - intros Hs. symmetry. by apply same_tree_shape.
  - intros Hs. symmetry. by apply same_tree_shape.
  - intros [Hl He]. by rewrite (_get_shape_of_leaf g i l).
Qed.

Section More.
Local Open Scope nat_scope.

Lemma temporal_leaf (l : leaf) :
  negb (is_temporal_obj (NLeaf l))
  = bool_decide (LVariable get_time_variable ∉ own_symbols l).
Proof.
  destruct l as [v|p|s|z]; simpl.
  - destruct (decide (v = get_time_variable)) as [->|Hv].
    + rewrite bool_decide_eq_true_2 by done. simpl.
      rewrite bool_decide_eq_false_2; [done|].
      intros Hn. apply Hn. by apply elem_of_singleton.
    + rewrite bool_decide_eq_false_2 by congruence. simpl.
      rewrite bool_decide_eq_true_2; [done|].
      rewrite elem_of_singleton. congruence.
  - rewrite bool_decide_eq_true_2; [done|].
    rewrite elem_of_singleton. congruence.
  - rewrite bool_decide_eq_false_2; [done|].
    intros Hn. apply Hn. apply elem_of_union_r, elem_of_singleton. done.
  - rewrite bool_decide_eq_true_2; [done|]. apply not_elem_of_empty.
Qed.

Lemma children_symbols_constant (g : ExpressionGraph) (cs : list nat)
    (P : gset leaf → bool) :
  (∀ c, c ∈ cs →
     ∃ N s, ∀ fuel, N ≤ fuel →
       symbols_recurse fuel g c = Ok s
       ∧ _is_subtree_constant fuel g c = Ok (P s)) →
  ∃ N sets, length sets = length cs ∧
    ∀ fuel, N ≤ fuel →
      mapM (symbols_recurse fuel g) cs = Ok sets
      ∧ all_of (_is_subtree_constant fuel g) cs = Ok (forallb P sets).
Proof.
  induction cs as [|c cs IH]; intros Hall.
  - exists 0, []. done.
  - destruct (Hall c) as (N1 & s & Hs); [by left|].
    destruct IH as (N2 & sets & Hlen & Hsets);
      [intros c' Hc'; apply Hall; by right|].
    exists (N1 `max` N2), (s :: sets). split; [simpl; by rewrite Hlen|].
    intros fuel Hfuel.
    destruct (Hs fuel) as [Hs1 Hs2]; [lia|].
    destruct (Hsets fuel) as [Hm1 Hm2]; [lia|].
    simpl. rewrite Hs1, Hs2. simpl. rewrite Hm1, Hm2. simpl.
    by destruct (P s).
Qed.

Lemma forallb_not_in_union (x : leaf) (sets : list (gset leaf)) :
  forallb (λ s : gset leaf, bool_decide (x ∉ s)) sets
  = bool_decide (x ∉ ⋃ sets).
Proof.
  induction sets as [|s sets IH]; simpl.
  - rewrite bool_decide_eq_true_2; [done|]. apply not_elem_of_empty.
  - rewrite IH.
    repeat case_bool_decide; simpl; try done; exfalso; set_unfold; tauto.
Qed.

Lemma temporal_symbols_grounded (g : ExpressionGraph) (n : nat) :
  grounded g n →
  ∃ N s, ∀ fuel, N ≤ fuel →
    symbols_recurse fuel g n = Ok s
    ∧ _is_subtree_constant fuel g n
      = Ok (bool_decide (LVariable get_time_variable ∉ s)).
Proof.
  induction 1 as [n l Hn|n f children Hn He Hne _ IH].
  - exists 1, (own_symbols l). intros [|fuel] Hfuel; [lia|].
    simpl. rewrite Hn, is_op_leaf. simpl. split; [apply leaf_node_symbols|].
    f_equal. apply (temporal_leaf l).
  - destruct (children_symbols_constant g children
                (λ s, bool_decide (LVariable get_time_variable ∉ s)) IH)
      as (N & sets & Hlen & Hsets).
    destruct sets as [|s0 rest]; [by destruct children|].
    exists (S N).
    exists (if bool_decide (f = evaluate_signal)
            then (s0 ∪ ⋃ rest) ∖ {[ LVariable get_time_variable ]}
            else s0 ∪ ⋃ rest).
    intros [|fuel] Hfuel; [lia|].
    destruct (Hsets fuel) as [Hm1 Hm2]; [lia|].
    simpl. rewrite Hn, is_op_func. simpl. rewrite He, Hm1, Hm2. simpl.
    destruct (decide (f = evaluate_signal)) as [->|Hf].
    + rewrite !bool_decide_eq_true_2 by done. split; [done|].
      f_equal. symmetry. apply bool_decide_eq_true_2.
      rewrite elem_of_difference, elem_of_singleton. tauto.
    + rewrite !(bool_decide_eq_false_2 (NFunc f = _)) by congruence.
      rewrite (bool_decide_eq_false_2 (f = _)) by done. split; [done|].
      f_equal. apply (forallb_not_in_union _ (s0 :: rest)).
Qed.

Lemma call_recurse_frame {V} `{PyValues V} (g : ExpressionGraph)
    (values values' : gmap leaf V) :
  (∀ l, NLeaf l ∈ nodes g → values !! l = values' !! l) →
  ∀ fuel n, call_recurse fuel g values n = call_recurse fuel g values' n.
Proof.
  intros Hagree. induction fuel as [|fuel IH]; intros n; [done|].
  simpl. destruct (nodes g !! n) as [[f|l]|] eqn:Hn; [| |done].
  - destruct (is_op (NFunc f)); [|done].
    destruct (dict_get (edges g) n) as [cs|]; [|done].
    f_equal. apply mapM_result_Forall2. apply Forall2_same_length_lookup.
    split; [done|]. intros k c1 c2 H1 H2. assert (c1 = c2) as -> by congruence.
    apply IH.
  - rewrite is_op_leaf. simpl. rewrite Hagree; [done|].
    by eapply list_elem_of_lookup_2.
Qed.

Lemma add_or_get_value_unique (self self' : ExpressionGraph) (v : node)
    (idx : nat) :
  leaves_unique (nodes self) →
  add_or_get_value self v = (self', idx) →
  leaves_unique (nodes self').
Proof.
  intros Hu. unfold add_or_get_value, append_node.
  assert (v ∉ nodes self ∨ (∃ f, v = NFunc f) →
          leaves_unique (nodes self ++ [v])) as Happ.
  { intros Hv i j l Hi Hj.
    apply lookup_app_Some in Hi as [Hi|[Hige Hi]];
      apply lookup_app_Some in Hj as [Hj|[Hjge Hj]].
    - by eapply Hu.
    - destruct (j - length (nodes self)) as [|?]; [|done].
      injection Hj as ->. destruct Hv as [Hv|[f Hv]]; [|done].
      exfalso. apply Hv. by eapply list_elem_of_lookup_2.
    - destruct (i - length (nodes self)) as [|?]; [|done].
      injection Hi as ->. destruct Hv as [Hv|[f Hv]]; [|done].
      exfalso. apply Hv. by eapply list_elem_of_lookup_2.
    - destruct (i - length (nodes self)) as [|?] eqn:Hie; [|done].
      destruct (j - length (nodes self)) as [|?] eqn:Hje; [|done]. lia. }
  destruct (is_op v) eqn:Hop.
  - intros [= <- <-]. simpl. apply Happ. right. by apply is_op_true.
  - destruct (nodes_index (nodes self) v) as [i|] eqn:Hi.
    + by intros [= <- <-].
    + intros [= <- <-]. simpl. apply Happ. left. by apply nodes_index_None.
Qed.

Lemma merge_nodes_unique (ns : list node) :
  ∀ (self self' : ExpressionGraph) (idxs : list nat),
    leaves_unique (nodes self) →
    merge_nodes self ns = (self', idxs) →
    leaves_unique (nodes self').
Proof.
  induction ns as [|n ns IH]; intros self self' idxs Hu Hm; simpl in Hm.
  - by injection Hm as <- <-.
  - destruct (add_or_get_value self n) as [self1 idx] eqn:Ha.
    destruct (merge_nodes self1 ns) as [self2 indices] eqn:Hm2.
    injection Hm as <- <-.
    eapply IH; [|done]. by eapply add_or_get_value_unique.
Qed.

Lemma add_or_get_node_unique (self self' : ExpressionGraph) (a : arg)
    (idx : nat) :
  leaves_unique (nodes self) →
  add_or_get_node self a = Ok (self', idx) →
  leaves_unique (nodes self').
Proof.
  intros Hu. destruct a as [|other|v]; simpl.
  - by intros [= <- <-].
  - unfold merge_and_return_subgraph_head.
    destruct (merge_nodes self (nodes other)) as [self1 idxs] eqn:Hm.
    destruct (mapM _ (edges other)) as [remapped| |]; simpl; try done.
    destruct (new_index idxs (head other)) as [h'| |]; simpl; try done.
    intros [= <- <-]. simpl. by eapply merge_nodes_unique.
  - intros [= Ha]. by eapply add_or_get_value_unique.
Qed.

Lemma add_or_get_nodes_unique (args : list arg) :
  ∀ (self self' : ExpressionGraph) (idxs : list nat),
    leaves_unique (nodes self) →
    add_or_get_nodes self args = Ok (self', idxs) →
    leaves_unique (nodes self').
Proof.
  induction args as [|a args IH]; intros self self' idxs Hu Ha; simpl in Ha.
  - by injection Ha as <- <-.
  - destruct (add_or_get_node self a) as [[self1 idx]| |] eqn:H1;
      simpl in Ha; try done.
    destruct (add_or_get_nodes self1 args) as [[self2 indices]| |] eqn:H2;
      simpl in Ha; try done.
    injection Ha as <- <-.
    eapply IH; [|done]. by eapply add_or_get_node_unique.
Qed.

Lemma _is_subtree_constant_op (g : ExpressionGraph) (n : nat) (f : func)
    (cs : list nat) (fuel : nat) :
  nodes g !! n = Some (NFunc f) → dict_get (edges g) n = Some cs →
  _is_subtree_constant (S fuel) g n
  = if bool_decide (f = evaluate_signal) then Ok true
    else all_of (_is_subtree_constant fuel g) cs.
Proof.
  intros Hn He. simpl. rewrite Hn, is_op_func, He. simpl.
  destruct (decide (f = evaluate_signal)) as [->|Hne].
  - by rewrite !bool_decide_eq_true_2.
  - by rewrite !bool_decide_eq_false_2 by congruence.
Qed.

Lemma _is_subtree_constant_leaf (g : ExpressionGraph) (n : nat) (l : leaf)
    (fuel : nat) :
  nodes g !! n = Some (NLeaf l) →
  _is_subtree_constant (S fuel) g n = Ok (negb (is_temporal_obj (NLeaf l))).
Proof. intros Hn. simpl. by rewrite Hn, is_op_leaf. Qed.

End More.

(** X10. An expression graph is temporal exactly when the time variable is
    among its symbols: on a grounded graph both [symbols()] and
    [is_temporal] return, and [is_temporal] is [True] if and only if the
    set holds the time variable. *)
Theorem is_temporal_time_symbol (g : ExpressionGraph) :
  grounded g (head g) →
  ∃ (N : nat) (s : gset leaf),
    ∀ fuel, (N ≤ fuel)%nat →
      symbols fuel g = Ok s
      ∧ is_temporal fuel (SymGraph g)
        = Ok (bool_decide (LVariable get_time_variable ∈ s)).
Proof.
  intros Hg.
  destruct (temporal_symbols_grounded g (head g) Hg) as (N & s & Hs).
  exists N, s. intros fuel Hfuel. destruct (Hs fuel Hfuel) as [H1 H2].
  split; [done|]. unfold is_temporal. rewrite H2. simpl. f_equal.
  by rewrite bool_decide_not, negb_involutive.
Qed.

Lemma is_temporal_time_symbol_witness :
  ∃ (N : nat) (s : gset leaf),
    ∀ fuel, (N ≤ fuel)%nat →
      symbols fuel (expression_graph ex_var ex_sig ex_param) = Ok s
      ∧ is_temporal fuel (SymGraph (expression_graph ex_var ex_sig ex_param))
        = Ok (bool_decide (LVariable get_time_variable ∈ s)).
Proof.
  exact (is_temporal_time_symbol (expression_graph ex_var ex_sig ex_param)
           (built_grounded _ (expression_graph_built ex_var ex_sig ex_param))).
Defined.

(** X11. [is_temporal] is compositional: a graph whose operator is
    [evaluate_signal] is not temporal, whatever its arguments; any other
    constructed graph is temporal exactly when one of its arguments is. *)
Theorem is_temporal_constructed (self : ExpressionGraph) (op : func)
    (args : list arg) (g : ExpressionGraph) (fuel : nat) (bs : list bool) :
  constructed self op args g →
  mapM (λ a, is_temporal (S fuel) (arg_symbol self a)) args = Ok bs →
  is_temporal (S (S fuel)) (SymGraph g)
  = Ok (if bool_decide (op = evaluate_signal) then false
        else existsb id bs).
Proof.
  intros (idxs & Hhead & Hedges & Hargs)%constructed_spec Hbs.
  unfold is_temporal.
  rewrite (_is_subtree_constant_op g _ op idxs) by done.
  case_bool_decide as Hop; [done|].
  assert (all_of (_is_subtree_constant (S fuel) g) idxs
          = Ok (forallb negb bs)) as ->.
  { apply mapM_result_Ok in Hbs. clear Hhead Hedges.
    revert idxs Hargs.
    induction Hbs as [|a b args bs Hab _ IH]; intros idxs Hargs.
    - by apply Forall2_nil_inv_l in Hargs as ->.
    - apply Forall2_cons_inv_l in Hargs as (i & idxs' & Hi & Hargs & ->).
      cbn [all_of].
      assert (_is_subtree_constant (S fuel) g i = Ok (negb b)) as ->.
      { destruct a as [|other|[f|l]]; cbn [arg_at arg_symbol] in *.
        - rewrite <- (same_tree_constant _ _ _ _ Hi).
          unfold is_temporal in Hab.
          destruct (_is_subtree_constant (S fuel) self (head self));
            simpl in Hab; try done.
          injection Hab as <-. by rewrite negb_involutive.
        - rewrite <- (same_tree_constant _ _ _ _ Hi).
          unfold is_temporal in Hab.
          destruct (_is_subtree_constant (S fuel) other (head other));
            simpl in Hab; try done.
          injection Hab as <-. by rewrite negb_involutive.
        - done.
        - destruct Hi as [Hl _].
          rewrite (_is_subtree_constant_leaf g i l) by done.
          unfold is_temporal in Hab. by injection Hab as <-. }
      rewrite (IH _ Hargs). by destruct b. }
  simpl. f_equal. clear. induction bs as [|[] bs IH]; simpl; try done.
Qed.

(** X12. Evaluation reads the bindings of the leaves stored in the graph and
    nothing else: two binding maps that agree on those leaves give the same
    result. *)
Theorem call_frame {V} `{PyValues V} (fuel : nat) (g : ExpressionGraph)
    (values values' : gmap leaf V) :
  (∀ l, NLeaf l ∈ nodes g → values !! l = values' !! l) →
  call fuel g values = call fuel g values'.
Proof. intros Hagree. by apply call_recurse_frame. Qed.

(** X13. In every graph the engine builds, a leaf is stored once: no two
    indices of the node list hold the same leaf. *)
Theorem built_leaves_unique (g : ExpressionGraph) :
  built g → leaves_unique (nodes g).
Proof.
  induction 1 as [op args g Hne Hself Hnf _ IH Hg
                 |self op args g _ IHself Hne Hnf _ IH Hg].
  - unfold ExpressionGraph_init in Hg. rewrite add_or_get_value_func in Hg.
    destruct (add_or_get_nodes _ args) as [[self1 idxs]| |] eqn:Ha;
      simpl in Hg; try done.
    injection Hg as <-. simpl.
    eapply add_or_get_nodes_unique; [|done]. simpl.
    intros [|i] [|j] l Hi Hj; simpl in *; done.
  - unfold push_op in Hg. rewrite add_or_get_value_func in Hg.
    destruct (add_or_get_nodes _ args) as [[self1 idxs]| |] eqn:Ha;
      simpl in Hg; try done.
    injection Hg as <-. simpl.
    eapply add_or_get_nodes_unique; [|done]. simpl.
    intros i j l Hi Hj.
    apply lookup_app_Some in Hi as [Hi|[Hige Hi]];
      apply lookup_app_Some in Hj as [Hj|[Hjge Hj]].
    + by eapply IHself.
    + by apply list_lookup_singleton_Some in Hj as [_ Hj].
    + by apply list_lookup_singleton_Some in Hi as [_ Hi].
    + by apply list_lookup_singleton_Some in Hi as [_ Hi].
Qed.

(** ** The constructed example *)

Lemma ex_graph_built : built ex_graph.
Proof.
  apply (built_init add [AValue (NLeaf (LVariable ex_a));
                         AValue (NLeaf (LVariable ex_b))]);
    [done| | | |reflexivity].
  - intros H. arg_cases H.
  - intros f H. arg_cases H.
  - intros g' H. arg_cases H.
Qed.

Lemma ex_product_constructed :
  constructed ex_graph mul [ASelf; AValue (NLeaf (LInt 2))] ex_product.
Proof.
  split; [done|]. split; [intros f H; arg_cases H|].
  split; [intros g' H; arg_cases H|].
  right. split; [reflexivity|apply ex_graph_built].
Qed.

Lemma ex_graph_args_built (g' : ExpressionGraph) :
  AGraph g' ∈ [AGraph ex_graph] → built g'.
Proof.
  intros H. apply list_elem_of_singleton in H. injection H as ->.
  apply ex_graph_built.
Qed.

Lemma built_returns_witness :
  ∃ g, ExpressionGraph_init neg [AGraph ex_graph] = Ok g.
Proof.
  exact (proj1 (built_returns neg [AGraph ex_graph] ex_graph_args_built)).
Defined.

Lemma built_leaves_unique_witness : leaves_unique (nodes ex_product).
Proof.
  exact (built_leaves_unique ex_product
           (constructed_built _ _ _ _ ex_product_constructed)).
Defined.

Lemma call_constructed_witness :
  call 3 ex_product (∅ : gmap leaf pyval)
  = mapM (arg_call 2 ex_graph ∅) [ASelf; AValue (NLeaf (LInt 2))]
    ≫= apply_func mul.
Proof.
  exact (call_constructed ex_graph mul _ ex_product ∅ 1
           ex_product_constructed).
Defined.

Lemma symbols_constructed_witness :
  symbols 3 ex_product
  = (sets ← mapM (arg_symbols 2 ex_graph) [ASelf; AValue (NLeaf (LInt 2))];
     child_symbols ← set_union sets;
     if bool_decide (mul = evaluate_signal)
     then Ok (child_symbols ∖ {[ LVariable get_time_variable ]})
     else Ok child_symbols).
Proof.
  exact (symbols_constructed ex_graph mul _ ex_product 1
           ex_product_constructed).
Defined.

Lemma shape_constructed_witness :
  ExpressionGraph_shape 3 ex_product
  = mapM (arg_shape 2 ex_graph) [ASelf; AValue (NLeaf (LInt 2))]
    ≫= infer_shape mul.
Proof.
  exact (shape_constructed ex_graph mul _ ex_product 1
           ex_product_constructed).
Defined.

Lemma is_temporal_constructed_witness :
  is_temporal 3 (SymGraph ex_product)
  = Ok (if bool_decide (mul = evaluate_signal) then false
        else existsb id [false; false]).
Proof.
  exact (is_temporal_constructed ex_graph mul _ ex_product 1 [false; false]
           ex_product_constructed eq_refl).
Defined.

Lemma ex_graph_bindings_agree (l : leaf) :
  NLeaf l ∈ nodes ex_graph →
  (∅ : gmap leaf pyval) !! l
  = (<[LVariable ex_var := PInt 7]> ∅ : gmap leaf pyval) !! l.
Proof.
  intros H. rewrite lookup_insert_ne; [done|]. intros <-.
  simpl in H. arg_cases H.
Qed.

Lemma call_frame_witness :
  call 2 ex_graph (∅ : gmap leaf pyval)
  = call 2 ex_graph (<[LVariable ex_var := PInt 7]> ∅).
Proof.
  exact (call_frame 2 ex_graph ∅ (<[LVariable ex_var := PInt 7]> ∅)
           ex_graph_bindings_agree).
Defined.

(** ** Numbers as operands *)

Lemma infer_scalar_shape_with_scalar (s : shape) :
  infer_scalar_shape [s; scalar_shape] = Ok s
  ∧ infer_scalar_shape [scalar_shape; s] = Ok s.
Proof.
  split; simpl.
  - case_bool_decide as H1; [done|]. exfalso. apply H1. by right.
  - case_bool_decide as H1; [|done]. by destruct H1 as [-> | ->].
Qed.

(** X23. A number as the other operand is neutral: for [g ** z], [g + z],
    [z + g], [g - z], [z - g], [g * z], [z * g], [g / z] and [z / g] with a
    built graph [g] and an integer [z], the result has the shape, the symbols
    and the temporal status that [g] had. *)
Theorem number_operand_neutral (self g : ExpressionGraph) (op : func)
    (z : Z) (args : list arg) (fuel : nat) :
  built self →
  op ∈ [power; add; sub; mul; div] →
  args = [ASelf; AValue (NLeaf (LInt z))]
  ∨ args = [AValue (NLeaf (LInt z)); ASelf] →
  push_op self op args = Ok g →
  (∀ s, ExpressionGraph_shape (S fuel) self = Ok s →
        ExpressionGraph_shape (S (S fuel)) g = Ok s)
  ∧ (∀ syms, symbols (S fuel) self = Ok syms →
             symbols (S (S fuel)) g = Ok syms)
  ∧ (∀ b, is_temporal (S fuel) (SymGraph self) = Ok b →
          is_temporal (S (S fuel)) (SymGraph g) = Ok b).
Proof.
  intros Hb Hop Hargs Hg.
  assert (constructed self op args g) as Hc.
  { split; [by destruct Hargs as [->| ->]|].
    split; [intros f H; destruct Hargs as [->| ->]; arg_cases H|].
    split; [intros g' H; destruct Hargs as [->| ->]; arg_cases H|].
    by right. }
  apply constructed_spec in Hc as (idxs & Hhead & Hedges & Hat).
  assert (infer_shape op = infer_scalar_shape ∧ op ≠ evaluate_signal)
    as [Hrule Hne].
  { rewrite !elem_of_cons, elem_of_nil in Hop.
    destruct Hop as [->|[->|[->|[->|[->|[]]]]]]; by split. }
  assert (∃ i j, ((idxs = [i; j] ∧ args = [ASelf; AValue (NLeaf (LInt z))])
                  ∨ (idxs = [j; i] ∧ args = [AValue (NLeaf (LInt z)); ASelf]))
                 ∧ same_tree self g (head self) i
                 ∧ nodes g !! j = Some (NLeaf (LInt z))
                 ∧ dict_get (edges g) j = None)
    as (i & j & Hidxs & Hi & Hj & Hje).
  { destruct Hargs as [->| ->].
    - apply Forall2_cons_inv_l in Hat as (i & r & Hi & Hat & ->).
      apply Forall2_cons_inv_l in Hat as (j & r' & [Hj Hje] & Hat & ->).
      apply Forall2_nil_inv_l in Hat as ->. exists i, j. split; [by left|done].
    - apply Forall2_cons_inv_l in Hat as (j & r & [Hj Hje] & Hat & ->).
      apply Forall2_cons_inv_l in Hat as (i & r' & Hi & Hat & ->).
      apply Forall2_nil_inv_l in Hat as ->. exists i, j. split; [by right|done]. }
  split_and!.
  - intros s Hs. unfold ExpressionGraph_shape in *.
    rewrite (_get_shape_of_op g _ op idxs) by done.
    pose proof (same_tree_shape _ _ _ _ Hi (S fuel)) as Hsi.
    assert (_get_shape_of (S fuel) g j = Ok scalar_shape) as Hsj
      by (by rewrite (_get_shape_of_leaf g j (LInt z))).
    rewrite Hrule.
    destruct Hidxs as [[-> _]|[-> _]]; rewrite !mapM_result_cons;
      rewrite <- Hsi, Hs, Hsj; apply infer_scalar_shape_with_scalar.
  - intros syms Hs. unfold symbols in *.
    rewrite (symbols_recurse_op g _ op idxs) by done.
    pose proof (same_tree_symbols _ _ _ _ Hi (S fuel)) as Hsi.
    assert (symbols_recurse (S fuel) g j = Ok ∅) as Hsj
      by (by rewrite (symbols_recurse_leaf g j (LInt z))).
    rewrite bool_decide_eq_false_2 by done.
    destruct Hidxs as [[-> _]|[-> _]]; rewrite !mapM_result_cons;
      rewrite <- Hsi, Hs, Hsj; simpl; f_equal.
    + by rewrite union_empty_l_L, union_empty_r_L.
    + by rewrite union_empty_l_L, union_empty_r_L.
  - intros b Hs. unfold is_temporal in *.
    rewrite (_is_subtree_constant_op g _ op idxs) by done.
    rewrite bool_decide_eq_false_2 by done.
    pose proof (same_tree_constant _ _ _ _ Hi (S fuel)) as Hsi.
    assert (_is_subtree_constant (S fuel) g j = Ok true) as Hsj
      by (by rewrite (_is_subtree_constant_leaf g j (LInt z))).
    destruct (_is_subtree_constant (S fuel) self (head self)) as [c| |] eqn:Hcs;
      simpl in Hs; try done.
    injection Hs as <-.
    destruct Hidxs as [[-> _]|[-> _]]; cbn [all_of];
      rewrite <- Hsi, Hsj; by destruct c.
Qed.

Lemma number_operand_neutral_witness :
  ExpressionGraph_shape 3 ex_product = Ok [1].
Proof.
  exact (proj1 (number_operand_neutral ex_graph ex_product mul 2
                  [ASelf; AValue (NLeaf (LInt 2))] 1
                  ex_graph_built (list_elem_of_lookup_2 [power; add; sub; mul; div] 3%nat mul eq_refl)
                  (or_introl eq_refl) eq_refl) [1] eq_refl).
Defined.

(** ** Registration of converters *)

Section CastFacts2.
Context {T : Type} `{Countable T} {V : Type}.
Variable type_of : V → T.

Lemma register_Ok_lookup (reg reg' : @registry T _ _ V)
    (from_type to_type : T) (the_caster : @caster V) :
  register from_type to_type the_caster reg = Ok reg' →
  (reg !! from_type ≫= λ casters : gmap T caster, casters !! to_type) = None
  ∧ ∀ f t,
      (reg' !! f ≫= λ casters : gmap T caster, casters !! t)
      = if bool_decide ((f, t) = (from_type, to_type)) then Some the_caster
        else reg !! f ≫= λ casters : gmap T caster, casters !! t.
Proof.
  intros Hreg. unfold register in Hreg. unfold registry in *.
  destruct (reg !! from_type) as [old|] eqn:Hold; simpl.
  - destruct (bool_decide (is_Some (old !! to_type))) eqn:Hdup;
      simpl in Hreg; [done|].
    apply bool_decide_eq_false in Hdup.
    rewrite <- eq_None_not_Some in Hdup.
    injection Hreg as <-. split; [done|]. intros f t.
    destruct (decide (f = from_type)) as [->|Hf].
    + rewrite lookup_insert_eq. simpl.
      destruct (decide (t = to_type)) as [->|Ht].
      * by rewrite lookup_insert_eq, bool_decide_eq_true_2.
      * rewrite lookup_insert_ne by done.
        rewrite bool_decide_eq_false_2 by congruence. by rewrite Hold.
    + rewrite lookup_insert_ne by done.
      by rewrite bool_decide_eq_false_2 by congruence.
  - injection Hreg as <-. split; [done|]. intros f t.
    destruct (decide (f = from_type)) as [->|Hf].
    + rewrite lookup_insert_eq. simpl.
      destruct (decide (t = to_type)) as [->|Ht].
      * by rewrite lookup_insert_eq, bool_decide_eq_true_2.
      * rewrite lookup_insert_ne by done.
        rewrite bool_decide_eq_false_2 by congruence.
        by rewrite Hold, lookup_empty.
    + rewrite lookup_insert_ne by done.
      by rewrite bool_decide_eq_false_2 by congruence.
Qed.

(** X14. After [register(from_type, to_type)(the_caster)] returns, a cast of
    a value of [from_type] with target [to_type] is [the_caster] applied to
    the value, also through [cast_like]; every other targeted cast is as
    before the registration. *)
Theorem cast_type_registered (reg reg' : @registry T _ _ V)
    (from_type to_type : T) (the_caster : @caster V) :
  register from_type to_type the_caster reg = Ok reg' →
  (∀ var, type_of var = from_type →
      cast_type type_of reg' var (Some to_type) = the_caster var)
  ∧ (∀ var var_like,
      type_of var = from_type → type_of var_like = to_type →
      cast_like type_of reg' var var_like = the_caster var)
  ∧ (∀ var t,
      (type_of var, t) ≠ (from_type, to_type) →
      cast_type type_of reg' var (Some t) = cast_type type_of reg var (Some t)).
Proof.
  intros Hreg. apply register_Ok_lookup in Hreg as [_ Hlook].
  unfold registry in *. split_and!.
  - intros var <-. unfold cast_type. rewrite Hlook.
    by rewrite bool_decide_eq_true_2.
  - intros var var_like <- <-. unfold cast_like, cast_type. rewrite Hlook.
    by rewrite bool_decide_eq_true_2.
  - intros var t Hne. unfold cast_type. rewrite Hlook.
    by rewrite bool_decide_eq_false_2.
Qed.

(** X15. [register] raises (the assertion) exactly when a converter for the
    same pair of types is already registered; so a pair registered once
    cannot be registered again, and the first converter stays. *)
Theorem register_duplicate (reg : @registry T _ _ V)
    (from_type to_type : T) (the_caster : @caster V) :
  (register from_type to_type the_caster reg = Raise AssertionError ↔
   is_Some (reg !! from_type ≫= λ casters : gmap T caster,
                                   casters !! to_type))
  ∧ ((reg !! from_type ≫= λ casters : gmap T caster, casters !! to_type)
      = None →
     ∃ reg', register from_type to_type the_caster reg = Ok reg'
       ∧ ∀ another : @caster V,
           register from_type to_type another reg' = Raise AssertionError).
Proof.
  assert (∀ (r : @registry T _ _ V) c,
    register from_type to_type c r = Raise AssertionError ↔
    is_Some (r !! from_type ≫= λ casters : gmap T caster,
                                  casters !! to_type)) as Hiff.
  { intros r c. unfold register. unfold registry in *.
    destruct (r !! from_type) as [old|]; simpl.
    - case_bool_decide; split; done.
    - split; [done|]. by intros ?%is_Some_None. }
  split; [apply Hiff|].
  intros Hnone.
  destruct (register from_type to_type the_caster reg) as [reg'|e|] eqn:Hreg.
  - exists reg'. split; [done|]. intros another. apply Hiff.
    apply register_Ok_lookup in Hreg as [_ Hlook]. unfold registry in *.
    rewrite Hlook, bool_decide_eq_true_2 by done. eauto.
  - exfalso. unfold register in Hreg. unfold registry in *.
    destruct (reg !! from_type) as [old|]; simpl in *; [|done].
    rewrite Hnone in Hreg. by rewrite bool_decide_eq_false_2 in Hreg
      by (by intros ?%is_Some_None).
  - exfalso. unfold register in Hreg. unfold registry in *.
    destruct (reg !! from_type) as [old|]; simpl in *; [|done].
    by case_bool_decide.
Qed.

(** X16. Registering a second converter from the same source type makes every
    cast from that type without a target raise the ambiguity error. *)
Theorem cast_type_second_converter (reg reg1 reg2 : @registry T _ _ V)
    (from_type to1 to2 : T) (c1 c2 : @caster V) (var : V) :
  register from_type to1 c1 reg = Ok reg1 →
  register from_type to2 c2 reg1 = Ok reg2 →
  type_of var = from_type →
  cast_type type_of reg2 var None = Raise TypeError.
Proof.
  intros H1 H2 <-.
  assert (∃ casters, reg1 !! type_of var = Some casters
                     ∧ is_Some (casters !! to1)) as (cs1 & Hcs1 & Hin1).
  { unfold register in H1. unfold registry in *.
    destruct (reg !! type_of var) as [old|]; simpl in H1.
    - destruct (bool_decide _); simpl in H1; [done|]. injection H1 as <-.
      rewrite lookup_insert_eq. eexists. split; [done|].
      by rewrite lookup_insert_eq.
    - injection H1 as <-. rewrite lookup_insert_eq. eexists. split; [done|].
      by rewrite lookup_insert_eq. }
  unfold register in H2. unfold registry in *. rewrite Hcs1 in H2.
  destruct (bool_decide (is_Some (cs1 !! to2))) eqn:Hdup; simpl in H2;
    [done|].
  apply bool_decide_eq_false in Hdup. rewrite <- eq_None_not_Some in Hdup.
  injection H2 as <-. unfold cast_type. unfold registry in *.
  rewrite lookup_insert_eq.
  rewrite bool_decide_eq_true_2; [done|].
  rewrite map_size_insert_None by done.
  destruct Hin1 as [c Hc].
  assert (size cs1 ≠ 0%nat); [|lia].
  intros Hz%map_size_empty_inv. by rewrite Hz, lookup_empty in Hc.
Qed.
End CastFacts2.

Lemma cast_type_registered_witness :
  cast_type (λ _ : Z, float_type) ex_registry2 5 (Some int_type)
  = ex_caster 5.
Proof.
  apply (proj1 (cast_type_registered (λ _ : Z, float_type)
                  ex_registry1 ex_registry2 float_type int_type ex_caster
                  eq_refl) 5 eq_refl).
Defined.

Lemma cast_type_second_converter_witness :
  cast_type (λ _ : Z, float_type) ex_registry3 5 None = Raise TypeError.
Proof.
  exact (cast_type_second_converter (λ _ : Z, float_type)
           ex_registry1 ex_registry2 ex_registry3 float_type int_type
           str_type ex_caster ex_caster 5 eq_refl eq_refl eq_refl).
Defined.

Lemma register_duplicate_witness :
  ∃ reg', register float_type int_type ex_caster ex_registry1 = Ok reg'
    ∧ ∀ another : @caster Z,
        register float_type int_type another reg' = Raise AssertionError.
Proof.
  exact (proj2 (register_duplicate ex_registry1 float_type int_type ex_caster)
           eq_refl).
Defined.

(** ** Parameter identity and attributes *)

Lemma Parameter_new_inv (st : param_state) (block : Block)
    (parameter : param_ref) :
  table_inv st → table_inv (Parameter_new st block parameter).2.
Proof.
  intros Hinv. unfold Parameter_new.
  destruct (match parameter with
            | ByName name => find_param_index_by_name block name
            | ByIndex index => Ok index
            end) as [index|e|]; simpl; try done.
  case_bool_decide; simpl; [|done].
  destruct (_table st !! (block_id block, index)) eqn:Ht; simpl; [done|].
  intros uid obj Hu. simpl in Hu.
  destruct (decide (uid = (block_id block, index))) as [->|Hne].
  - rewrite lookup_insert_eq in Hu. injection Hu as <-. simpl.
    split_and!; try done. apply N.lt_succ_diag_r.
  - rewrite lookup_insert_ne in Hu by done.
    destruct (Hinv uid obj Hu) as (? & ? & ? & Hlt). split_and!; try done.
    simpl. by apply N.lt_lt_succ_r.
Qed.

Lemma param_reachable_inv (st : param_state) :
  param_reachable st → table_inv st.
Proof.
  induction 1 as [n|st block parameter _ IH].
  - intros uid obj Hu. simpl in Hu. by rewrite lookup_empty in Hu.
  - by apply Parameter_new_inv.
Qed.

Lemma run_constructions_reachable (calls : list (Block * param_ref))
    (st : param_state) :
  param_reachable st → param_reachable (run_constructions st calls).
Proof.
  revert st. induction calls as [|c calls IH]; intros st Hst; [done|].
  simpl. apply IH. by constructor.
Qed.

(** What a returning construction leaves: the object is in the table under
    the key of the block and the index it was made for. *)
Lemma Parameter_new_Ok (st st' : param_state) (block : Block)
    (parameter : param_ref) (obj : ParameterObj) :
  Parameter_new st block parameter = (Ok obj, st') →
  ∃ index,
    match parameter with
    | ByName name => find_param_index_by_name block name
    | ByIndex index => Ok index
    end = Ok index
    ∧ 0 ≤ index < Z.of_nat (length (parameters block))
    ∧ _table st' !! (block_id block, index) = Some obj.
Proof.
  unfold Parameter_new.
  destruct (match parameter with
            | ByName name => find_param_index_by_name block name
            | ByIndex index => Ok index
            end) as [index|e|]; simpl; try done.
  case_bool_decide as Hr; simpl; [|done].
  destruct (_table st !! (block_id block, index)) eqn:Ht; simpl.
  - intros [= <- <-]. by exists index.
  - intros [= <- <-]. exists index. simpl. by rewrite lookup_insert_eq.
Qed.


(** X17. One object per block identity and index: in a process that
    changes the table through the constructor only, two constructions, with
    any constructor calls in between, return the same object if and only if
    they are for the same block identity and resolve to the same index; the
    object carries that index and the identity of its block. *)
Theorem Parameter_unique (st st1 st3 : param_state) (b1 b2 : Block)
    (r1 r2 : param_ref) (o1 o2 : ParameterObj)
    (calls : list (Block * param_ref)) :
  param_reachable st →
  Parameter_new st b1 r1 = (Ok o1, st1) →
  Parameter_new (run_constructions st1 calls) b2 r2 = (Ok o2, st3) →
  param_uid o1 = (block_id b1, param_index o1)
  ∧ param_parent o1 = block_id b1
  ∧ 0 ≤ param_index o1 < Z.of_nat (length (parameters b1))
  ∧ (o1 = o2 ↔ block_id b1 = block_id b2 ∧ param_index o1 = param_index o2)
  ∧ (param_id o1 = param_id o2 ↔ o1 = o2).
Proof.
  intros Hst H1 H2.
  assert (param_reachable st1) as Hst1.
  { replace st1 with (Parameter_new st b1 r1).2 by (by rewrite H1).
    by constructor. }
  pose proof (run_constructions_reachable calls st1 Hst1) as Hst2.
  assert (param_reachable st3) as Hst3.
  { replace st3 with (Parameter_new (run_constructions st1 calls) b2 r2).2
      by (by rewrite H2).
    by constructor. }
  apply Parameter_new_Ok in H1 as (i1 & _ & Hr1 & Ht1).
  pose proof H2 as H2'.
  apply Parameter_new_Ok in H2 as (i2 & _ & Hr2 & Ht2).
  assert (_table st3 !! (block_id b1, i1) = Some o1) as Ht1'.
  { replace st3 with (Parameter_new (run_constructions st1 calls) b2 r2).2
      by (by rewrite H2').
    by apply Parameter_new_table_mono, run_constructions_table_mono. }
  destruct (param_reachable_inv _ Hst3 _ _ Ht1') as (Hu1 & Hi1 & Hp1 & _).
  destruct (param_reachable_inv _ Hst3 _ _ Ht2) as (Hu2 & Hi2 & Hp2 & _).
  simpl in *. subst i1 i2.
  assert (o1 = o2 ↔ block_id b1 = block_id b2
                    ∧ param_index o1 = param_index o2) as Hiff.
  { split; [intros <-; split; congruence|].
    intros [Hb Hi]. rewrite Hb, Hi in Ht1'. congruence. }
  split; [congruence|]. split; [done|]. split; [done|]. split; [done|].
  split; [|by intros ->].
  (* identities are allocated once: an object made later than another has a
     larger identity *)
  intros Hid. apply Hiff.
  assert (∀ st, param_reachable st →
            ∀ u u' o o', _table st !! u = Some o → _table st !! u' = Some o' →
                         param_id o = param_id o' → u = u') as Hinj.
  { clear. induction 1 as [n|st block parameter Hst IH].
    - intros u u' o o' Hu. simpl in Hu. by rewrite lookup_empty in Hu.
    - pose proof (param_reachable_inv _ Hst) as Hinv.
      unfold Parameter_new.
      destruct (match parameter with
                | ByName name => find_param_index_by_name block name
                | ByIndex index => Ok index
                end) as [index|e|]; simpl; try done.
      case_bool_decide; simpl; [|done].
      destruct (_table st !! (block_id block, index)) eqn:Ht; simpl; [done|].
      intros u u' o o' Hu Hu' Hid.
      destruct (decide (u = (block_id block, index))) as [->|Hne];
        destruct (decide (u' = (block_id block, index))) as [->|Hne'];
        try done.
      + rewrite lookup_insert_eq in Hu. rewrite lookup_insert_ne in Hu' by done.
        injection Hu as <-. simpl in Hid.
        destruct (Hinv _ _ Hu') as (_ & _ & _ & Hlt).
        rewrite Hid in Hlt. by apply N.lt_irrefl in Hlt.
      + rewrite lookup_insert_eq in Hu'. rewrite lookup_insert_ne in Hu by done.
        injection Hu' as <-. simpl in Hid.
        destruct (Hinv _ _ Hu) as (_ & _ & _ & Hlt).
        rewrite <- Hid in Hlt. by apply N.lt_irrefl in Hlt.
      + rewrite lookup_insert_ne in Hu, Hu' by done. by eapply IH. }
  specialize (Hinj st3 Hst3 _ _ _ _ Ht1' Ht2 Hid).
  by injection Hinj.
Qed.


Lemma Parameter_unique_witness :
  ex_param = ex_param ↔
  block_id ex_block = block_id ex_block
  ∧ param_index ex_param = param_index ex_param.
Proof.
  exact (proj1 (proj2 (proj2 (proj2
    (Parameter_unique (mkParamState ∅ 31)
       (mkParamState (<[(30%N, 0) := ex_param]> ∅) 32)
       (mkParamState (<[(30%N, 0) := ex_param]> ∅) 32)
       ex_block ex_block (ByIndex 0) (ByIndex 0) ex_param ex_param []
       (param_reachable_init 31) eq_refl eq_refl))))).
Defined.


(** ** Weak memoization of signals *)

Lemma signal_step_inv (st : signal_state) (a : signal_action) :
  signals_inv st → signals_inv (signal_step st a).
Proof.
  intros [Ht Hl]. destruct a as [port|dead]; simpl.
  - unfold SignalReference_new.
    destruct (_signals st !! port_id port ≫= weakref_call st); simpl;
      [done|].
    split.
    + intros pid sid Hs. simpl in Hs.
      destruct (decide (pid = port_id port)) as [->|Hne].
      * rewrite lookup_insert_eq in Hs. injection Hs as <-.
        apply N.lt_succ_diag_r.
      * rewrite lookup_insert_ne in Hs by done.
        by eapply N.lt_lt_succ_r, Ht.
    + intros sid Hs. simpl in Hs. apply elem_of_union in Hs as [Hs|Hs].
      * apply elem_of_singleton in Hs as ->. apply N.lt_succ_diag_r.
      * by apply N.lt_lt_succ_r, Hl.
  - split; [done|]. intros sid Hs. simpl in Hs.
    apply elem_of_difference in Hs as [Hs _]. by apply Hl.
Qed.

Lemma run_signal_actions_inv (actions : list signal_action)
    (st : signal_state) :
  signals_inv st → signals_inv (run_signal_actions st actions).
Proof.
  revert st. induction actions as [|a actions IH]; intros st Hst; [done|].
  simpl. by apply IH, signal_step_inv.
Qed.

Lemma signal_step_next (st : signal_state) (a : signal_action) :
  (next_signal st ≤ next_signal (signal_step st a))%N.
Proof.
  destruct a as [port|dead]; simpl; [|done].
  unfold SignalReference_new.
  destruct (_signals st !! port_id port ≫= weakref_call st); simpl; [done|].
  apply N.le_succ_diag_r.
Qed.

(** A signal that is alive after some actions was alive all along, and is
    still what the table holds for its port. *)
Lemma signal_step_keeps (st : signal_state) (a : signal_action)
    (pid sid : N) :
  (sid < next_signal st)%N →
  (sid ∈ live_signals st → _signals st !! pid = Some sid) →
  sid ∈ live_signals (signal_step st a) →
  _signals (signal_step st a) !! pid = Some sid.
Proof.
  intros Hlt Hkeep. destruct a as [port|dead]; simpl.
  - unfold SignalReference_new.
    destruct (_signals st !! port_id port ≫= weakref_call st) as [c|] eqn:Hc;
      simpl; [done|].
    intros Hs. apply elem_of_union in Hs as [Hs|Hs].
    { apply elem_of_singleton in Hs. subst sid. by apply N.lt_irrefl in Hlt. }
    specialize (Hkeep Hs).
    destruct (decide (pid = port_id port)) as [->|Hne].
    + rewrite Hkeep in Hc. simpl in Hc. unfold weakref_call in Hc.
      by rewrite bool_decide_eq_true_2 in Hc.
    + by rewrite lookup_insert_ne.
  - intros Hs. apply elem_of_difference in Hs as [Hs _]. by apply Hkeep.
Qed.

Lemma run_signal_actions_keeps (actions : list signal_action) :
  ∀ (st : signal_state) (pid sid : N),
    (sid < next_signal st)%N →
    (sid ∈ live_signals st → _signals st !! pid = Some sid) →
    sid ∈ live_signals (run_signal_actions st actions) →
    _signals (run_signal_actions st actions) !! pid = Some sid.
Proof.
  induction actions as [|a actions IH]; intros st pid sid Hlt Hkeep;
    [done|].
  simpl. apply IH.
  - eapply N.lt_le_trans; [done|]. apply signal_step_next.
  - by apply signal_step_keeps.
Qed.

Lemma run_signal_actions_next (actions : list signal_action)
    (st : signal_state) :
  (next_signal st ≤ next_signal (run_signal_actions st actions))%N.
Proof.
  revert st. induction actions as [|a actions IH]; intros st; [done|].
  simpl. etrans; [apply signal_step_next|apply IH].
Qed.

(** X19. The memoization of signals is weak.  A construction returns a live
    signal for the port; as long as that signal is alive, whatever is
    constructed or collected meanwhile, constructing a signal for the same
    port returns the identical object and changes nothing; once it has been
    collected, the construction returns an object of another identity. *)
Theorem SignalReference_weak_memo (n : N) (before after : list signal_action)
    (src : Port) (s1 : SignalReference) (st1 : signal_state) :
  let st := run_signal_actions (mkSignalState ∅ ∅ n) before in
  SignalReference_new st src = (s1, st1) →
  let st2 := run_signal_actions st1 after in
  port s1 = src
  ∧ sig_id s1 ∈ live_signals st1
  ∧ (sig_id s1 ∈ live_signals st2 →
     SignalReference_new st2 src = (s1, st2))
  ∧ (sig_id s1 ∉ live_signals st2 →
     sig_id (SignalReference_new st2 src).1 ≠ sig_id s1
     ∧ sig_id (SignalReference_new st2 src).1
       ∈ live_signals (SignalReference_new st2 src).2).
Proof.
  intros st Hnew st2.
  assert (signals_inv st) as Hinv.
  { apply run_signal_actions_inv. split.
    - intros pid sid Hs. simpl in Hs. by rewrite lookup_empty in Hs.
    - intros sid Hs. simpl in Hs. by apply not_elem_of_empty in Hs. }
  assert (signals_inv st1) as Hinv1.
  { replace st1 with (signal_step st (MakeSignal src))
      by (simpl; by rewrite Hnew).
    by apply signal_step_inv. }
  assert (port s1 = src ∧ sig_id s1 ∈ live_signals st1
          ∧ _signals st1 !! port_id src = Some (sig_id s1))
    as (Hport & Hlive & Htable).
  { unfold SignalReference_new in Hnew.
    destruct (_signals st !! port_id src) as [c|] eqn:Hc; simpl in Hnew.
    - unfold weakref_call in Hnew. case_bool_decide as Hl.
      + by injection Hnew as <- <-.
      + injection Hnew as <- <-. simpl. split; [done|].
        split; [|by rewrite lookup_insert_eq].
        apply elem_of_union_l. by apply elem_of_singleton.
    - injection Hnew as <- <-. simpl. split; [done|].
      split; [|by rewrite lookup_insert_eq].
      apply elem_of_union_l. by apply elem_of_singleton. }
  assert (sig_id s1 < next_signal st1)%N as Hlt by (by apply Hinv1).
  split; [done|]. split; [done|]. split.
  - intros Hlive2.
    pose proof (run_signal_actions_keeps after st1 (port_id src) (sig_id s1)
                  Hlt (λ _, Htable) Hlive2) as Ht2.
    fold st2 in Ht2. unfold SignalReference_new. rewrite Ht2. simpl.
    unfold weakref_call. rewrite bool_decide_eq_true_2 by done.
    destruct s1 as [sid p]. simpl in *. by subst p.
  - intros Hdead.
    pose proof (run_signal_actions_next after st1) as Hnext. fold st2 in Hnext.
    unfold SignalReference_new.
    destruct (_signals st2 !! port_id src) as [c|] eqn:Hc; simpl.
    + unfold weakref_call. case_bool_decide as Hl; simpl.
      * split; [by intros ->|done].
      * split.
        -- intros Heq. rewrite Heq in Hnext.
           by apply N.lt_nge in Hlt.
        -- apply elem_of_union_l. by apply elem_of_singleton.
    + split.
      * intros Heq. rewrite Heq in Hnext. by apply N.lt_nge in Hlt.
      * apply elem_of_union_l. by apply elem_of_singleton.
Qed.

Lemma SignalReference_weak_memo_witness :
  SignalReference_new
    (mkSignalState (<[20%N := 5%N]> ∅) ({[ 5%N ]} ∪ ∅) 6) ex_port
  = (mkSignal 5 ex_port,
     mkSignalState (<[20%N := 5%N]> ∅) ({[ 5%N ]} ∪ ∅) 6).
Proof.
  refine (proj1 (proj2 (proj2
    (SignalReference_weak_memo 5 [] [] ex_port (mkSignal 5 ex_port)
       (mkSignalState (<[20%N := 5%N]> ∅) ({[ 5%N ]} ∪ ∅) 6) eq_refl))) _).
  apply elem_of_union_l, elem_of_singleton. reflexivity.
Defined.

(** ** The sympy vector *)

Section SympyFacts.

Lemma index_loop_spec {A} `{EqDecision A} (items : list A) (value : A) :
  ∀ i : nat,
    (index_loop i items value = -1 ∧ value ∉ items)
    ∨ ∃ k : nat,
        index_loop i items value = Z.of_nat (i + k)
        ∧ items !! k = Some value
        ∧ ∀ j : nat, (j < k)%nat → items !! j ≠ Some value.
Proof.
  induction items as [|v rest IH]; intros i; simpl.
  - left. split; [done|apply not_elem_of_nil].
  - case_bool_decide as Hv.
    + right. exists 0%nat. subst v. split; [f_equal; lia|].
      split; [done|]. intros j Hj. lia.
    + destruct (IH (S i)) as [[Hr Hn]|(k & Hr & Hk & Hmin)].
      * left. split; [done|]. rewrite not_elem_of_cons. split; [|done].
        congruence.
      * right. exists (S k). split; [rewrite Hr; f_equal; lia|].
        split; [done|]. intros [|j] Hj; simpl; [congruence|].
        apply Hmin. lia.
Qed.

(** X20. [SymbolicVector.index] never raises: it returns [-1] exactly when
    the value is not an entry of the vector, and otherwise the first
    position that holds it. *)
Theorem SymbolicVector_index_spec {A} `{EqDecision A} (self : list A)
    (value : A) :
  (SymbolicVector_index self value = -1 ↔ value ∉ self)
  ∧ (value ∈ self →
     ∃ k : nat,
       SymbolicVector_index self value = Z.of_nat k
       ∧ self !! k = Some value
       ∧ ∀ j : nat, (j < k)%nat → self !! j ≠ Some value).
Proof.
  unfold SymbolicVector_index.
  destruct (index_loop_spec self value 0) as [[Hr Hn]|(k & Hr & Hk & Hmin)].
  - split; [done|]. intros Hin. done.
  - simpl in Hr. split.
    + rewrite Hr. split; [lia|]. intros Hn. exfalso. apply Hn.
      by eapply list_elem_of_lookup_2.
    + intros _. by exists k.
Qed.

Lemma range_length_empty (start step : Z) : range_length start start step = 0.
Proof.
  unfold range_length. rewrite !(bool_decide_eq_false_2 (start < start)) by lia.
  by case_bool_decide.
Qed.

(** X21. Assigning a list to a slice of a [SymbolicVector] changes nothing:
    the loop runs over [range(key.start, key.start, step)], which is empty,
    so the parent's [__setitem__] is not called and the list is not read,
    whatever its length; a slice without a start raises [TypeError].  Every
    other assignment is the parent's. *)
Theorem SymbolicVector_setitem_slice {A}
    (Matrix_setitem : list A → subscript → @assigned A → result (list A))
    (self : list A) :
  (∀ (start : Z) (stop step : option Z) (items : list A),
      SymbolicVector_setitem Matrix_setitem self
        (SubSlice (Some start) stop step) (AsList items) = Ok self)
  ∧ (∀ (stop step : option Z) (items : list A),
      SymbolicVector_setitem Matrix_setitem self
        (SubSlice None stop step) (AsList items) = Raise TypeError)
  ∧ (∀ (key : subscript) (item : A),
      SymbolicVector_setitem Matrix_setitem self key (AsItem item)
      = Matrix_setitem self key (AsItem item))
  ∧ (∀ (i : Z) (value : @assigned A),
      SymbolicVector_setitem Matrix_setitem self (SubIndex i) value
      = Matrix_setitem self (SubIndex i) value).
Proof.
  split_and!.
  - intros start stop step items. simpl. unfold py_range.
    by rewrite range_length_empty.
  - done.
  - by intros [].
  - done.
Qed.

Lemma append_empty_l (s : string) : "" +:+ s = s.
Proof. reflexivity. Qed.

Lemma append_String_l (c : ascii) (a s : string) :
  String c a +:+ s = String c (a +:+ s).
Proof. reflexivity. Qed.

Lemma no_underscore_String (c : ascii) (s : string) :
  c ≠ "_"%char → no_underscore s → no_underscore (String c s).
Proof.
  intros Hc Hs [|c' a] b Heq;
    rewrite ?append_empty_l, ?append_String_l, ?append_empty_l in Heq;
    injection Heq as Heq1 Heq2.
  - congruence.
  - exact (Hs _ _ Heq2).
Qed.

Lemma pretty_N_char_no_underscore (x : N) : pretty_N_char x ≠ "_"%char.
Proof. unfold pretty_N_char. by repeat case_match. Qed.

Lemma pretty_N_go_no_underscore (x : N) :
  ∀ s, no_underscore s → no_underscore (pretty_N_go x s).
Proof.
  induction (N.lt_wf_0 x) as [x _ IH]; intros s Hs.
  assert (x = 0 ∨ 0 < x)%N as [->|Hx] by lia.
  - by rewrite pretty_N_go_0.
  - rewrite pretty_N_go_step by done. apply IH.
    + by apply N.div_lt.
    + apply no_underscore_String; [apply pretty_N_char_no_underscore|done].
Qed.

Lemma pretty_N_no_underscore (x : N) : no_underscore (pretty x).
Proof.
  unfold pretty, pretty_N. case_decide.
  - intros [|c a] b Heq; rewrite ?append_empty_l, ?append_String_l, ?append_empty_l in Heq;
      [done|].
    injection Heq as _ Ha. destruct a; by rewrite ?append_String_l, ?append_empty_l in Ha.
  - apply pretty_N_go_no_underscore.
    intros [|c a] b Heq; by rewrite ?append_empty_l, ?append_String_l, ?append_empty_l in Heq.
Qed.

(** The name and the counter can be read back from the result. *)
Lemma validated_name_inj (name name' : string) (idx idx' : N) :
  name +:+ ("_" +:+ pretty idx) = name' +:+ ("_" +:+ pretty idx') →
  name = name' ∧ idx = idx'.
Proof.
  revert name'. induction name as [|c name IH]; intros [|c' name'] Heq;
    rewrite ?append_empty_l, ?append_String_l, ?append_empty_l in Heq.
  - injection Heq as Heq. split; [done|]. by apply (inj pretty) in Heq.
  - injection Heq as _ Heq.
    by destruct (pretty_N_no_underscore idx name' (pretty idx')).
  - injection Heq as _ Heq. symmetry in Heq.
    by destruct (pretty_N_no_underscore idx' name (pretty idx)).
  - injection Heq as <- Heq. destruct (IH _ Heq) as [-> ->]. done.
Qed.

Lemma _validate_name_spec (_names : gmap string N) (name : string) :
  _validate_name _names name
  = (name +:+ ("_" +:+ pretty (default 0%N (_names !! name))),
     <[name := (default 0%N (_names !! name) + 1)%N]> _names).
Proof.
  unfold _validate_name. destruct (_names !! name) as [idx|] eqn:Hn; simpl.
  - by rewrite Hn.
  - rewrite lookup_insert_eq. simpl. by rewrite insert_insert_eq.
Qed.

(** Every name handed out so far is below the counter of its base name. *)
Lemma validate_names_spec (names : list string) :
  ∀ (_names : gmap string N) (rs : list string) (names' : gmap string N),
    validate_names _names names = (rs, names') →
    (∀ name, (default 0 (_names !! name) ≤ default 0 (names' !! name))%N)
    ∧ NoDup rs
    ∧ ∀ r, r ∈ rs →
        ∃ name idx, r = name +:+ ("_" +:+ pretty idx)
                    ∧ (default 0 (_names !! name) ≤ idx)%N
                    ∧ (idx < default 0 (names' !! name))%N.
Proof.
  induction names as [|name rest IH]; intros _names rs names' Hv;
    simpl in Hv.
  - injection Hv as <- <-. split; [done|]. split; [constructor|].
    intros r Hr. by apply elem_of_nil in Hr.
  - rewrite _validate_name_spec in Hv.
    destruct (validate_names _ rest) as [rs' names2] eqn:Hrest.
    injection Hv as <- <-.
    destruct (IH _ _ _ Hrest) as (Hmono & Hnd & Hrs).
    set (idx0 := default 0%N (_names !! name)) in *.
    assert (∀ name', (default 0 (_names !! name')
                      ≤ default 0 (<[name := (idx0 + 1)%N]> _names !! name'))%N)
      as Hstep.
    { intros name'. destruct (decide (name' = name)) as [->|Hne].
      - rewrite lookup_insert_eq. simpl. fold idx0. lia.
      - by rewrite lookup_insert_ne. }
    split_and!.
    + intros name'. etrans; [apply Hstep|apply Hmono].
    + apply NoDup_cons. split; [|done].
      intros Hin. destruct (Hrs _ Hin) as (name' & idx & Heq & Hge & _).
      apply validated_name_inj in Heq as [<- <-].
      rewrite lookup_insert_eq in Hge. simpl in Hge. lia.
    + intros r Hr. apply elem_of_cons in Hr as [->|Hr].
      * exists name, idx0. split; [done|]. split; [done|].
        specialize (Hmono name). rewrite lookup_insert_eq in Hmono.
        simpl in Hmono. lia.
      * destruct (Hrs _ Hr) as (name' & idx & Heq & Hge & Hlt).
        exists name', idx. split; [done|]. split; [|done].
        etrans; [apply Hstep|done].
Qed.

(** X22. [_validate_name] never hands out a name twice: in any sequence of
    calls from the empty table, whatever the names asked for, the results
    are pairwise distinct; the [k]-th call for a name returns the name
    followed by an underscore and [k - 1]. *)
Theorem _validate_name_unique (names : list string) :
  NoDup (validate_names ∅ names).1
  ∧ ∀ (_names : gmap string N) (name : string),
      (_validate_name _names name).1
      = name +:+ ("_" +:+ pretty (default 0%N (_names !! name)))
      ∧ (_validate_name _names name).2 !! name
        = Some (default 0 (_names !! name) + 1)%N.
Proof.
  split.
  - destruct (validate_names ∅ names) as [rs names'] eqn:Hv.
    by destruct (validate_names_spec names _ _ _ Hv) as (_ & Hnd & _).
  - intros _names name. rewrite _validate_name_spec. simpl.
    by rewrite lookup_insert_eq.
Qed.

End SympyFacts.
